(** * linux_encrypter.py: a shallow embedding and its verified properties

    The program walks three root directories and replaces every eligible
    regular file by an AEAD container [nonce || tag || ciphertext] whose
    key is derived from a master secret and the file's path.

    The embedding follows the source function by function.  Python
    exceptions are values of [exn]; the interpreter state that the program
    touches (file system, log, random source) is the record [world]; a
    [CryptoEngine] object is a record threaded next to the world, because
    [_derive_key] mutates [self.key_cache].

    Library code (hashlib, PyCryptodome, os, logging) is not part of the
    program.  Hash functions and the two AEAD ciphers are taken as an
    interface ([CryptoLib]) with the contract their documentation gives.
    [os] and [open] are modelled on a flat map from path strings to
    nodes, with these limits:
    - a node is a regular file (bytes and a mode) or a directory; there
      are no symbolic links, devices or sockets, and no hard links: two
      different path strings never name the same object.  What the
      program asks of the file system, and of which names, is recorded
      in the trace and holds without this limit; what is said of the
      paths a call leaves unchanged holds for such a file system only;
    - there are no permission checks and no check that the parent of a
      path exists: opening for reading fails on a missing path or a
      directory, opening for writing fails on a directory only;
    - path strings are kept as the bytes the file system holds, and the
      file-system encoding is UTF-8 with surrogateescape, so that
      [str.encode] fails exactly on the paths that are not well-formed
      UTF-8;
    - the log is a list of lines kept apart from the file system;
    - [os.walk] descends recursively, and the recursion of the model is
      bounded by a fuel argument; a walk that exhausts it is told apart
      from one that returns. *)

From Stdlib Require Import ZArith NArith Strings.Ascii Strings.String Strings.Byte.
From Stdlib Require Import DecimalString.
From stdpp Require Import gmap strings list fin_maps.

Open Scope string_scope.

Abbreviation bytes := (list byte).

(** ** Python strings

    A string of the model is a sequence of bytes; for a path these are
    the bytes the file system holds, which is what [open] and [os] hand
    to the operating system.  The Python str of a path is [os.fsdecode]
    of its bytes (UTF-8 with the surrogateescape handler, the file-system
    encoding on Linux): each well-formed UTF-8 sequence is one character
    and every other byte is one lone surrogate.  Concatenation with ASCII
    text and prefix and suffix tests against ASCII text are the same on
    the str and on the bytes. *)

(** [s.startswith(pre)] *)
Fixpoint startswith (s pre : string) {struct pre} : bool :=
  match pre with
  | "" => true
  | String a pre' =>
      match s with
      | "" => false
      | String b s' => if Ascii.eqb a b then startswith s' pre' else false
      end
  end.

(** [s.endswith(suf)]: [s] itself is [suf], or the tail of [s] ends with it. *)
Fixpoint endswith (s suf : string) : bool :=
  String.eqb s suf ||
  match s with
  | "" => false
  | String _ s' => endswith s' suf
  end.

(** [any(p(x) for x in l)] *)
Definition any {A} (p : A → bool) (l : list A) : bool := existsb p l.

(** ** Configuration (the module-level dict [CONFIG]) *)

Module CONFIG.
Definition keystore : string := "/etc/.cryptokeys".
Definition logfile : string := "/var/log/autocrypt.log".
Definition exclude : list string :=
  ["/proc/"; "/sys/"; "/dev/"; "/run/"; "/boot/"; "/etc/.cryptokeys"].
Definition extensions : list string := [".enc"].
Definition algo : string := "AES-256-GCM".
(** N, r and p; no function of the program reads them. *)
Definition scrypt_params : Z * Z * Z := (2 ^ 20, 8, 1)%Z.
End CONFIG.

(** ** Exceptions and results *)

Inductive exn : Type :=
  | FileNotFoundError (path : string)
  | IsADirectoryError (path : string)
  | OSError (msg : string)
  | ValueError (msg : string)
  (* the characters [start], ..., [stop - 1] of the str are lone
     surrogates, the first of them standing for [byte] *)
  | UnicodeEncodeError (start stop : nat) (byte : N).

Definition decimal (n : nat) : string := NilZero.string_of_uint (Nat.to_uint n).

Definition hex_digit (n : N) : string :=
  match String.get (N.to_nat n) "0123456789abcdef" with
  | Some c => String c ""
  | None => ""
  end.

(** [str(e)] as it appears in the log line. *)
Definition str (e : exn) : string :=
  match e with
  | FileNotFoundError p => "[Errno 2] No such file or directory: '" ++ p ++ "'"
  | IsADirectoryError p => "[Errno 21] Is a directory: '" ++ p ++ "'"
  | OSError msg => msg
  | ValueError msg => msg
  | UnicodeEncodeError start stop byte =>
      if Nat.eqb stop (S start)
      then "'utf-8' codec can't encode character '\udc"
           ++ hex_digit (byte / 16) ++ hex_digit (byte mod 16)
           ++ "' in position " ++ decimal start ++ ": surrogates not allowed"
      else "'utf-8' codec can't encode characters in position "
           ++ decimal start ++ "-" ++ decimal (stop - 1)
           ++ ": surrogates not allowed"
  end.

(** ** Text encoding *)

Definition in_range (lo hi b : N) : bool := (lo <=? b)%N && (b <=? hi)%N.
Definition is_continuation (b : N) : bool := in_range 128 191 b.

(** Length of the well-formed UTF-8 sequence that [l] starts with, or 0
    when it starts with none.  As in CPython's decoder, overlong forms,
    encoded surrogates and values above U+10FFFF are not well formed. *)
Definition utf8_head (l : list N) : nat :=
  match l with
  | [] => 0
  | b0 :: l1 =>
      if (b0 <? 128)%N then 1
      else
        match l1 with
        | [] => 0
        | b1 :: l2 =>
            if in_range 194 223 b0 then (if is_continuation b1 then 2 else 0)
            else
              match l2 with
              | [] => 0
              | b2 :: l3 =>
                  if (b0 =? 224)%N && in_range 160 191 b1
                     || in_range 225 236 b0 && is_continuation b1
                     || (b0 =? 237)%N && in_range 128 159 b1
                     || in_range 238 239 b0 && is_continuation b1
                  then (if is_continuation b2 then 3 else 0)
                  else
                    match l3 with
                    | [] => 0
                    | b3 :: _ =>
                        if ((b0 =? 240)%N && in_range 144 191 b1
                            || in_range 241 243 b0 && is_continuation b1
                            || (b0 =? 244)%N && in_range 128 143 b1)
                           && is_continuation b2 && is_continuation b3
                        then 4 else 0
                    end
              end
        end
  end.

(** The characters of [os.fsdecode(l)], in order: [None] for a character
    decoded from a well-formed sequence, [Some b] for the lone surrogate
    that escapes the byte [b].  [skip] counts the bytes left of a sequence
    already decoded. *)
Fixpoint fsdecode (skip : nat) (l : list N) : list (option N) :=
  match l with
  | [] => []
  | b :: l' =>
      match skip with
      | S k => fsdecode k l'
      | O =>
          match utf8_head l with
          | O => Some b :: fsdecode 0 l'
          | S k => None :: fsdecode k l'
          end
      end
  end.

(** The first lone surrogate among the characters [cs], numbered from
    [i]: its index, the index after the run of surrogates it starts, and
    the byte it escapes. *)
Fixpoint surrogate_run (cs : list (option N)) : nat :=
  match cs with
  | Some _ :: cs' => S (surrogate_run cs')
  | _ => 0
  end.

Fixpoint first_surrogate (i : nat) (cs : list (option N)) : option (nat * nat * N) :=
  match cs with
  | [] => None
  | None :: cs' => first_surrogate (S i) cs'
  | Some b :: cs' => Some (i, S i + surrogate_run cs', b)
  end.

(** [s.encode()], strict UTF-8: the bytes of [s], unless the str holds a
    lone surrogate; the encoder then raises at the first run of them. *)
Definition encode (s : string) : exn + bytes :=
  match first_surrogate 0 (fsdecode 0 (map N_of_ascii (list_ascii_of_string s))) with
  | None => inr (String.list_byte_of_string s)
  | Some (start, stop, b) => inl (UnicodeEncodeError start stop b)
  end.

(** The message PyCryptodome raises when a tag does not verify; the
    specification calls this error kind AuthenticationFailed. *)
Definition MAC_check_failed : exn := ValueError "MAC check failed".

(** A computation returns, raises, or (only the directory walk) exhausts
    the recursion budget of the model. *)
Inductive result (A : Type) : Type :=
  | Ok (a : A)
  | Raise (e : exn)
  | OutOfFuel.
Arguments Ok {A} a.
Arguments Raise {A} e.
Arguments OutOfFuel {A}.

(** State-and-exception monad.  As in Python, what was mutated before an
    exception stays mutated. *)
Definition M (Σ A : Type) : Type := Σ → result A * Σ.

Definition ret {Σ A} (a : A) : M Σ A := fun σ => (Ok a, σ).
Definition raise {Σ A} (e : exn) : M Σ A := fun σ => (Raise e, σ).
Definition bind {Σ A B} (m : M Σ A) (k : A → M Σ B) : M Σ B :=
  fun σ =>
    match m σ with
    | (Ok a, σ') => k a σ'
    | (Raise e, σ') => (Raise e, σ')
    | (OutOfFuel, σ') => (OutOfFuel, σ')
    end.

(** [try: body  except Exception as e: handler(e)] *)
Definition try_except {Σ A} (body : M Σ A) (handler : exn → M Σ A) : M Σ A :=
  fun σ =>
    match body σ with
    | (Raise e, σ') => handler e σ'
    | r => r
    end.

Declare Scope py_scope.
Delimit Scope py_scope with py.
Notation "'let*' x ':=' m 'in' k" := (bind m (fun x => k))
  (at level 10, x pattern, m at level 100, k at level 200) : py_scope.
Notation "m ;; k" := (bind m (fun _ => k))
  (at level 100, k at level 200, right associativity) : py_scope.
Open Scope py_scope.

(** [for x in l: body(x)] *)
Fixpoint for_each {Σ A} (l : list A) (body : A → M Σ unit) : M Σ unit :=
  match l with
  | [] => ret tt
  | x :: l' => body x ;; for_each l' body
  end.

(** ** The world *)

(** What a path names: a regular file or a directory.  Each path names
    an object of its own; symbolic and hard links are outside the
    model. *)
Inductive node : Type :=
  | File (data : bytes) (mode : Z)
  | Dir.

Inductive level : Type := INFO | ERROR.

(** Ghost record of what a run did: it is appended to by the primitives
    below and never read by the program. *)
Inductive event : Type :=
  | Call_encrypt_file (path : string)
  | Call_decrypt_file (path : string)
  | Fs_write (path : string) (data : bytes)
  | Fs_remove (path : string)
  | Fs_rename (src dst : string)
  | Fs_chmod (path : string) (mode : Z)
  | Aead_encrypt (key nonce data : bytes)
  | Aead_decrypt (key nonce ciphertext tag : bytes).

Record world : Type := World {
  fs : gmap string node;          (* regular files and directories, by path *)
  umask : Z;                      (* process umask, for files [open] creates *)
  log : list (level * string);    (* lines handed to [logging] *)
  urandom : nat → byte;           (* the operating system's random stream *)
  rand_pos : nat;                 (* how much of it has been consumed *)
  trace : list event;             (* ghost *)
}.

Definition set_fs (f : gmap string node → gmap string node) (w : world) : world :=
  World (f (fs w)) (umask w) (log w) (urandom w) (rand_pos w) (trace w).
Definition add_log (l : level) (msg : string) (w : world) : world :=
  World (fs w) (umask w) (log w ++ [(l, msg)]) (urandom w) (rand_pos w) (trace w).
Definition add_event (e : event) (w : world) : world :=
  World (fs w) (umask w) (log w) (urandom w) (rand_pos w) (trace w ++ [e]).
Definition advance (n : nat) (w : world) : world :=
  World (fs w) (umask w) (log w) (urandom w) (rand_pos w + n) (trace w).

Definition emit (e : event) : M world unit := fun w => (Ok tt, add_event e w).

(** ** Operating system and library primitives *)

(** Mode of a file that [open(..., 'wb')] creates: [0o666 & ~umask]. *)
Definition created_mode (w : world) : Z := Z.land 438 (Z.lnot (umask w)).

(** [with open(path, 'rb') as f]: the bytes that the reads will consume. *)
Definition open_rb (path : string) : M world bytes := fun w =>
  match fs w !! path with
  | Some (File data _) => (Ok data, w)
  | Some Dir => (Raise (IsADirectoryError path), w)
  | None => (Raise (FileNotFoundError path), w)
  end.

(** [f.read(n)]: at most [n] bytes, and what is left to read. *)
Definition f_read (n : nat) (buf : bytes) : bytes * bytes := (take n buf, drop n buf).
(** [f.read()]: everything that is left. *)
Definition f_read_all (buf : bytes) : bytes := buf.

(** [with open(path, 'wb') as f: f.write(c1); ...; f.write(cn)]: the file
    is created (or truncated, keeping its mode) and holds the chunks in
    order.  The write is recorded under the name that was opened; the
    file it lands in is the one of that name, there being no links to
    follow in the model. *)
Definition with_open_wb (path : string) (chunks : list bytes) : M world unit := fun w =>
  match fs w !! path with
  | Some Dir => (Raise (IsADirectoryError path), w)
  | Some (File _ mode) =>
      (Ok tt, add_event (Fs_write path (concat chunks))
                (set_fs (insert path (File (concat chunks) mode)) w))
  | None =>
      (Ok tt, add_event (Fs_write path (concat chunks))
                (set_fs (insert path (File (concat chunks) (created_mode w))) w))
  end.

Definition os_remove (path : string) : M world unit := fun w =>
  match fs w !! path with
  | Some (File _ _) => (Ok tt, add_event (Fs_remove path) (set_fs (delete path) w))
  | Some Dir => (Raise (IsADirectoryError path), w)
  | None => (Raise (FileNotFoundError path), w)
  end.

(** [os.rename(src, dst)] for a regular file [src]; the program renames
    only files it has just written, and the model does not move
    directories. *)
Definition os_rename (src dst : string) : M world unit := fun w =>
  match fs w !! src with
  | Some (File data mode) =>
      match fs w !! dst with
      | Some Dir => (Raise (IsADirectoryError dst), w)
      | _ => (Ok tt, add_event (Fs_rename src dst)
                       (set_fs (fun m => delete src (<[dst := File data mode]> m)) w))
      end
  | Some Dir => (Raise (OSError "rename of a directory"), w)
  | None => (Raise (FileNotFoundError src), w)
  end.

Definition os_chmod (path : string) (mode : Z) : M world unit := fun w =>
  match fs w !! path with
  | Some (File data _) =>
      (Ok tt, add_event (Fs_chmod path mode) (set_fs (insert path (File data mode)) w))
  | Some Dir => (Ok tt, add_event (Fs_chmod path mode) w)
  | None => (Raise (FileNotFoundError path), w)
  end.

Definition os_path_exists (path : string) : M world bool := fun w =>
  (Ok (bool_decide (is_Some (fs w !! path))), w).

Definition isfile (m : gmap string node) (path : string) : bool :=
  match m !! path with Some (File _ _) => true | _ => false end.

Definition os_path_isfile (path : string) : M world bool := fun w =>
  (Ok (isfile (fs w) path), w).

(** The next [n] bytes of the random stream. *)
Definition random_bytes (w : world) (n : nat) : bytes :=
  map (urandom w) (seq (rand_pos w) n).
Arguments random_bytes : simpl never.

(** [Crypto.Random.get_random_bytes(n)] *)
Definition get_random_bytes (n : nat) : M world bytes := fun w =>
  (Ok (random_bytes w n), advance n w).

Definition logging_info (msg : string) : M world unit := fun w => (Ok tt, add_log INFO msg w).
Definition logging_error (msg : string) : M world unit := fun w => (Ok tt, add_log ERROR msg w).

(** [os.path.join(a, b)] *)
Definition os_path_join (a b : string) : string :=
  if startswith b "/" then b
  else if String.eqb a "" || endswith a "/" then a ++ b
  else a ++ "/" ++ b.

(** *** Directory listing *)

Fixpoint contains_sep (s : string) : bool :=
  match s with
  | "" => false
  | String c s' => Ascii.eqb c "/"%char || contains_sep s'
  end.

Fixpoint strip_prefix (pre s : string) {struct pre} : option string :=
  match pre with
  | "" => Some s
  | String a pre' =>
      match s with
      | "" => None
      | String b s' => if Ascii.eqb a b then strip_prefix pre' s' else None
      end
  end.

(** The name under which [key] is an entry of directory [top], if it is one. *)
Definition entry_name (top key : string) : option string :=
  match strip_prefix (os_path_join top "") key with
  | Some name => if String.eqb name "" || contains_sep name then None else Some name
  | None => None
  end.

(** [os.scandir(top)]: names of the entries, each with its node. *)
Definition scandir (m : gmap string node) (top : string) : list (string * node) :=
  omap (fun kn => match entry_name top (fst kn) with
                  | Some name => Some (name, snd kn)
                  | None => None
                  end) (map_to_list m).

Definition is_dir (n : node) : bool := match n with Dir => true | File _ _ => false end.

(** [for dirpath, dirnames, filenames in os.walk(top): body]: the entries of
    [top] are listed, the body runs, and then each subdirectory that was listed is
    walked in turn; a [top] that cannot be listed yields nothing.  [fuel]
    bounds the depth of the descent. *)
Fixpoint for_os_walk {Σ} (view : Σ → world) (fuel : nat) (top : string)
    (body : string → list string → list string → M Σ unit) : M Σ unit :=
  match fuel with
  | O => fun σ => (OutOfFuel, σ)
  | S fuel' => fun σ =>
      match fs (view σ) !! top with
      | Some Dir =>
          let entries := scandir (fs (view σ)) top in
          let dirs := map fst (filter (fun e => is_dir (snd e) = true) entries) in
          let nondirs := map fst (filter (fun e => is_dir (snd e) = false) entries) in
          (body top dirs nondirs ;;
           for_each dirs (fun dirname =>
             for_os_walk view fuel' (os_path_join top dirname) body)) σ
      | _ => (Ok tt, σ)
      end
  end.

(** ** The cryptographic library *)

Inductive algorithm : Type := AES_GCM | ChaCha20_Poly1305.

(** What a cipher constructor accepts.  [AES.new(key, AES.MODE_GCM,
    nonce=nonce)] takes a 16, 24 or 32 byte key and any non-empty nonce;
    [ChaCha20_Poly1305.new] takes a 32 byte key and a nonce of 8, 12 or 24
    bytes. *)
Definition key_ok (a : algorithm) (key : bytes) : bool :=
  match a with
  | AES_GCM => bool_decide (length key ∈ [16; 24; 32])
  | ChaCha20_Poly1305 => bool_decide (length key = 32)
  end.
Definition nonce_ok (a : algorithm) (nonce : bytes) : bool :=
  match a with
  | AES_GCM => bool_decide (nonce ≠ [])
  | ChaCha20_Poly1305 => bool_decide (length nonce ∈ [8; 12; 24])
  end.

(** The functions the program imports from hashlib and PyCryptodome, with
    the part of their contract the program relies on: digests of 32
    bytes, a 16 byte tag, a ciphertext as long as the plaintext, and
    [decrypt_and_verify] accepting exactly what [encrypt_and_digest]
    produces under the same key and nonce. *)
Class CryptoLib : Type := {
  sha256 : bytes → bytes;
  hmac_sha256 : bytes → bytes → bytes;
  seal : algorithm → bytes → bytes → bytes → bytes * bytes;
  unseal : algorithm → bytes → bytes → bytes → bytes → option bytes;
  hmac_sha256_length key msg : length (hmac_sha256 key msg) = 32;
  seal_length a key nonce data :
    key_ok a key = true → nonce_ok a nonce = true →
    length (fst (seal a key nonce data)) = length data ∧
    length (snd (seal a key nonce data)) = 16;
  unseal_iff a key nonce ciphertext tag data :
    key_ok a key = true → nonce_ok a nonce = true →
    unseal a key nonce ciphertext tag = Some data ↔
    seal a key nonce data = (ciphertext, tag);
}.

Record cipher : Type := Cipher { alg : algorithm; ckey : bytes; cnonce : bytes }.

(** [AES.new(key, AES.MODE_GCM, nonce=nonce)] *)
Definition AES_new_GCM (key nonce : bytes) : M world cipher :=
  if negb (key_ok AES_GCM key) then raise (ValueError "Incorrect AES key length")
  else if negb (nonce_ok AES_GCM nonce) then raise (ValueError "Nonce cannot be empty")
  else ret (Cipher AES_GCM key nonce).

(** [ChaCha20_Poly1305.new(key=key, nonce=nonce)] *)
Definition ChaCha20_Poly1305_new (key nonce : bytes) : M world cipher :=
  if negb (key_ok ChaCha20_Poly1305 key) then raise (ValueError "Key must be 32 bytes long")
  else if negb (nonce_ok ChaCha20_Poly1305 nonce)
       then raise (ValueError "Nonce must be 8, 12 or 24 bytes long")
  else ret (Cipher ChaCha20_Poly1305 key nonce).

Section Program.
Context `{CryptoLib}.

(** [cipher.encrypt_and_digest(data)] *)
Definition encrypt_and_digest (c : cipher) (data : bytes) : M world (bytes * bytes) :=
  emit (Aead_encrypt (ckey c) (cnonce c) data) ;;
  ret (seal (alg c) (ckey c) (cnonce c) data).

(** [cipher.decrypt_and_verify(ciphertext, tag)] *)
Definition decrypt_and_verify (c : cipher) (ciphertext tag : bytes) : M world bytes :=
  emit (Aead_decrypt (ckey c) (cnonce c) ciphertext tag) ;;
  match unseal (alg c) (ckey c) (cnonce c) ciphertext tag with
  | Some data => ret data
  | None => raise MAC_check_failed
  end.

(** ** class CryptoEngine *)

Record CryptoEngine : Type := Engine {
  master_key : bytes;
  key_cache : gmap string bytes;
}.

(** A method runs on the object and the world. *)
Definition io {A} (m : M world A) : M (CryptoEngine * world) A := fun σ =>
  let '(r, w') := m (snd σ) in (r, (fst σ, w')).
Definition on_self {A} (m : M CryptoEngine A) : M (CryptoEngine * world) A := fun σ =>
  let '(r, e') := m (fst σ) in (r, (e', snd σ)).

(** [try: body  except FileNotFoundError: handler] *)
Definition try_except_FileNotFoundError {Σ A} (body handler : M Σ A) : M Σ A :=
  fun σ =>
    match body σ with
    | (Raise (FileNotFoundError _), σ') => handler σ'
    | r => r
    end.

Definition _init_keystore : M world bytes :=
  try_except_FileNotFoundError
    (let* f := open_rb CONFIG.keystore in
     ret (fst (f_read 32 f)))
    (let* key := get_random_bytes 32 in
     with_open_wb CONFIG.keystore [key] ;;
     os_chmod CONFIG.keystore 384 ;;
     ret key).

(** [CryptoEngine()] *)
Definition __init__ : M world CryptoEngine :=
  let* k := _init_keystore in
  ret (Engine k ∅).

Definition _derive_key (path : string) : M CryptoEngine bytes := fun self =>
  match key_cache self !! path with
  | Some key => (Ok key, self)
  | None =>
      match encode path with
      | inl e => (Raise e, self)
      | inr encoded =>
          let path_hash := sha256 encoded in
          let key := hmac_sha256 (master_key self) path_hash in
          (Ok key, Engine (master_key self) (<[path := key]> (key_cache self)))
      end
  end.

(** The body of the [try] in [encrypt_file]. *)
Definition encrypt_file_try (path : string) : M (CryptoEngine * world) unit :=
  let* data := io (open_rb path) in
  let data := f_read_all data in
  let* key := on_self (_derive_key path) in
  let* nonce := io (get_random_bytes 12) in
  let* ct := (if String.eqb CONFIG.algo "AES-256-GCM" then
                let* cipher := io (AES_new_GCM key nonce) in
                io (encrypt_and_digest cipher data)
              else
                let* cipher := io (ChaCha20_Poly1305_new key nonce) in
                io (encrypt_and_digest cipher data)) in
  let '(ciphertext, tag) := ct in
  io (with_open_wb (path ++ ".enc") [nonce; tag; ciphertext]) ;;
  io (os_remove path) ;;
  io (os_rename (path ++ ".enc") path) ;;
  io (logging_info ("Encrypted " ++ path)).

Definition encrypt_file (path : string) : M (CryptoEngine * world) unit :=
  io (emit (Call_encrypt_file path)) ;;
  try_except (encrypt_file_try path)
    (fun e => io (logging_error ("Failed " ++ path ++ ": " ++ str e))).

(** The body of the [try] in [decrypt_file]. *)
Definition decrypt_file_try (path : string) : M (CryptoEngine * world) unit :=
  let* f := io (open_rb path) in
  let '(nonce, f) := f_read 12 f in
  let '(tag, f) := f_read 16 f in
  let ciphertext := f_read_all f in
  let* key := on_self (_derive_key path) in
  let* data := (if String.eqb CONFIG.algo "AES-256-GCM" then
                  let* cipher := io (AES_new_GCM key nonce) in
                  io (decrypt_and_verify cipher ciphertext tag)
                else
                  let* cipher := io (ChaCha20_Poly1305_new key nonce) in
                  io (decrypt_and_verify cipher ciphertext tag)) in
  io (with_open_wb (path ++ ".dec") [data]) ;;
  io (os_remove path) ;;
  io (os_rename (path ++ ".dec") path) ;;
  io (logging_info ("Decrypted " ++ path)).

Definition decrypt_file (path : string) : M (CryptoEngine * world) unit :=
  io (emit (Call_decrypt_file path)) ;;
  try_except (decrypt_file_try path)
    (fun e => io (logging_error ("Failed " ++ path ++ ": " ++ str e))).

(** ** Module-level functions *)

Definition should_encrypt (path : string) : M world bool :=
  if any (fun ex => startswith path ex) CONFIG.exclude then ret false
  else if any (fun ex => endswith path ex) CONFIG.extensions then ret false
  else os_path_isfile path.

(** The inner loop of [process_filesystem], run on the engine [crypto]. *)
Definition process_filenames (dirpath : string) (filenames : list string)
  : M (CryptoEngine * world) unit :=
  for_each filenames (fun f =>
    let path := os_path_join dirpath f in
    let* b := io (should_encrypt path) in
    if b then encrypt_file path else ret tt).

Definition process_filesystem (fuel : nat) (root : string) : M world unit := fun w =>
  match __init__ w with
  | (Ok crypto, w1) =>
      let '(r, (_, w2)) :=
        for_os_walk snd fuel root (fun dirpath _ filenames =>
          process_filenames dirpath filenames) (crypto, w1) in
      (r, w2)
  | (Raise e, w1) => (Raise e, w1)
  | (OutOfFuel, w1) => (OutOfFuel, w1)
  end.

Definition lock_system (fuel : nat) : M world unit :=
  let roots := ["/home"; "/var"; "/opt"] in
  for_each roots (fun root =>
    let* b := os_path_exists root in
    if b then process_filesystem fuel root else ret tt).

Definition unlock_system (fuel : nat) : M world unit :=
  let roots := ["/home"; "/var"; "/opt"] in
  for_each roots (fun root =>
    let* b := os_path_exists root in
    if b then process_filesystem fuel root else ret tt).

(** [if __name__ == '__main__':] with [argv] standing for [sys.argv]. *)
Definition main (fuel : nat) (argv : list string) : M world unit :=
  if bool_decide (1 < length argv) && bool_decide (argv !! 1 = Some "--unlock")
  then unlock_system fuel
  else lock_system fuel.

End Program.

(** * Vocabulary of the specification

    Names for what the theorems below talk about.  Nothing here is part
    of the program. *)

Section Vocabulary.
Context `{CryptoLib}.

Definition under_excluded_prefix (path : string) : Prop :=
  ∃ ex, ex ∈ CONFIG.exclude ∧ ∃ rest, path = ex ++ rest.
Definition has_excluded_suffix (path : string) : Prop :=
  ∃ ex, ex ∈ CONFIG.extensions ∧ ∃ stem, path = stem ++ ex.
Definition is_regular_file (w : world) (path : string) : Prop :=
  ∃ data mode, fs w !! path = Some (File data mode).

(** The value [should_encrypt] returns, as a function of the file system. *)
Definition eligible (m : gmap string node) (path : string) : bool :=
  negb (any (fun ex => startswith path ex) CONFIG.exclude) &&
  negb (any (fun ex => endswith path ex) CONFIG.extensions) &&
  isfile m path.

(** The bytes of a path, which are its UTF-8 encoding when it has one. *)
Definition path_bytes (path : string) : bytes := String.list_byte_of_string path.

(** [path.encode()] returns: the str of [path] holds no lone surrogate. *)
Definition encodes (path : string) : bool :=
  match encode path with inr _ => true | inl _ => false end.

(** HMAC-SHA256 keyed by the master key over the SHA-256 digest of the path. *)
Definition derived (master : bytes) (path : string) : bytes :=
  hmac_sha256 master (sha256 (path_bytes path)).

(** Every cached key is the one derivation would compute. *)
Definition cache_consistent (self : CryptoEngine) : Prop :=
  ∀ p k, key_cache self !! p = Some k → k = derived (master_key self) p.

(** The engine after [_derive_key] was called on each of [paths] in
    turn, whether the call returned or raised. *)
Fixpoint after_deriving (paths : list string) (self : CryptoEngine) : CryptoEngine :=
  match paths with
  | [] => self
  | p :: ps => after_deriving ps (snd (_derive_key p self))
  end.

(** The 32 bytes [get_random_bytes(32)] returns in world [w]. *)
Definition fresh_key (w : world) : bytes := random_bytes w 32.

(** Permission bits: owner read, owner write, and the group/other mask. *)
Definition S_IRUSR : Z := 256.
Definition S_IWUSR : Z := 128.
Definition S_IRWXG_IRWXO : Z := 63.

(** The key [_derive_key] returns, and the engine it leaves. *)
Definition key_for (self : CryptoEngine) (path : string) : bytes :=
  match key_cache self !! path with
  | Some k => k
  | None => derived (master_key self) path
  end.
Definition cache_after (self : CryptoEngine) (path : string) : CryptoEngine :=
  match key_cache self !! path with
  | Some _ => self
  | None => Engine (master_key self)
              (<[path := derived (master_key self) path]> (key_cache self))
  end.

(** [_derive_key] returns a key for [path]: the key is cached, or the
    path has an encoding. *)
Definition keyed (self : CryptoEngine) (path : string) : Prop :=
  is_Some (key_cache self !! path) ∨ encodes path = true.

(** Mode of the file a write to [path] leaves. *)
Definition mode_for_write (w : world) (path : string) : Z :=
  match fs w !! path with
  | Some (File _ mode) => mode
  | _ => created_mode w
  end.

(** The world a successful [encrypt_file_try] leaves. *)
Definition encrypted_world (w : world) (path : string) (key data : bytes) : world :=
  let nonce := random_bytes w 12 in
  let ct := seal AES_GCM key nonce data in
  let container := (nonce ++ snd ct ++ fst ct)%list in
  World (delete (path ++ ".enc")
           (<[path := File container (mode_for_write w (path ++ ".enc"))]> (fs w)))
        (umask w)
        (log w ++ [(INFO, "Encrypted " ++ path)])
        (urandom w)
        (rand_pos w + 12)
        (trace w ++ [Aead_encrypt key nonce data;
                     Fs_write (path ++ ".enc") container;
                     Fs_remove path;
                     Fs_rename (path ++ ".enc") path]).

(** The three parts [decrypt_file] reads from a container. *)
Definition nonce_of (c : bytes) : bytes := take 12 c.
Definition tag_of (c : bytes) : bytes := take 16 (drop 12 c).
Definition ciphertext_of (c : bytes) : bytes := drop 16 (drop 12 c).

(** The world a successful [decrypt_file_try] leaves. *)
Definition decrypted_world (w : world) (path : string) (key c data : bytes) : world :=
  World (delete (path ++ ".dec")
           (<[path := File data (mode_for_write w (path ++ ".dec"))]> (fs w)))
        (umask w)
        (log w ++ [(INFO, "Decrypted " ++ path)])
        (urandom w)
        (rand_pos w)
        (trace w ++ [Aead_decrypt key (nonce_of c) (ciphertext_of c) (tag_of c);
                     Fs_write (path ++ ".dec") data;
                     Fs_remove path;
                     Fs_rename (path ++ ".dec") path]).

(** The calls of the two file transforms recorded in a trace. *)
Definition is_call (ev : event) : bool :=
  match ev with
  | Call_encrypt_file _ | Call_decrypt_file _ => true
  | _ => false
  end.
Definition calls (t : list event) : list event := List.filter is_call t.

Definition encrypted_line (path : string) : level * string :=
  (INFO, "Encrypted " ++ path).
Definition decrypted_line (path : string) : level * string :=
  (INFO, "Decrypted " ++ path).
Definition failed_line (path : string) (e : exn) : level * string :=
  (ERROR, "Failed " ++ path ++ ": " ++ str e).

(** What a call of [encrypt_file] may do to the file system: the
    directories stay, no path is added, and eligibility is unchanged. *)
Definition fs_step (m m' : gmap string node) : Prop :=
  (∀ q, m' !! q = Some Dir ↔ m !! q = Some Dir) ∧
  (∀ q, is_Some (m' !! q) → is_Some (m !! q)) ∧
  (∀ q, eligible m' q = eligible m q).

(** The paths, among the entries [filenames] of [dirpath], that the
    selection policy lets through. *)
Definition selected (m : gmap string node) (dirpath : string) (filenames : list string)
  : list string :=
  List.filter (eligible m) (map (os_path_join dirpath) filenames).

(** The subdirectories of [top], which [os.walk] descends into. *)
Definition subdirs (m : gmap string node) (top : string) : list string :=
  map fst (filter (fun e => is_dir (snd e) = true) (scandir m top)).

(** The loop body [process_filesystem] hands to [os.walk]. *)
Definition walk_body (dirpath : string) (dirnames filenames : list string)
  : M (CryptoEngine * world) unit :=
  process_filenames dirpath filenames.

(** Between two worlds, the only transform calls recorded are calls of
    [encrypt_file]. *)
Definition only_encrypt_calls (w w' : world) : Prop :=
  ∃ paths, calls (trace w') = (calls (trace w) ++ map Call_encrypt_file paths)%list.

(** No path of the file system is longer than [L]. *)
Definition bounded (L : nat) (m : gmap string node) : Prop :=
  ∀ q, is_Some (m !! q) → (String.length q ≤ L)%nat.

(** [d] is [top] or a directory below it: [top] is a directory, and so
    is every entry on the way down to [d]. *)
Inductive walked (m : gmap string node) : string → string → Prop :=
  | walked_top (top : string) : m !! top = Some Dir → walked m top top
  | walked_sub (top name d : string) :
      m !! top = Some Dir → name ≠ "" → contains_sep name = false →
      walked m (os_path_join top name) d → walked m top d.

(** The files a walk of [top] has to encrypt: the entries of [top] and of
    the directories below it that the selection policy lets through. *)
Definition to_encrypt (m : gmap string node) (top q : string) : Prop :=
  eligible m q = true ∧
  ∃ d name, walked m top d ∧ name ≠ "" ∧ contains_sep name = false ∧
            q = os_path_join d name.

(** No root of the list lies below another one. *)
Fixpoint apart (roots : list string) : bool :=
  match roots with
  | [] => true
  | r :: rs =>
      forallb (fun r' => negb (startswith (os_path_join r "") (os_path_join r' ""))
                         && negb (startswith (os_path_join r' "") (os_path_join r ""))) rs
      && apart rs
  end.

(** Two file systems with the same directories and the same eligible
    files. *)
Definition same_shape (m m' : gmap string node) : Prop :=
  (∀ q, m' !! q = Some Dir ↔ m !! q = Some Dir) ∧
  (∀ q, eligible m' q = eligible m q).

(** What is known of a walk, or of a sequence of walks: it ends or runs
    out of fuel, it only calls [encrypt_file], and it ends when
    [enough] holds. *)
Definition walk_result (enough : nat → Prop) (σ : CryptoEngine * world)
    (out : result unit * (CryptoEngine * world)) : Prop :=
  fs_step (fs (snd σ)) (fs (snd (snd out))) ∧
  only_encrypt_calls (snd σ) (snd (snd out)) ∧
  (fst out = Ok tt ∨ fst out = OutOfFuel) ∧
  (∀ L, bounded L (fs (snd σ)) → enough L → fst out = Ok tt).

(** What is known of [process_filesystem], and of a run over several
    roots: only [encrypt_file] is called, and with the keystore path not
    a directory and fuel beyond the longest path the run returns. *)
Definition run_result (fuel : nat) (w : world) (out : result unit * world) : Prop :=
  only_encrypt_calls w (snd out) ∧
  (∀ L, bounded L (fs w) →
        (String.length CONFIG.keystore ≤ L)%nat →
        fs w !! CONFIG.keystore ≠ Some Dir →
        (L + 2 ≤ fuel)%nat →
        fst out = Ok tt ∧ bounded L (fs (snd out)) ∧
        fs (snd out) !! CONFIG.keystore ≠ Some Dir).

End Vocabulary.

(** ** Vocabulary of the further properties *)

(** The path names an event hands to the file system; the events that
    are no file-system operation hand it none. *)
Definition names (ev : event) : list string :=
  match ev with
  | Fs_write p _ | Fs_remove p | Fs_chmod p _ => [p]
  | Fs_rename src dst => [src; dst]
  | Call_encrypt_file _ | Call_decrypt_file _
  | Aead_encrypt _ _ _ | Aead_decrypt _ _ _ _ => []
  end.

(** Every name that the events [evs] hand to the file system satisfies [P]. *)
Definition names_in (P : string → Prop) (evs : list event) : Prop :=
  Forall (fun ev => Forall P (names ev)) evs.

(** No path that does not start with [pre] has changed. *)
Definition untouched_outside (pre : string) (m m' : gmap string node) : Prop :=
  ∀ q, startswith q pre = false → m' !! q = m !! q.

(** The log line of a call of [encrypt_file] on [path]. *)
Definition line_for (path : string) (l : level * string) : Prop :=
  l = encrypted_line path ∨ ∃ e, l = failed_line path e.

(** From [w] to [w'] only paths below [pre] changed, each call of
    [encrypt_file] was on an eligible path below [pre], each has its log
    line, and only names below [pre] were handed to the file system. *)
Definition accounted (pre : string) (w w' : world) : Prop :=
  untouched_outside pre (fs w) (fs w') ∧
  (∃ paths lines,
     calls (trace w') = (calls (trace w) ++ map Call_encrypt_file paths)%list ∧
     log w' = (log w ++ lines)%list ∧
     Forall2 line_for paths lines ∧
     Forall (fun p => startswith p pre = true ∧ endswith p ".enc" = false) paths) ∧
  ∃ evs, trace w' = (trace w ++ evs)%list ∧
         names_in (fun p => startswith p pre = true) evs.

(** [q] lies below one of the roots of [lock_system]. *)
Definition under_roots (q : string) : bool :=
  startswith q "/home/" || startswith q "/var/" || startswith q "/opt/".

(** Neither string is a prefix of the other. *)
Definition incomparable (a b : string) : bool :=
  negb (startswith a b) && negb (startswith b a).

(** What [process_filesystem] and the entry points leave of the keystore. *)
Definition keystore_after (w : world) (out : result unit * world) : Prop :=
  match fs w !! CONFIG.keystore with
  | Some (File d md) => fs (snd out) !! CONFIG.keystore = Some (File d md)
  | Some Dir => out = (Raise (IsADirectoryError CONFIG.keystore), w)
  | None => fs (snd out) !! CONFIG.keystore = Some (File (fresh_key w) 384)
  end.

(** A run stays within the paths that [P] accepts, the keystore apart,
    logs one line for each call of [encrypt_file], and hands to the file
    system only names that [P] accepts and the keystore's. *)
Definition run_accounted (P : string → bool) (w w' : world) : Prop :=
  (∀ q, P q = false → q ≠ CONFIG.keystore → fs w' !! q = fs w !! q) ∧
  (∀ d md, fs w !! CONFIG.keystore = Some (File d md) →
           fs w' !! CONFIG.keystore = Some (File d md)) ∧
  (∃ paths lines,
     calls (trace w') = (calls (trace w) ++ map Call_encrypt_file paths)%list ∧
     log w' = (log w ++ lines)%list ∧
     Forall2 line_for paths lines ∧
     Forall (fun p => P p = true ∧ endswith p ".enc" = false) paths) ∧
  ∃ evs, trace w' = (trace w ++ evs)%list ∧
         names_in (fun p => P p = true ∨ p = CONFIG.keystore) evs.

(** [q] lies below one of [roots]. *)
Definition within (roots : list string) (q : string) : bool :=
  existsb (fun r => startswith q (os_path_join r "")) roots.

(** [os.path.exists] holds of one of [roots]. *)
Definition some_root_exists (roots : list string) (w : world) : bool :=
  existsb (fun r => bool_decide (is_Some (fs w !! r))) roots.

(** ** A small instance of the library interface

    It serves to run the program on concrete worlds. *)

#[global] Instance byte_eq_dec : EqDecision byte := Byte.byte_eq_dec.

Definition pad_to (n : nat) (l : bytes) : bytes := take n (l ++ replicate n x00).
Definition demo_tag (key nonce data : bytes) : bytes := pad_to 16 (data ++ nonce ++ key).
Definition demo_seal (a : algorithm) (key nonce data : bytes) : bytes * bytes :=
  (rev data, demo_tag key nonce data).
Definition demo_unseal (a : algorithm) (key nonce ciphertext tag : bytes) : option bytes :=
  if decide (tag = demo_tag key nonce (rev ciphertext)) then Some (rev ciphertext) else None.

(** [demo_lib] meets the contract of [CryptoLib] and offers no security:
    the digest is a padded copy of its input and the cipher reverses the
    plaintext. *)
Definition demo_lib : CryptoLib.
Proof.
  refine {| sha256 m := pad_to 32 m;
            hmac_sha256 k m := pad_to 32 (m ++ k);
            seal := demo_seal;
            unseal := demo_unseal |}.
  - intros k m. unfold pad_to.
    rewrite length_take, length_app, length_replicate. lia.
  - intros a key nonce data _ _. unfold demo_seal, demo_tag, pad_to. cbn [fst snd].
    rewrite length_rev, length_take, length_app, length_replicate. split; lia.
  - intros a key nonce ciphertext tag data _ _. unfold demo_unseal, demo_seal.
    case_decide as Ht; split; intros E; simplify_eq.
    + by rewrite rev_involutive.
    + by rewrite rev_involutive.
    + by rewrite rev_involutive in Ht.
Defined.

(** The random stream 0, 1, 2, ... *)
Definition counting (n : nat) : byte :=
  match Byte.of_N (N.of_nat n mod 256) with Some b => b | None => x00 end.

Definition short_keystore_world : world :=
  World {[ CONFIG.keystore := File [x01; x02; x03] 384 ]} 18 [] counting 0 [].

(** A container sealed by [demo_lib] for the path "/home/bad" under the
    master key of [demo_engine], with the lowest bit of the last tag byte
    flipped (the tag ends in x6f). *)
Definition bad_container : bytes :=
  (replicate 12 x01
   ++ [x07; x01; x01; x01; x01; x01; x01; x01; x01; x01; x01; x01; x01; x2f; x68; x6e]
   ++ [x07])%list.

Definition demo_world : world :=
  World (list_to_map
           [("/home", Dir);
            ("/home/a", File [x01; x02; x03] 420);
            ("/home/empty", File [] 420);
            ("/home/short", File [x01; x02; x03; x04; x05] 420);
            ("/home/bad", File bad_container 420);
            ("/home/d", Dir);
            ("/home/d/b", File [x0a; x0b] 384);
            ("/home/f", File [x0c] 420);
            ("/home/f.enc", Dir);
            ("/home/x.enc", File [x09] 420)])
        18 [] counting 0 [].

Definition demo_engine : CryptoEngine := Engine [x2a] ∅.

(** A world in which the program's own log file exists. *)
Definition log_world : world :=
  World (list_to_map
           [("/var", Dir);
            ("/var/log", Dir);
            (CONFIG.logfile, File [x6c; x6f; x67] 420);
            ("/etc", Dir);
            ("/etc/passwd", File [x72] 420)])
        18 [] counting 0 [].

(** The container of [bad_container] with its tag as sealed, in place. *)
Definition good_container : bytes :=
  (replicate 12 x01
   ++ [x07; x01; x01; x01; x01; x01; x01; x01; x01; x01; x01; x01; x01; x2f; x68; x6f]
   ++ [x07])%list.

Definition good_world : world :=
  World (list_to_map [("/home", Dir); ("/home/bad", File good_container 420)])
        18 [] counting 0 [].

(** A file name in Latin-1: "/home/café" with é as the single byte E9,
    which is not well-formed UTF-8.  Python's str for it ends in the lone
    surrogate U+DCE9. *)
Definition latin1_path : string := "/home/caf" ++ String "233"%char "".

Definition latin1_world : world :=
  World (list_to_map
           [("/home", Dir);
            (latin1_path, File [x01] 420);
            ("/home/z", File [x02] 420)])
        18 [] counting 0 [].

(** * Properties *)

(** ** Strings and paths *)

Lemma string_app_cons (c : ascii) (a b : string) : String c a ++ b = String c (a ++ b).
Proof. reflexivity. Qed.

Lemma string_app_nil_l (b : string) : "" ++ b = b.
Proof. reflexivity. Qed.

Lemma string_length_app (a b : string) :
  String.length (a ++ b) = String.length a + String.length b.
Proof.
  induction a as [|c a IH]; [done |].
  rewrite string_app_cons. simpl. by rewrite IH.
Qed.

Lemma string_app_nil_r (a : string) : a ++ "" = a.
Proof. induction a as [|c a IH]; [done | by rewrite string_app_cons, IH]. Qed.

Lemma string_app_assoc (a b c : string) : (a ++ b) ++ c = a ++ (b ++ c).
Proof. induction a as [|x a IH]; [done | by rewrite !string_app_cons, IH]. Qed.

Lemma startswith_spec (s pre : string) :
  startswith s pre = true ↔ ∃ r, s = pre ++ r.
Proof.
  revert s. induction pre as [|a pre IH]; intros s; simpl.
  - split; [intros _; by exists s | done].
  - destruct s as [|b s].
    + split; [done | intros [r Hr]; discriminate].
    + destruct (Ascii.eqb_spec a b) as [->|Hne].
      * rewrite IH. split; intros [r Hr]; exists r.
        -- by rewrite Hr.
        -- rewrite string_app_cons in Hr. by injection Hr.
      * split; [done | intros [r Hr]].
        rewrite string_app_cons in Hr. injection Hr; congruence.
Qed.

Lemma endswith_cons (c : ascii) (s suf : string) :
  endswith (String c s) suf = String.eqb (String c s) suf || endswith s suf.
Proof. reflexivity. Qed.

Lemma endswith_spec (s suf : string) :
  endswith s suf = true ↔ ∃ r, s = r ++ suf.
Proof.
  induction s as [|c s IH].
  - change (endswith "" suf) with (String.eqb "" suf || false).
    rewrite orb_false_r, String.eqb_eq. split.
    + intros <-. by exists "".
    + intros [[|x r] Hr]; [done | discriminate].
  - rewrite endswith_cons, orb_true_iff, String.eqb_eq, IH. split.
    + intros [<- | [r ->]]; [by exists "" | by exists (String c r)].
    + intros [[|x r] Hr]; [by left | right].
      rewrite string_app_cons in Hr. injection Hr as -> ->. by exists r.
Qed.

Lemma app_suffix_ne (p a : string) : a ≠ "" → p ++ a ≠ p.
Proof.
  intros Ha E. apply (f_equal String.length) in E.
  rewrite string_length_app in E. destruct a; [done | simpl in E; lia].
Qed.

Lemma tmp_distinct (path : string) : path ++ ".dec" ≠ path ++ ".enc".
Proof. intros E. by apply (inj (String.app path)) in E. Qed.

Lemma endswith_app (p suf : string) : endswith (p ++ suf) suf = true.
Proof. apply endswith_spec. by exists p. Qed.

Lemma startswith_app (s pre t : string) :
  startswith s pre = true → startswith (s ++ t) pre = true.
Proof.
  rewrite !startswith_spec. intros [r ->]. exists (r ++ t).
  by rewrite string_app_assoc.
Qed.

Lemma startswith_trans (s a b : string) :
  startswith s a = true → startswith a b = true → startswith s b = true.
Proof.
  rewrite !startswith_spec. intros [r ->] [r' ->]. exists (r' ++ r).
  by rewrite string_app_assoc.
Qed.

Lemma startswith_refl (s : string) : startswith s s = true.
Proof. apply startswith_spec. exists "". by rewrite string_app_nil_r. Qed.

Lemma startswith_comparable (s a b : string) :
  startswith s a = true → startswith s b = true →
  startswith a b = true ∨ startswith b a = true.
Proof.
  revert s b. induction a as [|x a IH]; intros s b Ha Hb.
  { right. done. }
  destruct b as [|y b]; [by left |].
  destruct s as [|z s]; [done |].
  cbn [startswith] in *.
  destruct (Ascii.eqb_spec x z) as [->|]; [|done].
  destruct (Ascii.eqb_spec y z) as [->|]; [|done].
  rewrite Ascii.eqb_refl. by apply (IH s b).
Qed.

Lemma incomparable_clash (s a b : string) :
  incomparable a b = true → startswith s a = true → startswith s b = false.
Proof.
  unfold incomparable. intros Hi Ha.
  destruct (startswith s b) eqn:Hb; [|done].
  destruct (startswith_comparable s a b Ha Hb) as [E | E]; rewrite E in Hi;
    by rewrite ?andb_false_r in Hi.
Qed.

Lemma any_spec {A} (p : A → bool) (l : list A) :
  any p l = true ↔ ∃ x, x ∈ l ∧ p x = true.
Proof.
  unfold any. rewrite existsb_exists.
  split; intros (x & Hx & Hp); exists x; split; try done; by apply list_elem_of_In.
Qed.

(** ** Selection policy *)

Lemma any_exclude_spec (path : string) :
  any (fun ex => startswith path ex) CONFIG.exclude = true ↔ under_excluded_prefix path.
Proof.
  rewrite any_spec. unfold under_excluded_prefix.
  split; intros (ex & Hin & Hp); exists ex; split; try done; by apply startswith_spec.
Qed.

Lemma any_extensions_spec (path : string) :
  any (fun ex => endswith path ex) CONFIG.extensions = true ↔ has_excluded_suffix path.
Proof.
  rewrite any_spec. unfold has_excluded_suffix.
  split; intros (ex & Hin & Hp); exists ex; split; try done; by apply endswith_spec.
Qed.

Lemma isfile_spec (w : world) (path : string) :
  isfile (fs w) path = true ↔ is_regular_file w path.
Proof.
  unfold isfile, is_regular_file. destruct (fs w !! path) as [[d m|]|].
  - split; [by exists d, m | done].
  - split; [done | by intros (d & m & ?)].
  - split; [done | by intros (d & m & ?)].
Qed.

Lemma should_encrypt_eligible (w : world) (path : string) :
  should_encrypt path w = (Ok (eligible (fs w) path), w).
Proof.
  unfold should_encrypt, eligible.
  destruct (any _ CONFIG.exclude); [done |].
  destruct (any _ CONFIG.extensions); done.
Qed.

(** C7: [should_encrypt] never fails and never changes the world; it
    answers false for a path that starts with an excluded prefix, false
    for a path that ends with an excluded suffix, false for a path that is
    not a regular file (a directory in particular), and true in every
    other case. *)
Theorem should_encrypt_spec (w : world) (path : string) :
  ∃ b, should_encrypt path w = (Ok b, w) ∧
    (under_excluded_prefix path → b = false) ∧
    (has_excluded_suffix path → b = false) ∧
    (¬ is_regular_file w path → b = false) ∧
    (fs w !! path = Some Dir → b = false) ∧
    (¬ under_excluded_prefix path → ¬ has_excluded_suffix path →
     is_regular_file w path → b = true).
Proof.
  exists (eligible (fs w) path). split; [apply should_encrypt_eligible |].
  unfold eligible.
  rewrite <- any_exclude_spec, <- any_extensions_spec, <- isfile_spec.
  assert (fs w !! path = Some Dir → isfile (fs w) path = false) as Hdir.
  { unfold isfile. by intros ->. }
  destruct (any _ CONFIG.exclude), (any _ CONFIG.extensions),
    (isfile (fs w) path); simpl; intuition congruence.
Qed.

(** ** Key derivation *)

Section Derivation.
Context `{CryptoLib}.

Lemma fresh_engine_consistent (master : bytes) : cache_consistent (Engine master ∅).
Proof. intros p k. simpl. by rewrite lookup_empty. Qed.

Lemma encode_inr (path : string) (b : bytes) :
  encode path = inr b → b = path_bytes path ∧ encodes path = true.
Proof.
  unfold encodes. intros E. rewrite E. split; [|done].
  unfold encode in E. destruct (first_surrogate _ _) as [[[? ?] ?]|]; [done |].
  by injection E as <-.
Qed.

Lemma encodes_encode (path : string) :
  encodes path = true → encode path = inr (path_bytes path).
Proof.
  unfold encodes. destruct (encode path) as [e|b] eqn:E; [done |].
  by destruct (encode_inr path b E) as [-> _].
Qed.

Lemma encodes_false (path : string) :
  encodes path = false → ∃ e, encode path = inl e.
Proof. unfold encodes. destruct (encode path) as [e|b]; [by exists e | done]. Qed.

(** A cache miss on a path without UTF-8 encoding: [path.encode()]
    raises, and the engine is as before. *)
Lemma derive_key_raises (self : CryptoEngine) (path : string) (e : exn) :
  key_cache self !! path = None → encode path = inl e →
  _derive_key path self = (Raise e, self).
Proof. intros Hk He. unfold _derive_key. by rewrite Hk, He. Qed.

Lemma derive_key_consistent (self : CryptoEngine) (path : string) :
  cache_consistent self → encodes path = true →
  ∃ self', _derive_key path self = (Ok (derived (master_key self) path), self') ∧
    master_key self' = master_key self ∧
    cache_consistent self' ∧
    key_cache self' !! path = Some (derived (master_key self) path).
Proof.
  intros Hc He. unfold _derive_key. rewrite (encodes_encode path He).
  destruct (key_cache self !! path) as [k|] eqn:Hk.
  - pose proof (Hc _ _ Hk) as ->. by exists self.
  - eexists. split; [done |]. simpl. repeat split.
    + intros p k. simpl. rewrite lookup_insert. case_decide; [|apply Hc].
      subst p. by intros [= <-].
    + by rewrite lookup_insert_eq.
Qed.

(** A cache hit returns the cached key and leaves the engine as it is. *)
Lemma derive_key_cached (self : CryptoEngine) (path : string) (k : bytes) :
  key_cache self !! path = Some k → _derive_key path self = (Ok k, self).
Proof. intros Hk. unfold _derive_key. by rewrite Hk. Qed.

(** Whatever a call of [_derive_key] does, it keeps the master key, a
    consistent cache stays consistent, and the only path it can add to
    the cache is its own, when that path has an encoding. *)
Lemma derive_key_state (self : CryptoEngine) (path : string) :
  master_key (snd (_derive_key path self)) = master_key self ∧
  (cache_consistent self → cache_consistent (snd (_derive_key path self))) ∧
  dom (key_cache (snd (_derive_key path self)))
  = dom (key_cache self) ∪ (if encodes path then {[path]} else ∅).
Proof.
  unfold _derive_key, encodes.
  destruct (key_cache self !! path) as [k|] eqn:Hk; cbn [snd].
  - split; [done |]. split; [done |].
    apply elem_of_dom_2, singleton_subseteq_l in Hk.
    destruct (encode path).
    + by rewrite (right_id_L ∅ (∪)).
    + symmetry. rewrite (comm_L (∪)). by apply subseteq_union_1_L.
  - destruct (encode path) as [e|b] eqn:He; cbn [snd master_key key_cache].
    + split; [done |]. split; [done |]. by rewrite (right_id_L ∅ (∪)).
    + split; [done |]. split; [|by rewrite dom_insert_L, (comm_L (∪))].
      destruct (encode_inr path b He) as [-> _].
      intros Hc p k. cbn [key_cache master_key]. rewrite lookup_insert.
      case_decide; [|apply Hc]. subst p. by intros [= <-].
Qed.

Lemma after_deriving_consistent (paths : list string) (self : CryptoEngine) :
  cache_consistent self →
  cache_consistent (after_deriving paths self) ∧
  master_key (after_deriving paths self) = master_key self.
Proof.
  revert self. induction paths as [|p ps IH]; intros self Hc; [done |].
  destruct (derive_key_state self p) as (Hm & Hc' & _).
  cbn [after_deriving]. destruct (IH _ (Hc' Hc)) as [? ?]. split; [done | congruence].
Qed.

Lemma after_deriving_dom (paths : list string) (self : CryptoEngine) :
  dom (key_cache (after_deriving paths self))
  = dom (key_cache self) ∪ list_to_set (filter (fun p => encodes p = true) paths).
Proof.
  revert self. induction paths as [|p ps IH]; intros self.
  - cbn [after_deriving]. rewrite filter_nil. cbn [list_to_set].
    by rewrite (right_id_L ∅ (∪)).
  - cbn [after_deriving]. destruct (derive_key_state self p) as (_ & _ & Hd).
    rewrite IH, Hd, filter_cons. destruct (encodes p); case_decide; try done.
    + cbn [list_to_set]. by rewrite (assoc_L (∪)).
    + by rewrite (right_id_L ∅ (∪)).
Qed.

(** C3, as the code has it: in an engine built from any master key, and
    after any earlier derivations, [_derive_key] on a path whose str has
    a UTF-8 encoding returns HMAC-SHA256 keyed by the master key over the
    SHA-256 digest of the encoded path, which are the path's bytes.  The
    call depends on nothing else, leaves the key in the cache, and a
    second call returns that cached value, the same bytes, without
    changing the engine.  On a path whose str has no encoding
    [path.encode()] raises: the call returns no key, the exception leaves
    [_derive_key], the engine is unchanged, and the path is never in the
    cache. *)
Theorem derive_key_spec (master : bytes) (earlier : list string) (path : string) :
  (∀ encoded, encode path = inr encoded →
     encoded = String.list_byte_of_string path ∧
     ∃ self',
       _derive_key path (after_deriving earlier (Engine master ∅))
         = (Ok (hmac_sha256 master (sha256 encoded)), self') ∧
       key_cache self' !! path = Some (hmac_sha256 master (sha256 encoded)) ∧
       _derive_key path self' = (Ok (hmac_sha256 master (sha256 encoded)), self')) ∧
  (∀ e, encode path = inl e →
     (∃ start stop byte, e = UnicodeEncodeError start stop byte) ∧
     key_cache (after_deriving earlier (Engine master ∅)) !! path = None ∧
     _derive_key path (after_deriving earlier (Engine master ∅))
       = (Raise e, after_deriving earlier (Engine master ∅))).
Proof.
  destruct (after_deriving_consistent earlier (Engine master ∅)
              (fresh_engine_consistent master)) as [Hc Hm].
  split.
  - intros encoded He. destruct (encode_inr path encoded He) as [-> Hb].
    split; [done |].
    destruct (derive_key_consistent _ path Hc Hb) as (self' & E & _ & _ & Hk).
    rewrite Hm in E, Hk. simpl in E, Hk. unfold derived in *.
    exists self'. repeat split; try done. by apply derive_key_cached.
  - intros e He.
    assert (key_cache (after_deriving earlier (Engine master ∅)) !! path = None) as Hk.
    { apply not_elem_of_dom. rewrite after_deriving_dom. cbn [key_cache].
      rewrite dom_empty_L, (left_id_L ∅ (∪)), elem_of_list_to_set, list_elem_of_filter.
      intros [Hb _]. unfold encodes in Hb. by rewrite He in Hb. }
    split; [|split; [exact Hk | by apply derive_key_raises]].
    unfold encode in He. destruct (first_surrogate _ _) as [[[a b] c]|]; [|done].
    injection He as <-. by do 3 eexists.
Qed.

End Derivation.

(** A path string for which [_derive_key] returns no key: whatever the
    library and the master key, the call on [latin1_path] raises
    UnicodeEncodeError at the character of index 9 and leaves the engine
    as it was. *)
Lemma derive_key_raises_on_latin1 :
  encode latin1_path = inl (UnicodeEncodeError 9 10 233) ∧
  str (UnicodeEncodeError 9 10 233)
  = "'utf-8' codec can't encode character '\udce9' in position 9: surrogates not allowed" ∧
  ∀ (L : CryptoLib) (master : bytes),
    @_derive_key L latin1_path (Engine master ∅)
    = (Raise (UnicodeEncodeError 9 10 233), Engine master ∅).
Proof.
  split; [reflexivity |]. split; [reflexivity |].
  intros L master. by apply derive_key_raises.
Qed.

(** On a path of ASCII characters the encoding is the path itself. *)
Example derive_key_on_ascii :
  encode "/home/a" = inr (String.list_byte_of_string "/home/a") ∧
  ∀ (L : CryptoLib) (master : bytes),
    fst (@_derive_key L "/home/a" (Engine master ∅))
    = Ok (@hmac_sha256 L master (@sha256 L [x2f; x68; x6f; x6d; x65; x2f; x61])).
Proof. split; [reflexivity |]. intros L master. reflexivity. Qed.

(** ** Key store *)

Lemma random_bytes_length (w : world) (n : nat) : length (random_bytes w n) = n.
Proof. unfold random_bytes. by rewrite length_map, length_seq. Qed.

Lemma init_keystore_existing (w : world) (data : bytes) (mode : Z) :
  fs w !! CONFIG.keystore = Some (File data mode) →
  _init_keystore w = (Ok (take 32 data), w).
Proof.
  intros Hk. unfold _init_keystore, try_except_FileNotFoundError, bind, open_rb.
  by rewrite Hk.
Qed.

Lemma init_keystore_dir (w : world) :
  fs w !! CONFIG.keystore = Some Dir →
  _init_keystore w = (Raise (IsADirectoryError CONFIG.keystore), w).
Proof.
  intros Hk. unfold _init_keystore, try_except_FileNotFoundError, bind, open_rb.
  by rewrite Hk.
Qed.

Lemma init_keystore_absent (w : world) :
  fs w !! CONFIG.keystore = None →
  ∃ w', _init_keystore w = (Ok (fresh_key w), w') ∧
    fs w' = <[CONFIG.keystore := File (fresh_key w) 384]> (fs w) ∧
    log w' = log w ∧
    trace w' = (trace w ++ [Fs_write CONFIG.keystore (fresh_key w);
                            Fs_chmod CONFIG.keystore 384])%list.
Proof.
  intros Hk.
  unfold _init_keystore, try_except_FileNotFoundError, bind, open_rb,
    with_open_wb, os_chmod, get_random_bytes.
  rewrite Hk. cbn. rewrite Hk. cbn. rewrite lookup_insert_eq.
  eexists. split; [reflexivity |]. cbn. rewrite app_nil_r.
  split; [by rewrite insert_insert_eq |]. split; [done |].
  by rewrite <- app_assoc.
Qed.

(** C8: [_init_keystore] returns what [f.read(32)] gives when the
    keystore file exists.  When it is absent, 32 bytes are drawn from the
    random source, the keystore file afterwards holds exactly these bytes
    with mode 0o600 (owner read and write, nothing for group and others),
    and every later call, in whatever process state, returns the same 32
    bytes.  Only a keystore path that is a directory makes it raise. *)
Theorem init_keystore_spec (w : world) :
  match fs w !! CONFIG.keystore with
  | Some (File data mode) =>
      _init_keystore w = (Ok (take 32 data), w) ∧
      (32 ≤ length data → length (take 32 data) = 32)%nat
  | None =>
      ∃ w', _init_keystore w = (Ok (fresh_key w), w') ∧
        length (fresh_key w) = 32 ∧
        fs w' = <[CONFIG.keystore := File (fresh_key w) (Z.lor S_IRUSR S_IWUSR)]> (fs w) ∧
        Z.land (Z.lor S_IRUSR S_IWUSR) S_IRWXG_IRWXO = 0%Z ∧
        ∀ w2, fs w2 = fs w' → _init_keystore w2 = (Ok (fresh_key w), w2)
  | Some Dir =>
      _init_keystore w = (Raise (IsADirectoryError CONFIG.keystore), w)
  end.
Proof.
  destruct (fs w !! CONFIG.keystore) as [[data mode|]|] eqn:Hk.
  - split; [by eapply init_keystore_existing |].
    intros Hlen. rewrite length_take. lia.
  - by apply init_keystore_dir.
  - destruct (init_keystore_absent w Hk) as (w' & E & Hfs & _ & _).
    exists w'. split; [done |]. split; [apply random_bytes_length |].
    split; [done |]. split; [done |].
    intros w2 Hw2. rewrite (init_keystore_existing w2 (fresh_key w) 384).
    + rewrite take_ge; [done |]. unfold fresh_key. by rewrite random_bytes_length.
    + rewrite Hw2, Hfs. apply lookup_insert_eq.
Qed.

(** C10: an existing keystore file is loaded without any check of its
    length.  [_init_keystore] returns its first [min 32 size] bytes and
    raises nothing; the constructor accepts them as the master key; a
    keystore shorter than 32 bytes (an empty one included) therefore
    gives an engine whose master key is the whole short content, and key
    derivation goes on with it. *)
Theorem init_keystore_short `{CryptoLib} (w : world) (data : bytes) (mode : Z) :
  fs w !! CONFIG.keystore = Some (File data mode) →
  _init_keystore w = (Ok (take 32 data), w) ∧
  length (take 32 data) = Nat.min 32 (length data) ∧
  __init__ w = (Ok (Engine (take 32 data) ∅), w) ∧
  ((length data < 32)%nat →
     __init__ w = (Ok (Engine data ∅), w) ∧
     ∀ path encoded, encode path = inr encoded → ∃ self',
       _derive_key path (Engine data ∅)
         = (Ok (hmac_sha256 data (sha256 encoded)), self')).
Proof.
  intros Hk. pose proof (init_keystore_existing w data mode Hk) as E.
  split; [done |]. split; [apply length_take |].
  assert (__init__ w = (Ok (Engine (take 32 data) ∅), w)) as Einit.
  { unfold __init__, bind. by rewrite E. }
  split; [done |]. intros Hlen.
  rewrite take_ge in Einit by lia. split; [done |].
  intros path encoded He. eexists. unfold _derive_key. simpl.
  by rewrite lookup_empty, He.
Qed.

Lemma init_keystore_short_witness :
  _init_keystore short_keystore_world = (Ok [x01; x02; x03], short_keystore_world) ∧
  length (take 32 [x01; x02; x03]) = Nat.min 32 3 ∧
  __init__ short_keystore_world
    = (Ok (Engine [x01; x02; x03] ∅), short_keystore_world) ∧
  ((3 < 32)%nat →
     __init__ short_keystore_world
       = (Ok (Engine [x01; x02; x03] ∅), short_keystore_world) ∧
     ∀ path encoded, encode path = inr encoded → ∃ self',
       @_derive_key demo_lib path (Engine [x01; x02; x03] ∅)
         = (Ok (@hmac_sha256 demo_lib [x01; x02; x03] (@sha256 demo_lib encoded)), self')).
Proof.
  apply (@init_keystore_short demo_lib short_keystore_world [x01; x02; x03] 384).
  reflexivity.
Defined.

(** ** Running the monad *)

(** Reduces the projections of a world built by the primitives, and
    nothing else. *)
Ltac wsimpl :=
  cbn [fs umask log urandom rand_pos trace add_log add_event set_fs advance
       fst snd alg ckey cnonce concat].

Lemma world_eq (w1 w2 : world) :
  fs w1 = fs w2 → umask w1 = umask w2 → log w1 = log w2 →
  urandom w1 = urandom w2 → rand_pos w1 = rand_pos w2 → trace w1 = trace w2 →
  w1 = w2.
Proof. destruct w1, w2. cbn. intros. congruence. Qed.

(** Closes goals that tell a path from its temporary siblings. *)
Ltac ne_tmp path := pose proof (app_suffix_ne path ".enc");
  pose proof (app_suffix_ne path ".dec"); pose proof (tmp_distinct path);
  naive_solver.

Section Run.
Context `{CryptoLib}.

Lemma bind_Ok {Σ A B} (m : M Σ A) (k : A → M Σ B) (σ σ' : Σ) (a : A) :
  m σ = (Ok a, σ') → bind m k σ = k a σ'.
Proof. intros E. unfold bind. by rewrite E. Qed.

Lemma bind_Raise {Σ A B} (m : M Σ A) (k : A → M Σ B) (σ σ' : Σ) (e : exn) :
  m σ = (Raise e, σ') → bind m k σ = (Raise e, σ').
Proof. intros E. unfold bind. by rewrite E. Qed.

Lemma bind_io_Ok {A B} (m : M world A) (k : A → M (CryptoEngine * world) B)
    (self : CryptoEngine) (w w' : world) (a : A) :
  m w = (Ok a, w') → bind (io m) k (self, w) = k a (self, w').
Proof. intros E. unfold bind, io. cbn [fst snd]. by rewrite E. Qed.

Lemma bind_io_Raise {A B} (m : M world A) (k : A → M (CryptoEngine * world) B)
    (self : CryptoEngine) (w w' : world) (e : exn) :
  m w = (Raise e, w') → bind (io m) k (self, w) = (Raise e, (self, w')).
Proof. intros E. unfold bind, io. cbn [fst snd]. by rewrite E. Qed.

Lemma bind_on_self_Ok {A B} (m : M CryptoEngine A) (k : A → M (CryptoEngine * world) B)
    (self self' : CryptoEngine) (w : world) (a : A) :
  m self = (Ok a, self') → bind (on_self m) k (self, w) = k a (self', w).
Proof. intros E. unfold bind, on_self. cbn [fst snd]. by rewrite E. Qed.

Lemma io_run {A} (m : M world A) (self : CryptoEngine) (w w' : world) (r : result A) :
  m w = (r, w') → io m (self, w) = (r, (self, w')).
Proof. intros E. unfold io. cbn [fst snd]. by rewrite E. Qed.

Lemma derive_key_run (self : CryptoEngine) (path : string) :
  keyed self path →
  _derive_key path self = (Ok (key_for self path), cache_after self path).
Proof.
  intros Hd. unfold _derive_key, key_for, cache_after.
  destruct (key_cache self !! path) eqn:Hk; [done |].
  destruct Hd as [[? ?] | He]; [congruence |]. by rewrite (encodes_encode path He).
Qed.

Lemma keyed_dec (self : CryptoEngine) (path : string) :
  keyed self path ∨ (key_cache self !! path = None ∧ ∃ e, encode path = inl e).
Proof.
  unfold keyed. destruct (key_cache self !! path) eqn:Hk; [left; by left |].
  destruct (encodes path) eqn:He; [left; by right | right].
  split; [done | by apply encodes_false].
Qed.

Lemma key_for_consistent (self : CryptoEngine) (path : string) :
  cache_consistent self → key_for self path = derived (master_key self) path.
Proof.
  intros Hc. unfold key_for. destruct (key_cache self !! path) eqn:E; [|done].
  by apply Hc.
Qed.

Lemma cache_after_consistent (self : CryptoEngine) (path : string) :
  cache_consistent self →
  cache_consistent (cache_after self path) ∧
  master_key (cache_after self path) = master_key self.
Proof.
  intros Hc. unfold cache_after.
  destruct (key_cache self !! path) eqn:Hk; [done |]. split; [|done].
  intros p k. cbn [key_cache master_key]. rewrite lookup_insert.
  case_decide; [|apply Hc]. subst p. by intros [= <-].
Qed.

Lemma derived_key_ok (master : bytes) (path : string) :
  key_ok AES_GCM (derived master path) = true.
Proof.
  unfold key_ok, derived. rewrite hmac_sha256_length.
  apply bool_decide_eq_true. set_solver.
Qed.

Lemma algo_is_GCM : String.eqb CONFIG.algo "AES-256-GCM" = true.
Proof. reflexivity. Qed.

Lemma with_open_wb_run (path : string) (chunks : list bytes) (w : world) :
  fs w !! path ≠ Some Dir →
  with_open_wb path chunks w
    = (Ok tt, add_event (Fs_write path (concat chunks))
                (set_fs (insert path (File (concat chunks) (mode_for_write w path))) w)).
Proof.
  intros Hd. unfold with_open_wb, mode_for_write.
  by destruct (fs w !! path) as [[]|].
Qed.

Lemma with_open_wb_dir (path : string) (chunks : list bytes) (w : world) :
  fs w !! path = Some Dir →
  with_open_wb path chunks w = (Raise (IsADirectoryError path), w).
Proof. intros Hd. unfold with_open_wb. by rewrite Hd. Qed.

Lemma os_remove_file (path : string) (w : world) (data : bytes) (mode : Z) :
  fs w !! path = Some (File data mode) →
  os_remove path w = (Ok tt, add_event (Fs_remove path) (set_fs (delete path) w)).
Proof. intros E. unfold os_remove. by rewrite E. Qed.

Lemma os_rename_file (src dst : string) (w : world) (data : bytes) (mode : Z) :
  fs w !! src = Some (File data mode) → fs w !! dst ≠ Some Dir →
  os_rename src dst w
    = (Ok tt, add_event (Fs_rename src dst)
                (set_fs (fun m => delete src (<[dst := File data mode]> m)) w)).
Proof.
  intros E Hd. unfold os_rename. rewrite E. by destruct (fs w !! dst) as [[]|].
Qed.

Lemma AES_new_GCM_run (key nonce : bytes) (w : world) :
  key_ok AES_GCM key = true → nonce ≠ [] →
  AES_new_GCM key nonce w = (Ok (Cipher AES_GCM key nonce), w).
Proof.
  intros Hk Hn. unfold AES_new_GCM. rewrite Hk. cbn [negb nonce_ok].
  by rewrite bool_decide_eq_true_2.
Qed.

Lemma random_bytes_nonempty (w : world) (n : nat) : (0 < n)%nat → random_bytes w n ≠ [].
Proof.
  intros Hn E. apply (f_equal length) in E.
  rewrite random_bytes_length in E. simpl in E. lia.
Qed.

Lemma enc_ne (path : string) : path ++ ".enc" ≠ path.
Proof. by apply app_suffix_ne. Qed.
Lemma dec_ne (path : string) : path ++ ".dec" ≠ path.
Proof. by apply app_suffix_ne. Qed.

(** The file system after a successful in-place replacement through the
    temporary [tmp]. *)
Lemma replace_in_place (m : gmap string node) (path tmp : string) (n : node) :
  tmp ≠ path →
  delete tmp (<[path := n]> (delete path (<[tmp := n]> m))) = delete tmp (<[path := n]> m).
Proof.
  intros Hne. apply map_eq. intros q.
  destruct (decide (q = tmp)) as [->|Hq]; [by rewrite !lookup_delete_eq |].
  rewrite !lookup_delete_ne by done.
  destruct (decide (q = path)) as [->|Hq']; [by rewrite !lookup_insert_eq |].
  rewrite !lookup_insert_ne by done.
  rewrite lookup_delete_ne by done. by rewrite lookup_insert_ne.
Qed.

Lemma encrypt_file_try_Ok (path : string) (self : CryptoEngine) (w : world)
    (data : bytes) (mode : Z) :
  fs w !! path = Some (File data mode) →
  keyed self path →
  key_ok AES_GCM (key_for self path) = true →
  fs w !! (path ++ ".enc") ≠ Some Dir →
  encrypt_file_try path (self, w)
    = (Ok tt, (cache_after self path, encrypted_world w path (key_for self path) data)).
Proof.
  intros Hp Hd Hk Henc. unfold encrypt_file_try. rewrite algo_is_GCM.
  erewrite bind_io_Ok by (unfold open_rb; by rewrite Hp).
  erewrite bind_on_self_Ok by (by apply derive_key_run).
  erewrite bind_io_Ok by reflexivity.
  erewrite bind_Ok; cycle 1.
  { erewrite bind_io_Ok
      by (apply AES_new_GCM_run; [done | apply random_bytes_nonempty; lia]).
    apply io_run. reflexivity. }
  destruct (seal _ _ _ _) as [ciphertext tag] eqn:Hseal.
  erewrite bind_io_Ok by (by apply with_open_wb_run).
  erewrite bind_io_Ok; cycle 1.
  { eapply os_remove_file. wsimpl. rewrite lookup_insert_ne by ne_tmp path. done. }
  erewrite bind_io_Ok; cycle 1.
  { eapply os_rename_file; wsimpl.
    - rewrite lookup_delete_ne by ne_tmp path. apply lookup_insert_eq.
    - by rewrite lookup_delete_eq. }
  erewrite io_run by reflexivity.
  unfold f_read_all in *. cbn [alg ckey cnonce] in Hseal.
  unfold encrypted_world. cbv zeta. rewrite Hseal.
  do 2 f_equal. apply world_eq; unfold mode_for_write, created_mode; wsimpl; try done.
  - rewrite app_nil_r. apply replace_in_place. ne_tmp path.
  - by rewrite app_nil_r, <- !app_assoc.
Qed.

Lemma open_rb_file (path : string) (w : world) (data : bytes) (mode : Z) :
  fs w !! path = Some (File data mode) → open_rb path w = (Ok data, w).
Proof. intros E. unfold open_rb. by rewrite E. Qed.

Lemma open_rb_fails (path : string) (w : world) :
  (∀ data mode, fs w !! path ≠ Some (File data mode)) →
  ∃ e, open_rb path w = (Raise e, w).
Proof.
  intros Hn. unfold open_rb. destruct (fs w !! path) as [[d m|]|] eqn:E.
  - by destruct (Hn d m).
  - by eexists.
  - by eexists.
Qed.

Lemma encrypt_file_try_not_file (path : string) (self : CryptoEngine) (w : world) :
  (∀ data mode, fs w !! path ≠ Some (File data mode)) →
  ∃ e, encrypt_file_try path (self, w) = (Raise e, (self, w)).
Proof.
  intros Hn. destruct (open_rb_fails path w Hn) as [e E]. exists e.
  unfold encrypt_file_try. by erewrite bind_io_Raise.
Qed.

Lemma encrypt_file_try_bad_key (path : string) (self : CryptoEngine) (w : world)
    (data : bytes) (mode : Z) :
  fs w !! path = Some (File data mode) →
  keyed self path →
  key_ok AES_GCM (key_for self path) = false →
  ∃ e, encrypt_file_try path (self, w)
         = (Raise e, (cache_after self path, advance 12 w)).
Proof.
  intros Hp Hd Hk. eexists. unfold encrypt_file_try. rewrite algo_is_GCM.
  erewrite bind_io_Ok by (by eapply open_rb_file).
  erewrite bind_on_self_Ok by (by apply derive_key_run).
  erewrite bind_io_Ok by reflexivity.
  erewrite bind_Raise; [done |].
  erewrite bind_io_Raise; [done |].
  unfold AES_new_GCM. rewrite Hk. reflexivity.
Qed.

Lemma encrypt_file_try_tmp_dir (path : string) (self : CryptoEngine) (w : world)
    (data : bytes) (mode : Z) :
  fs w !! path = Some (File data mode) →
  keyed self path →
  key_ok AES_GCM (key_for self path) = true →
  fs w !! (path ++ ".enc") = Some Dir →
  encrypt_file_try path (self, w)
    = (Raise (IsADirectoryError (path ++ ".enc")),
       (cache_after self path,
        add_event (Aead_encrypt (key_for self path) (random_bytes w 12) data)
          (advance 12 w))).
Proof.
  intros Hp Hd Hk Henc. unfold encrypt_file_try. rewrite algo_is_GCM.
  erewrite bind_io_Ok by (by eapply open_rb_file).
  erewrite bind_on_self_Ok by (by apply derive_key_run).
  erewrite bind_io_Ok by reflexivity.
  erewrite bind_Ok; cycle 1.
  { erewrite bind_io_Ok
      by (apply AES_new_GCM_run; [done | apply random_bytes_nonempty; lia]).
    apply io_run. reflexivity. }
  destruct (seal _ _ _ _) as [ciphertext tag].
  erewrite bind_io_Raise; [done |].
  by apply with_open_wb_dir.
Qed.

(** On a path that has no key the body stops at [_derive_key], after the
    file was read and before anything else. *)
Lemma encrypt_file_try_no_key (path : string) (self : CryptoEngine) (w : world)
    (data : bytes) (mode : Z) (e : exn) :
  fs w !! path = Some (File data mode) →
  key_cache self !! path = None → encode path = inl e →
  encrypt_file_try path (self, w) = (Raise e, (self, w)).
Proof.
  intros Hp Hk He. unfold encrypt_file_try.
  erewrite bind_io_Ok by (by eapply open_rb_file).
  unfold bind, on_self. cbn [fst snd]. by rewrite (derive_key_raises self path e).
Qed.

(** *** decrypt_file *)

Lemma decrypt_file_try_no_key (path : string) (self : CryptoEngine) (w : world)
    (c : bytes) (mode : Z) (e : exn) :
  fs w !! path = Some (File c mode) →
  key_cache self !! path = None → encode path = inl e →
  decrypt_file_try path (self, w) = (Raise e, (self, w)).
Proof.
  intros Hp Hk He. unfold decrypt_file_try.
  erewrite bind_io_Ok by (by eapply open_rb_file).
  unfold f_read, f_read_all. cbv zeta.
  unfold bind, on_self. cbn [fst snd]. by rewrite (derive_key_raises self path e).
Qed.

Lemma decrypt_file_try_not_file (path : string) (self : CryptoEngine) (w : world) :
  (∀ data mode, fs w !! path ≠ Some (File data mode)) →
  ∃ e, decrypt_file_try path (self, w) = (Raise e, (self, w)).
Proof.
  intros Hn. destruct (open_rb_fails path w Hn) as [e E]. exists e.
  unfold decrypt_file_try. by erewrite bind_io_Raise.
Qed.

Lemma decrypt_file_try_new_fails (path : string) (self : CryptoEngine) (w : world)
    (c : bytes) (mode : Z) :
  fs w !! path = Some (File c mode) →
  keyed self path →
  key_ok AES_GCM (key_for self path) && nonce_ok AES_GCM (nonce_of c) = false →
  ∃ e, decrypt_file_try path (self, w) = (Raise e, (cache_after self path, w)) ∧
    (key_ok AES_GCM (key_for self path) = true →
     e = ValueError "Nonce cannot be empty").
Proof.
  intros Hp Hd Hk. unfold decrypt_file_try. rewrite algo_is_GCM.
  erewrite bind_io_Ok by (by eapply open_rb_file).
  unfold f_read, f_read_all. cbv zeta.
  erewrite bind_on_self_Ok by (by apply derive_key_run).
  unfold AES_new_GCM. fold (nonce_of c).
  destruct (key_ok AES_GCM (key_for self path)); cbn [negb andb] in *.
  - rewrite Hk. cbn [negb]. eexists.
    split; [erewrite bind_Raise; [done |]; by erewrite bind_io_Raise | done].
  - eexists.
    split; [erewrite bind_Raise; [done |]; by erewrite bind_io_Raise | done].
Qed.

Lemma decrypt_file_try_MAC (path : string) (self : CryptoEngine) (w : world)
    (c : bytes) (mode : Z) :
  fs w !! path = Some (File c mode) →
  keyed self path →
  key_ok AES_GCM (key_for self path) = true →
  nonce_ok AES_GCM (nonce_of c) = true →
  unseal AES_GCM (key_for self path) (nonce_of c) (ciphertext_of c) (tag_of c) = None →
  decrypt_file_try path (self, w)
    = (Raise MAC_check_failed,
       (cache_after self path,
        add_event (Aead_decrypt (key_for self path) (nonce_of c)
                     (ciphertext_of c) (tag_of c)) w)).
Proof.
  intros Hp Hd Hk Hn Hu. unfold decrypt_file_try. rewrite algo_is_GCM.
  erewrite bind_io_Ok by (by eapply open_rb_file).
  unfold f_read, f_read_all. cbv zeta.
  erewrite bind_on_self_Ok by (by apply derive_key_run).
  fold (nonce_of c) (tag_of c) (ciphertext_of c).
  erewrite bind_Raise; [done |].
  erewrite bind_io_Ok; cycle 1.
  { unfold AES_new_GCM. rewrite Hk, Hn. reflexivity. }
  apply io_run. unfold decrypt_and_verify.
  erewrite bind_Ok by reflexivity. cbn [alg ckey cnonce]. by rewrite Hu.
Qed.

Lemma decrypt_file_try_tmp_dir (path : string) (self : CryptoEngine) (w : world)
    (c : bytes) (mode : Z) (data : bytes) :
  fs w !! path = Some (File c mode) →
  keyed self path →
  key_ok AES_GCM (key_for self path) = true →
  nonce_ok AES_GCM (nonce_of c) = true →
  unseal AES_GCM (key_for self path) (nonce_of c) (ciphertext_of c) (tag_of c)
    = Some data →
  fs w !! (path ++ ".dec") = Some Dir →
  decrypt_file_try path (self, w)
    = (Raise (IsADirectoryError (path ++ ".dec")),
       (cache_after self path,
        add_event (Aead_decrypt (key_for self path) (nonce_of c)
                     (ciphertext_of c) (tag_of c)) w)).
Proof.
  intros Hp Hd Hk Hn Hu Hdec. unfold decrypt_file_try. rewrite algo_is_GCM.
  erewrite bind_io_Ok by (by eapply open_rb_file).
  unfold f_read, f_read_all. cbv zeta.
  erewrite bind_on_self_Ok by (by apply derive_key_run).
  fold (nonce_of c) (tag_of c) (ciphertext_of c).
  erewrite bind_Ok; cycle 1.
  { erewrite bind_io_Ok; cycle 1.
    { unfold AES_new_GCM. rewrite Hk, Hn. reflexivity. }
    apply io_run. unfold decrypt_and_verify.
    erewrite bind_Ok by reflexivity. cbn [alg ckey cnonce]. rewrite Hu. reflexivity. }
  erewrite bind_io_Raise; [done |]. by apply with_open_wb_dir.
Qed.

Lemma decrypt_file_try_Ok (path : string) (self : CryptoEngine) (w : world)
    (c : bytes) (mode : Z) (data : bytes) :
  fs w !! path = Some (File c mode) →
  keyed self path →
  key_ok AES_GCM (key_for self path) = true →
  nonce_ok AES_GCM (nonce_of c) = true →
  unseal AES_GCM (key_for self path) (nonce_of c) (ciphertext_of c) (tag_of c)
    = Some data →
  fs w !! (path ++ ".dec") ≠ Some Dir →
  decrypt_file_try path (self, w)
    = (Ok tt, (cache_after self path,
               decrypted_world w path (key_for self path) c data)).
Proof.
  intros Hp Hd Hk Hn Hu Hdec. unfold decrypt_file_try. rewrite algo_is_GCM.
  erewrite bind_io_Ok by (by eapply open_rb_file).
  unfold f_read, f_read_all. cbv zeta.
  erewrite bind_on_self_Ok by (by apply derive_key_run).
  fold (nonce_of c) (tag_of c) (ciphertext_of c).
  erewrite bind_Ok; cycle 1.
  { erewrite bind_io_Ok; cycle 1.
    { unfold AES_new_GCM. rewrite Hk, Hn. reflexivity. }
    apply io_run. unfold decrypt_and_verify.
    erewrite bind_Ok by reflexivity. cbn [alg ckey cnonce]. rewrite Hu. reflexivity. }
  erewrite bind_io_Ok by (by apply with_open_wb_run).
  erewrite bind_io_Ok; cycle 1.
  { eapply os_remove_file. wsimpl. rewrite lookup_insert_ne by ne_tmp path. done. }
  erewrite bind_io_Ok; cycle 1.
  { eapply os_rename_file; wsimpl.
    - rewrite lookup_delete_ne by ne_tmp path. apply lookup_insert_eq.
    - by rewrite lookup_delete_eq. }
  erewrite io_run by reflexivity.
  unfold decrypted_world. do 2 f_equal.
  apply world_eq; unfold mode_for_write, created_mode; wsimpl; try done.
  - rewrite app_nil_r. apply replace_in_place. ne_tmp path.
  - by rewrite app_nil_r, <- !app_assoc.
Qed.

End Run.

(** ** What one call of encrypt_file or decrypt_file does *)

Lemma calls_app (t1 t2 : list event) : calls (t1 ++ t2) = (calls t1 ++ calls t2)%list.
Proof. apply List.filter_app. Qed.

(** Computes the calls recorded in the trace of a world built by the
    primitives. *)
Ltac calls_simpl :=
  wsimpl; rewrite ?calls_app; cbn [calls List.filter is_call app];
  rewrite ?app_nil_r.

Lemma dir_or_not (m : gmap string node) (q : string) :
  m !! q = Some Dir ∨ m !! q ≠ Some Dir.
Proof. destruct (m !! q) as [[]|]; auto. Qed.

Lemma fs_step_refl (m : gmap string node) : fs_step m m.
Proof. split; [|split]; done. Qed.

Lemma fs_step_trans (m1 m2 m3 : gmap string node) :
  fs_step m1 m2 → fs_step m2 m3 → fs_step m1 m3.
Proof.
  intros (D1 & S1 & E1) (D2 & S2 & E2). split; [|split].
  - intros q. rewrite D2. apply D1.
  - intros q Hq. by apply S1, S2.
  - intros q. by rewrite E2, E1.
Qed.

Lemma enc_not_eligible (m : gmap string node) (path : string) :
  eligible m (path ++ ".enc") = false.
Proof.
  unfold eligible.
  assert (any (fun ex => endswith (path ++ ".enc") ex) CONFIG.extensions = true) as ->.
  { apply any_spec. exists ".enc". split; [by constructor | apply endswith_app]. }
  by rewrite andb_false_r.
Qed.

Lemma replaced_lookup (m : gmap string node) (path : string) (n : node) (q : string) :
  delete (path ++ ".enc") (<[path := n]> m) !! q
  = if decide (q = path ++ ".enc") then None
    else if decide (q = path) then Some n else m !! q.
Proof.
  case_decide as Hq; [subst; by rewrite lookup_delete_eq |].
  rewrite lookup_delete_ne by done.
  case_decide as Hq'; [subst; by rewrite lookup_insert_eq |].
  by rewrite lookup_insert_ne.
Qed.

Lemma replaced_fs_step (m : gmap string node) (path : string) (data c : bytes)
    (mode md : Z) :
  m !! path = Some (File data mode) →
  m !! (path ++ ".enc") ≠ Some Dir →
  fs_step m (delete (path ++ ".enc") (<[path := File c md]> m)).
Proof.
  intros Hp Henc. split; [|split].
  - intros q. rewrite replaced_lookup.
    repeat case_decide; subst; split; intros Hq; try done; congruence.
  - intros q. rewrite replaced_lookup.
    repeat case_decide; subst; first [done | by intros [? ?]].
  - intros q. destruct (decide (q = path ++ ".enc")) as [->|Hq].
    { by rewrite !enc_not_eligible. }
    unfold eligible, isfile. rewrite replaced_lookup.
    rewrite decide_False by done. case_decide; [subst; by rewrite Hp | done].
Qed.

Section Outcome.
Context `{CryptoLib}.

Lemma encrypt_file_run_Ok (path : string) (self : CryptoEngine) (w : world)
    (σ' : CryptoEngine * world) :
  encrypt_file_try path (self, add_event (Call_encrypt_file path) w) = (Ok tt, σ') →
  encrypt_file path (self, w) = (Ok tt, σ').
Proof.
  intros E. unfold encrypt_file.
  erewrite bind_io_Ok by reflexivity. unfold try_except. by rewrite E.
Qed.

Lemma encrypt_file_run_Raise (path : string) (self self' : CryptoEngine)
    (w w' : world) (e : exn) :
  encrypt_file_try path (self, add_event (Call_encrypt_file path) w)
    = (Raise e, (self', w')) →
  encrypt_file path (self, w)
    = (Ok tt, (self', add_log ERROR (snd (failed_line path e)) w')).
Proof.
  intros E. unfold encrypt_file.
  erewrite bind_io_Ok by reflexivity. unfold try_except. rewrite E.
  by apply io_run.
Qed.

Lemma decrypt_file_run_Ok (path : string) (self : CryptoEngine) (w : world)
    (σ' : CryptoEngine * world) :
  decrypt_file_try path (self, add_event (Call_decrypt_file path) w) = (Ok tt, σ') →
  decrypt_file path (self, w) = (Ok tt, σ').
Proof.
  intros E. unfold decrypt_file.
  erewrite bind_io_Ok by reflexivity. unfold try_except. by rewrite E.
Qed.

Lemma decrypt_file_run_Raise (path : string) (self self' : CryptoEngine)
    (w w' : world) (e : exn) :
  decrypt_file_try path (self, add_event (Call_decrypt_file path) w)
    = (Raise e, (self', w')) →
  decrypt_file path (self, w)
    = (Ok tt, (self', add_log ERROR (snd (failed_line path e)) w')).
Proof.
  intros E. unfold decrypt_file.
  erewrite bind_io_Ok by reflexivity. unfold try_except. rewrite E.
  by apply io_run.
Qed.

(** [encrypt_file] always returns.  Either the file was replaced by a
    container and an INFO line written, or the file system is as before
    and an ERROR line names the path and the exception.  The events it
    adds to the trace are its own call and then operations on the path
    and on [path.enc] only. *)
Lemma encrypt_file_cases (path : string) (self : CryptoEngine) (w : world) :
  ∃ self' w' evs, encrypt_file path (self, w) = (Ok tt, (self', w')) ∧
    trace w' = (trace w ++ Call_encrypt_file path :: evs)%list ∧
    calls evs = [] ∧
    names_in (fun p => p = path ∨ p = path ++ ".enc") evs ∧
    ((∃ data mode c md,
        fs w !! path = Some (File data mode) ∧
        fs w !! (path ++ ".enc") ≠ Some Dir ∧
        fs w' = delete (path ++ ".enc") (<[path := File c md]> (fs w)) ∧
        log w' = (log w ++ [encrypted_line path])%list)
     ∨ (fs w' = fs w ∧ ∃ e, log w' = (log w ++ [failed_line path e])%list)).
Proof.
  pose (w0 := add_event (Call_encrypt_file path) w).
  assert (fs w0 = fs w) as Hfs0 by done.
  destruct (fs w !! path) as [[data mode|]|] eqn:Hp.
  - destruct (keyed_dec self path) as [Hd | (Hk0 & e & He)]; cycle 1.
    { exists self, (add_log ERROR (snd (failed_line path e)) w0), []. split.
      { eapply encrypt_file_run_Raise.
        eapply (encrypt_file_try_no_key path self w0); by rewrite ?Hfs0. }
      split; [done |]. split; [done |]. split; [constructor |].
      right. split; [done |]. by eexists. }
    destruct (key_ok AES_GCM (key_for self path)) eqn:Hk.
    + destruct (dir_or_not (fs w) (path ++ ".enc")) as [Henc|Henc].
      * eexists _, _, [_]. split.
        { eapply encrypt_file_run_Raise.
          eapply (encrypt_file_try_tmp_dir path self w0); by rewrite ?Hfs0. }
        split; [subst w0; wsimpl; by rewrite <- app_assoc |].
        split; [done |]. split; [by repeat constructor |].
        right. split; [done |]. by eexists.
      * eexists _, _, [_; _; _; _]. split.
        { eapply encrypt_file_run_Ok.
          eapply (encrypt_file_try_Ok path self w0); by rewrite ?Hfs0. }
        split; [subst w0; unfold encrypted_world; wsimpl; by rewrite <- app_assoc |].
        split; [done |].
        split; [repeat constructor; by auto |].
        left. by do 4 eexists.
    + destruct (encrypt_file_try_bad_key path self w0 data mode) as [e E]; try done.
      eexists _, _, []. split; [by eapply encrypt_file_run_Raise |].
      split; [done |]. split; [done |]. split; [constructor |].
      right. split; [done |]. by eexists.
  - destruct (encrypt_file_try_not_file path self w0) as [e E].
    { intros d m. by rewrite Hfs0, Hp. }
    eexists _, _, []. split; [by eapply encrypt_file_run_Raise |].
    split; [done |]. split; [done |]. split; [constructor |].
    right. split; [done |]. by eexists.
  - destruct (encrypt_file_try_not_file path self w0) as [e E].
    { intros d m. by rewrite Hfs0, Hp. }
    eexists _, _, []. split; [by eapply encrypt_file_run_Raise |].
    split; [done |]. split; [done |]. split; [constructor |].
    right. split; [done |]. by eexists.
Qed.

Lemma encrypt_file_outcome (path : string) (self : CryptoEngine) (w : world) :
  ∃ self' w', encrypt_file path (self, w) = (Ok tt, (self', w')) ∧
    calls (trace w') = (calls (trace w) ++ [Call_encrypt_file path])%list ∧
    ((∃ data mode c md,
        fs w !! path = Some (File data mode) ∧
        fs w !! (path ++ ".enc") ≠ Some Dir ∧
        fs w' = delete (path ++ ".enc") (<[path := File c md]> (fs w)) ∧
        log w' = (log w ++ [encrypted_line path])%list)
     ∨ (fs w' = fs w ∧ ∃ e, log w' = (log w ++ [failed_line path e])%list)).
Proof.
  destruct (encrypt_file_cases path self w) as (self' & w' & evs & E & Ht & Hc & _ & Hfs).
  exists self', w'. split; [done |]. split; [|done].
  rewrite Ht, calls_app. cbn [calls List.filter is_call]. fold (calls evs). by rewrite Hc.
Qed.

(** [decrypt_file] always returns as well, with the same two outcomes. *)
Lemma decrypt_file_cases (path : string) (self : CryptoEngine) (w : world) :
  ∃ self' w' evs, decrypt_file path (self, w) = (Ok tt, (self', w')) ∧
    trace w' = (trace w ++ Call_decrypt_file path :: evs)%list ∧
    calls evs = [] ∧
    names_in (fun p => p = path ∨ p = path ++ ".dec") evs ∧
    ((∃ c mode data md,
        fs w !! path = Some (File c mode) ∧
        unseal AES_GCM (key_for self path) (nonce_of c) (ciphertext_of c) (tag_of c)
          = Some data ∧
        fs w' = delete (path ++ ".dec") (<[path := File data md]> (fs w)) ∧
        log w' = (log w ++ [decrypted_line path])%list)
     ∨ (fs w' = fs w ∧ ∃ e, log w' = (log w ++ [failed_line path e])%list)).
Proof.
  pose (w0 := add_event (Call_decrypt_file path) w).
  assert (fs w0 = fs w) as Hfs0 by done.
  destruct (fs w !! path) as [[c mode|]|] eqn:Hp.
  - destruct (keyed_dec self path) as [Hd | (Hk0 & e & He)]; cycle 1.
    { exists self, (add_log ERROR (snd (failed_line path e)) w0), []. split.
      { eapply decrypt_file_run_Raise.
        eapply (decrypt_file_try_no_key path self w0); by rewrite ?Hfs0. }
      split; [done |]. split; [done |]. split; [constructor |].
      right. split; [done |]. by eexists. }
    destruct (key_ok AES_GCM (key_for self path) && nonce_ok AES_GCM (nonce_of c))
      eqn:Hk.
    + apply andb_true_iff in Hk as [Hk Hn].
      destruct (unseal AES_GCM (key_for self path) (nonce_of c) (ciphertext_of c)
                  (tag_of c)) as [data|] eqn:Hu.
      * destruct (dir_or_not (fs w) (path ++ ".dec")) as [Hdec|Hdec].
        -- eexists _, _, [_]. split.
           { eapply decrypt_file_run_Raise.
             eapply (decrypt_file_try_tmp_dir path self w0); by rewrite ?Hfs0. }
           split; [subst w0; wsimpl; by rewrite <- app_assoc |].
           split; [done |]. split; [by repeat constructor |].
           right. split; [done |]. by eexists.
        -- eexists _, _, [_; _; _; _]. split.
           { eapply decrypt_file_run_Ok.
             eapply (decrypt_file_try_Ok path self w0); by rewrite ?Hfs0. }
           split; [subst w0; unfold decrypted_world; wsimpl; by rewrite <- app_assoc |].
           split; [done |].
           split; [repeat constructor; by auto |].
           left. by do 4 eexists.
      * eexists _, _, [_]. split.
        { eapply decrypt_file_run_Raise.
          eapply (decrypt_file_try_MAC path self w0); by rewrite ?Hfs0. }
        split; [subst w0; wsimpl; by rewrite <- app_assoc |].
        split; [done |]. split; [by repeat constructor |].
        right. split; [done |]. by eexists.
    + destruct (decrypt_file_try_new_fails path self w0 c mode) as (e & E & _);
        try done.
      eexists _, _, []. split; [by eapply decrypt_file_run_Raise |].
      split; [done |]. split; [done |]. split; [constructor |].
      right. split; [done |]. by eexists.
  - destruct (decrypt_file_try_not_file path self w0) as [e E].
    { intros d m. by rewrite Hfs0, Hp. }
    eexists _, _, []. split; [by eapply decrypt_file_run_Raise |].
    split; [done |]. split; [done |]. split; [constructor |].
    right. split; [done |]. by eexists.
  - destruct (decrypt_file_try_not_file path self w0) as [e E].
    { intros d m. by rewrite Hfs0, Hp. }
    eexists _, _, []. split; [by eapply decrypt_file_run_Raise |].
    split; [done |]. split; [done |]. split; [constructor |].
    right. split; [done |]. by eexists.
Qed.

Lemma decrypt_file_outcome (path : string) (self : CryptoEngine) (w : world) :
  ∃ self' w', decrypt_file path (self, w) = (Ok tt, (self', w')) ∧
    calls (trace w') = (calls (trace w) ++ [Call_decrypt_file path])%list ∧
    ((∃ c mode data md,
        fs w !! path = Some (File c mode) ∧
        unseal AES_GCM (key_for self path) (nonce_of c) (ciphertext_of c) (tag_of c)
          = Some data ∧
        fs w' = delete (path ++ ".dec") (<[path := File data md]> (fs w)) ∧
        log w' = (log w ++ [decrypted_line path])%list)
     ∨ (fs w' = fs w ∧ ∃ e, log w' = (log w ++ [failed_line path e])%list)).
Proof.
  destruct (decrypt_file_cases path self w) as (self' & w' & evs & E & Ht & Hc & _ & Hfs).
  exists self', w'. split; [done |]. split; [|done].
  rewrite Ht, calls_app. cbn [calls List.filter is_call]. fold (calls evs). by rewrite Hc.
Qed.

(** *** Container layout *)

Lemma container_split (nonce tag ciphertext : bytes) :
  length nonce = 12%nat → length tag = 16%nat →
  nonce_of (nonce ++ tag ++ ciphertext) = nonce ∧
  tag_of (nonce ++ tag ++ ciphertext) = tag ∧
  ciphertext_of (nonce ++ tag ++ ciphertext) = ciphertext.
Proof.
  intros Hn Ht. unfold nonce_of, tag_of, ciphertext_of.
  rewrite take_app_length' by done. rewrite drop_app_length' by done.
  rewrite take_app_length' by done. by rewrite drop_app_length' by done.
Qed.

Lemma sealed_lengths (key data : bytes) (w : world) :
  key_ok AES_GCM key = true →
  length (random_bytes w 12) = 12%nat ∧
  length (snd (seal AES_GCM key (random_bytes w 12) data)) = 16%nat ∧
  length (fst (seal AES_GCM key (random_bytes w 12) data)) = length data ∧
  nonce_ok AES_GCM (random_bytes w 12) = true.
Proof.
  intros Hk.
  assert (nonce_ok AES_GCM (random_bytes w 12) = true) as Hn.
  { apply bool_decide_eq_true. apply random_bytes_nonempty. lia. }
  destruct (seal_length AES_GCM key (random_bytes w 12) data Hk Hn) as [Hc Ht].
  by rewrite random_bytes_length.
Qed.

Lemma encrypt_file_Ok (path : string) (self : CryptoEngine) (w : world)
    (m : bytes) (mode : Z) :
  fs w !! path = Some (File m mode) →
  fs w !! (path ++ ".enc") ≠ Some Dir →
  cache_consistent self → encodes path = true →
  encrypt_file path (self, w)
    = (Ok tt, (cache_after self path,
               encrypted_world (add_event (Call_encrypt_file path) w) path
                 (derived (master_key self) path) m)).
Proof.
  intros Hp Henc Hc He. eapply encrypt_file_run_Ok.
  pose proof (encrypt_file_try_Ok path self (add_event (Call_encrypt_file path) w)
                m mode) as T.
  rewrite (key_for_consistent self path Hc) in T. apply T; try done.
  - by right.
  - apply derived_key_ok.
Qed.

(** A successful [encrypt_file], with everything it leaves. *)
Lemma encrypt_sealed (path : string) (self : CryptoEngine) (w : world)
    (m : bytes) (mode : Z) :
  fs w !! path = Some (File m mode) →
  fs w !! (path ++ ".enc") ≠ Some Dir →
  cache_consistent self → encodes path = true →
  ∃ w1 tag ct,
    encrypt_file path (self, w) = (Ok tt, (cache_after self path, w1)) ∧
    seal AES_GCM (derived (master_key self) path) (random_bytes w 12) m = (ct, tag) ∧
    fs w1 !! path
    = Some (File (random_bytes w 12 ++ tag ++ ct) (mode_for_write w (path ++ ".enc"))) ∧
    length (random_bytes w 12) = 12%nat ∧ length tag = 16%nat ∧ length ct = length m ∧
    fs w1 !! (path ++ ".enc") = None ∧
    fs w1 !! (path ++ ".dec") = fs w !! (path ++ ".dec") ∧
    (∀ q, eligible (fs w1) q = eligible (fs w) q) ∧
    log w1 = (log w ++ [encrypted_line path])%list ∧
    trace w1
    = (trace w ++ [Call_encrypt_file path;
                   Aead_encrypt (derived (master_key self) path) (random_bytes w 12) m;
                   Fs_write (path ++ ".enc") (random_bytes w 12 ++ tag ++ ct);
                   Fs_remove path;
                   Fs_rename (path ++ ".enc") path])%list ∧
    umask w1 = umask w ∧ rand_pos w1 = (rand_pos w + 12)%nat ∧ urandom w1 = urandom w.
Proof.
  intros Hp Henc Hc He.
  pose (w0 := add_event (Call_encrypt_file path) w).
  pose (key := derived (master_key self) path).
  destruct (sealed_lengths key m w0 (derived_key_ok _ _)) as (Hln & Hlt & Hlc & _).
  change (random_bytes w0 12) with (random_bytes w 12) in *.
  exists (encrypted_world w0 path key m),
    (snd (seal AES_GCM key (random_bytes w 12) m)),
    (fst (seal AES_GCM key (random_bytes w 12) m)).
  split; [by apply (encrypt_file_Ok path self w m mode) |].
  split; [apply surjective_pairing |].
  unfold encrypted_world. cbv zeta. cbn [fs log trace umask rand_pos urandom].
  change (random_bytes w0 12) with (random_bytes w 12).
  rewrite !replaced_lookup.
  split; [rewrite decide_False by ne_tmp path; by rewrite decide_True |].
  split; [done |]. split; [done |]. split; [done |].
  split; [by rewrite decide_True |].
  split; [rewrite decide_False by ne_tmp path; by rewrite decide_False by ne_tmp path |].
  split; [by apply (replaced_fs_step (fs w) path m _ mode) |].
  split; [done |].
  split; [subst w0; cbn [trace add_event]; by rewrite <- app_assoc |].
  done.
Qed.

(** Decrypting a container that was sealed under the key of its path,
    with everything [decrypt_file] leaves. *)
Lemma decrypt_sealed (path : string) (self : CryptoEngine) (w : world)
    (nonce tag ct m : bytes) (md : Z) :
  fs w !! path = Some (File (nonce ++ tag ++ ct) md) →
  length nonce = 12%nat →
  seal AES_GCM (derived (master_key self) path) nonce m = (ct, tag) →
  fs w !! (path ++ ".dec") ≠ Some Dir →
  cache_consistent self → encodes path = true →
  ∃ w2,
    decrypt_file path (self, w) = (Ok tt, (cache_after self path, w2)) ∧
    unseal AES_GCM (derived (master_key self) path) nonce ct tag = Some m ∧
    fs w2 !! path = Some (File m (mode_for_write w (path ++ ".dec"))) ∧
    fs w2 !! (path ++ ".dec") = None ∧
    log w2 = (log w ++ [decrypted_line path])%list ∧
    trace w2
    = (trace w ++ [Call_decrypt_file path;
                   Aead_decrypt (derived (master_key self) path) nonce ct tag;
                   Fs_write (path ++ ".dec") m;
                   Fs_remove path;
                   Fs_rename (path ++ ".dec") path])%list ∧
    umask w2 = umask w ∧ rand_pos w2 = rand_pos w.
Proof.
  intros Hp Hln Hseal Hdec Hc He.
  assert (key_ok AES_GCM (derived (master_key self) path) = true) as Hkey
    by apply derived_key_ok.
  assert (nonce_ok AES_GCM nonce = true) as Hnonce.
  { apply bool_decide_eq_true. intros ->. done. }
  destruct (seal_length AES_GCM _ nonce m Hkey Hnonce) as [_ Hlt].
  rewrite Hseal in Hlt. cbn [snd] in Hlt.
  destruct (container_split nonce tag ct Hln Hlt) as (Sn & St & Sc).
  assert (unseal AES_GCM (derived (master_key self) path) nonce ct tag = Some m) as Hu
    by by apply unseal_iff.
  pose (w0 := add_event (Call_decrypt_file path) w).
  exists (decrypted_world w0 path (derived (master_key self) path) (nonce ++ tag ++ ct) m).
  split.
  { eapply decrypt_file_run_Ok.
    pose proof (decrypt_file_try_Ok path self w0 (nonce ++ tag ++ ct) md m) as T.
    rewrite (key_for_consistent self path Hc), Sn, St, Sc in T.
    apply T; try done. by right. }
  split; [exact Hu |].
  unfold decrypted_world. cbn [fs log trace umask rand_pos]. rewrite Sn, St, Sc.
  split; [rewrite lookup_delete_ne by ne_tmp path; apply lookup_insert_eq |].
  split; [apply lookup_delete_eq |]. split; [done |].
  split; [subst w0; cbn [trace add_event]; by rewrite <- app_assoc | done].
Qed.

End Outcome.

(** ** The file transforms *)

Section Transforms.
Context `{CryptoLib}.

(** C1: for every plaintext and every master key, [encrypt_file] on a
    path succeeds and leaves there the container nonce, tag, ciphertext
    that the AEAD gives for the plaintext under the key of the path;
    [decrypt_file] on the same path, by an engine holding that master
    key, verifies and opens exactly this container and leaves the file
    with exactly the original bytes.  Both calls log their success.  (The
    path must have an encoding, from which its key is derived, and the
    two temporary names must not be directories.) *)
Theorem encrypt_decrypt_roundtrip (path : string) (self1 self2 : CryptoEngine)
    (w : world) (m : bytes) (mode : Z) :
  fs w !! path = Some (File m mode) →
  fs w !! (path ++ ".enc") ≠ Some Dir →
  fs w !! (path ++ ".dec") ≠ Some Dir →
  cache_consistent self1 → cache_consistent self2 →
  master_key self1 = master_key self2 →
  encodes path = true →
  ∃ self1' w1 nonce tag ciphertext md1 self2' w2 md2,
    encrypt_file path (self1, w) = (Ok tt, (self1', w1)) ∧
    seal AES_GCM (derived (master_key self1) path) nonce m = (ciphertext, tag) ∧
    fs w1 !! path = Some (File (nonce ++ tag ++ ciphertext) md1) ∧
    log w1 = (log w ++ [encrypted_line path])%list ∧
    decrypt_file path (self2, w1) = (Ok tt, (self2', w2)) ∧
    unseal AES_GCM (derived (master_key self2) path) nonce ciphertext tag = Some m ∧
    trace w2
    = (trace w1 ++ [Call_decrypt_file path;
                    Aead_decrypt (derived (master_key self2) path) nonce ciphertext tag;
                    Fs_write (path ++ ".dec") m;
                    Fs_remove path;
                    Fs_rename (path ++ ".dec") path])%list ∧
    fs w2 !! path = Some (File m md2) ∧
    log w2 = (log w ++ [encrypted_line path; decrypted_line path])%list.
Proof.
  intros Hp Henc Hdec Hc1 Hc2 Hm He.
  destruct (encrypt_sealed path self1 w m mode Hp Henc Hc1 He)
    as (w1 & tag & ct & E1 & Hseal & Hf1 & Hln & _ & _ & _ & Hd1 & _ & Hl1 & _).
  destruct (decrypt_sealed path self2 w1 (random_bytes w 12) tag ct m _ Hf1 Hln)
    as (w2 & E2 & Hu & Hf2 & _ & Hl2 & Ht2 & _);
    [by rewrite <- Hm | by rewrite Hd1 | done | done |].
  exists (cache_after self1 path), w1, (random_bytes w 12), tag, ct,
    (mode_for_write w (path ++ ".enc")), (cache_after self2 path), w2,
    (mode_for_write w1 (path ++ ".dec")).
  split; [exact E1 |]. split; [exact Hseal |]. split; [exact Hf1 |].
  split; [exact Hl1 |]. split; [exact E2 |]. split; [exact Hu |].
  split; [exact Ht2 |]. split; [exact Hf2 |].
  by rewrite Hl2, Hl1, <- app_assoc.
Qed.

(** C6: the file [encrypt_file] leaves is nonce, tag and ciphertext in
    this order: the nonce is the 12 bytes just drawn from the random
    source, and ciphertext and tag are what the AEAD gives for the
    plaintext under the key of the path and this nonce, 16 bytes of tag
    and a ciphertext of the plaintext's length.  The container is
    therefore 28 bytes longer than the plaintext; an empty file becomes a
    container of exactly 28 bytes, and decrypting that container gives
    the empty file back. *)
Theorem encrypt_container_layout (path : string) (self : CryptoEngine) (w : world)
    (m : bytes) (mode : Z) :
  fs w !! path = Some (File m mode) →
  fs w !! (path ++ ".enc") ≠ Some Dir →
  cache_consistent self →
  encodes path = true →
  ∃ self' w' nonce tag ciphertext md,
    encrypt_file path (self, w) = (Ok tt, (self', w')) ∧
    nonce = random_bytes w 12 ∧
    seal AES_GCM (derived (master_key self) path) nonce m = (ciphertext, tag) ∧
    fs w' !! path = Some (File (nonce ++ tag ++ ciphertext) md) ∧
    length nonce = 12%nat ∧ length tag = 16%nat ∧
    length ciphertext = length m ∧
    length (nonce ++ tag ++ ciphertext) = (12 + 16 + length m)%nat ∧
    (m = [] →
       length (nonce ++ tag ++ ciphertext) = 28%nat ∧
       (fs w !! (path ++ ".dec") ≠ Some Dir →
        ∃ self'' w'' md',
          decrypt_file path (self', w') = (Ok tt, (self'', w'')) ∧
          fs w'' !! path = Some (File [] md') ∧
          log w'' = (log w' ++ [decrypted_line path])%list)).
Proof.
  intros Hp Henc Hc He.
  destruct (encrypt_sealed path self w m mode Hp Henc Hc He)
    as (w1 & tag & ct & E1 & Hseal & Hf1 & Hln & Hlt & Hlc & _ & Hd1 & _).
  exists (cache_after self path), w1, (random_bytes w 12), tag, ct,
    (mode_for_write w (path ++ ".enc")).
  split; [exact E1 |]. split; [done |]. split; [exact Hseal |]. split; [exact Hf1 |].
  split; [done |]. split; [done |]. split; [done |].
  assert (length (random_bytes w 12 ++ tag ++ ct) = (12 + 16 + length m)%nat) as Hlen.
  { rewrite !length_app, Hln, Hlt, Hlc. lia. }
  split; [exact Hlen |].
  intros ->. split; [by rewrite Hlen |]. intros Hdec.
  destruct (cache_after_consistent self path Hc) as [Hc' Hm'].
  destruct (decrypt_sealed path (cache_after self path) w1 (random_bytes w 12) tag ct
              [] _ Hf1 Hln)
    as (w2 & E2 & _ & Hf2 & _ & Hl2 & _);
    [by rewrite Hm' | by rewrite Hd1 | done | done |].
  by exists (cache_after (cache_after self path) path), w2,
    (mode_for_write w1 (path ++ ".dec")).
Qed.

(** C4: when the tag of the container at [path] does not verify, the
    body of [decrypt_file] raises the library's MAC error after the
    decryption attempt and before any write, removal or renaming;
    [decrypt_file] catches it, logs the path with the error text, and the
    file system is exactly what it was.  (The path has an encoding, hence
    a key to verify with.) *)
Theorem decrypt_bad_tag (path : string) (self : CryptoEngine) (w : world)
    (c : bytes) (mode : Z) :
  fs w !! path = Some (File c mode) →
  cache_consistent self →
  encodes path = true →
  nonce_of c ≠ [] →
  unseal AES_GCM (derived (master_key self) path)
    (nonce_of c) (ciphertext_of c) (tag_of c) = None →
  ∃ self' w1 w',
    decrypt_file_try path (self, w) = (Raise MAC_check_failed, (self', w1)) ∧
    fs w1 = fs w ∧
    trace w1 = (trace w ++ [Aead_decrypt (derived (master_key self) path)
                              (nonce_of c) (ciphertext_of c) (tag_of c)])%list ∧
    decrypt_file path (self, w) = (Ok tt, (self', w')) ∧
    fs w' = fs w ∧
    fs w' !! path = Some (File c mode) ∧
    log w' = (log w ++ [failed_line path MAC_check_failed])%list ∧
    trace w' = (trace w ++ [Call_decrypt_file path;
                            Aead_decrypt (derived (master_key self) path)
                              (nonce_of c) (ciphertext_of c) (tag_of c)])%list.
Proof.
  intros Hp Hc He Hn Hu.
  assert (keyed self path) as Hd by by right.
  assert (key_for self path = derived (master_key self) path) as Hk
    by by apply key_for_consistent.
  assert (key_ok AES_GCM (key_for self path) = true) as Hkey
    by (rewrite Hk; apply derived_key_ok).
  assert (nonce_ok AES_GCM (nonce_of c) = true) as Hnonce
    by by apply bool_decide_eq_true.
  rewrite <- Hk in *.
  do 3 eexists. split; [by eapply decrypt_file_try_MAC |].
  split; [done |]. split; [done |]. split.
  { eapply decrypt_file_run_Raise.
    by eapply (decrypt_file_try_MAC path self (add_event (Call_decrypt_file path) w)). }
  split; [done |]. split; [done |]. split; [done |].
  wsimpl. by rewrite <- app_assoc.
Qed.


(** Every container is the concatenation of the three parts that
    [decrypt_file] reads; from 28 bytes on, the nonce has 12 bytes and
    the tag 16. *)
Lemma container_parts (c : bytes) :
  c = (nonce_of c ++ tag_of c ++ ciphertext_of c)%list ∧
  length (nonce_of c) = Nat.min 12 (length c) ∧
  length (tag_of c) = Nat.min 16 (length c - 12) ∧
  ((28 ≤ length c)%nat → length (nonce_of c) = 12%nat ∧ length (tag_of c) = 16%nat).
Proof.
  unfold nonce_of, tag_of, ciphertext_of.
  split; [by rewrite !take_drop |].
  rewrite !length_take, length_drop. repeat split; lia.
Qed.

(** A tag that is not 16 bytes long cannot verify. *)
Lemma short_tag_rejected (key nonce ciphertext tag : bytes) :
  key_ok AES_GCM key = true → nonce_ok AES_GCM nonce = true →
  length tag ≠ 16%nat →
  unseal AES_GCM key nonce ciphertext tag = None.
Proof.
  intros Hk Hn Hlen.
  destruct (unseal AES_GCM key nonce ciphertext tag) as [data|] eqn:Hu; [|done].
  apply unseal_iff in Hu; [|done..].
  destruct (seal_length AES_GCM key nonce data Hk Hn) as [_ Ht].
  rewrite Hu in Ht. done.
Qed.

Lemma short_container_MAC (path : string) (self : CryptoEngine) (w : world)
    (c : bytes) (mode : Z) :
  fs w !! path = Some (File c mode) →
  cache_consistent self →
  encodes path = true →
  c ≠ [] → (length c < 28)%nat →
  decrypt_file_try path (self, w)
    = (Raise MAC_check_failed,
       (cache_after self path,
        add_event (Aead_decrypt (derived (master_key self) path)
                     (nonce_of c) (ciphertext_of c) (tag_of c)) w)).
Proof.
  intros Hp Hc He Hne Hlen.
  assert (keyed self path) as Hd by by right.
  assert (key_for self path = derived (master_key self) path) as Hk
    by by apply key_for_consistent.
  assert (key_ok AES_GCM (key_for self path) = true) as Hkey
    by (rewrite Hk; apply derived_key_ok).
  assert (nonce_ok AES_GCM (nonce_of c) = true) as Hnonce.
  { apply bool_decide_eq_true. unfold nonce_of. by destruct c. }
  rewrite <- Hk. eapply decrypt_file_try_MAC; try done.
  apply short_tag_rejected; try done.
  destruct (container_parts c) as (_ & _ & Ht & _). lia.
Qed.

(** C5, as the code has it: [decrypt_file] checks no length and knows no
    error of its own for a malformed container.  It reads up to 12 bytes
    as nonce, up to 16 as tag and the rest as ciphertext, exactly 12 and 16
    once the container has 28 bytes.  An empty container is refused by
    the cipher constructor; a non-empty container of fewer than 28 bytes
    goes to [decrypt_and_verify] and fails there, with the same MAC error
    as a forged tag.  (The path has an encoding, hence a key.) *)
Theorem decode_without_length_check (path : string) (self : CryptoEngine)
    (w : world) (c : bytes) (mode : Z) :
  fs w !! path = Some (File c mode) →
  cache_consistent self →
  encodes path = true →
  c = (nonce_of c ++ tag_of c ++ ciphertext_of c)%list ∧
  ((28 ≤ length c)%nat →
     nonce_of c = take 12 c ∧ length (nonce_of c) = 12%nat ∧
     tag_of c = take 16 (drop 12 c) ∧ length (tag_of c) = 16%nat ∧
     ciphertext_of c = drop 28 c ∧
     ∃ r self' w',
       decrypt_file_try path (self, w) = (r, (self', w')) ∧
       Aead_decrypt (derived (master_key self) path)
         (take 12 c) (drop 28 c) (take 16 (drop 12 c)) ∈ trace w') ∧
  (c ≠ [] → (length c < 28)%nat →
     ∃ self' w',
       decrypt_file_try path (self, w) = (Raise MAC_check_failed, (self', w')) ∧
       fs w' = fs w ∧
       trace w' = (trace w ++ [Aead_decrypt (derived (master_key self) path)
                                 (nonce_of c) (ciphertext_of c) (tag_of c)])%list) ∧
  (c = [] →
     ∃ self',
       decrypt_file_try path (self, w)
         = (Raise (ValueError "Nonce cannot be empty"), (self', w))).
Proof.
  intros Hp Hc He.
  assert (keyed self path) as Hd by by right.
  assert (key_for self path = derived (master_key self) path) as Hk
    by by apply key_for_consistent.
  assert (key_ok AES_GCM (key_for self path) = true) as Hkey
    by (rewrite Hk; apply derived_key_ok).
  destruct (container_parts c) as (Hparts & Hln & Hlt & Hfull).
  split; [exact Hparts |]. split; [|split].
  - intros Hlen. destruct (Hfull Hlen) as [Hn Ht].
    split; [done |]. split; [done |]. split; [done |]. split; [done |].
    split; [unfold ciphertext_of; by rewrite drop_drop |].
    assert (nonce_ok AES_GCM (nonce_of c) = true) as Hnonce.
    { apply bool_decide_eq_true. intros E. rewrite E in Hn. done. }
    assert (drop 28 c = ciphertext_of c) as ->
      by (unfold ciphertext_of; by rewrite drop_drop).
    fold (nonce_of c) (tag_of c). rewrite <- Hk.
    destruct (unseal AES_GCM (key_for self path) (nonce_of c) (ciphertext_of c)
                (tag_of c)) as [data|] eqn:Hu.
    + destruct (dir_or_not (fs w) (path ++ ".dec")) as [Hdec|Hdec].
      * do 3 eexists. split; [by eapply decrypt_file_try_tmp_dir |].
        wsimpl. apply elem_of_app. right. constructor.
      * do 3 eexists. split; [by eapply decrypt_file_try_Ok |].
        unfold decrypted_world. wsimpl. apply elem_of_app. right. constructor.
    + do 3 eexists. split; [by eapply decrypt_file_try_MAC |].
      wsimpl. apply elem_of_app. right. constructor.
  - intros Hne Hlen. do 2 eexists.
    split; [by eapply short_container_MAC |]. done.
  - intros ->.
    destruct (decrypt_file_try_new_fails path self w [] mode Hp Hd) as (e & E & Hne).
    { rewrite Hkey. reflexivity. }
    rewrite (Hne Hkey) in E. by eexists.
Qed.

End Transforms.

(** A container of five bytes is not refused before decryption: whatever
    the library and the master key, its bytes reach [decrypt_and_verify]
    (five as nonce, none as tag, none as ciphertext), and what is raised
    is that call's MAC error. *)
Lemma short_container_is_decrypted :
  fs demo_world !! "/home/short" = Some (File [x01; x02; x03; x04; x05] 420) ∧
  (length [x01; x02; x03; x04; x05] < 28)%nat ∧
  ∀ (L : CryptoLib) (master : bytes),
    ∃ self',
      @decrypt_file_try L "/home/short" (Engine master ∅, demo_world)
        = (Raise MAC_check_failed,
           (self', add_event (Aead_decrypt (@derived L master "/home/short")
                                [x01; x02; x03; x04; x05] [] []) demo_world)).
Proof.
  split; [reflexivity |]. split; [simpl; lia |].
  intros L master. eexists.
  apply (@short_container_MAC L "/home/short" (Engine master ∅) demo_world
           [x01; x02; x03; x04; x05] 420).
  - reflexivity.
  - apply fresh_engine_consistent.
  - reflexivity.
  - done.
  - simpl. lia.
Qed.

Lemma encrypt_decrypt_roundtrip_witness :
  ∃ self1' w1 nonce tag ciphertext md1 self2' w2 md2,
    @encrypt_file demo_lib "/home/a" (demo_engine, demo_world) = (Ok tt, (self1', w1)) ∧
    @seal demo_lib AES_GCM (@derived demo_lib (master_key demo_engine) "/home/a")
      nonce [x01; x02; x03] = (ciphertext, tag) ∧
    fs w1 !! "/home/a" = Some (File (nonce ++ tag ++ ciphertext) md1) ∧
    log w1 = (log demo_world ++ [encrypted_line "/home/a"])%list ∧
    @decrypt_file demo_lib "/home/a" (demo_engine, w1) = (Ok tt, (self2', w2)) ∧
    @unseal demo_lib AES_GCM (@derived demo_lib (master_key demo_engine) "/home/a")
      nonce ciphertext tag = Some [x01; x02; x03] ∧
    trace w2
    = (trace w1
       ++ [Call_decrypt_file "/home/a";
           Aead_decrypt (@derived demo_lib (master_key demo_engine) "/home/a")
             nonce ciphertext tag;
           Fs_write ("/home/a" ++ ".dec") [x01; x02; x03];
           Fs_remove "/home/a";
           Fs_rename ("/home/a" ++ ".dec") "/home/a"])%list ∧
    fs w2 !! "/home/a" = Some (File [x01; x02; x03] md2) ∧
    log w2 = (log demo_world
              ++ [encrypted_line "/home/a"; decrypted_line "/home/a"])%list.
Proof.
  apply (@encrypt_decrypt_roundtrip demo_lib "/home/a" demo_engine demo_engine
           demo_world [x01; x02; x03] 420).
  - reflexivity.
  - vm_compute. discriminate.
  - vm_compute. discriminate.
  - apply (@fresh_engine_consistent demo_lib).
  - apply (@fresh_engine_consistent demo_lib).
  - reflexivity.
  - reflexivity.
Defined.

Lemma encrypt_container_layout_witness :
  ∃ self' w' nonce tag ciphertext md,
    @encrypt_file demo_lib "/home/empty" (demo_engine, demo_world)
      = (Ok tt, (self', w')) ∧
    nonce = random_bytes demo_world 12 ∧
    @seal demo_lib AES_GCM (@derived demo_lib (master_key demo_engine) "/home/empty")
      nonce [] = (ciphertext, tag) ∧
    fs w' !! "/home/empty" = Some (File (nonce ++ tag ++ ciphertext) md) ∧
    length nonce = 12%nat ∧ length tag = 16%nat ∧
    length ciphertext = length (@nil byte) ∧
    length (nonce ++ tag ++ ciphertext) = (12 + 16 + length (@nil byte))%nat ∧
    (@nil byte = [] →
       length (nonce ++ tag ++ ciphertext) = 28%nat ∧
       (fs demo_world !! ("/home/empty" ++ ".dec") ≠ Some Dir →
        ∃ self'' w'' md',
          @decrypt_file demo_lib "/home/empty" (self', w') = (Ok tt, (self'', w'')) ∧
          fs w'' !! "/home/empty" = Some (File [] md') ∧
          log w'' = (log w' ++ [decrypted_line "/home/empty"])%list)).
Proof.
  apply (@encrypt_container_layout demo_lib "/home/empty" demo_engine demo_world [] 420).
  - reflexivity.
  - vm_compute. discriminate.
  - apply (@fresh_engine_consistent demo_lib).
  - reflexivity.
Defined.

Lemma decrypt_bad_tag_witness :
  ∃ self' w1 w',
    @decrypt_file_try demo_lib "/home/bad" (demo_engine, demo_world)
      = (Raise MAC_check_failed, (self', w1)) ∧
    fs w1 = fs demo_world ∧
    trace w1 = (trace demo_world
                ++ [Aead_decrypt (@derived demo_lib (master_key demo_engine) "/home/bad")
                      (nonce_of bad_container) (ciphertext_of bad_container)
                      (tag_of bad_container)])%list ∧
    @decrypt_file demo_lib "/home/bad" (demo_engine, demo_world) = (Ok tt, (self', w')) ∧
    fs w' = fs demo_world ∧
    fs w' !! "/home/bad" = Some (File bad_container 420) ∧
    log w' = (log demo_world ++ [failed_line "/home/bad" MAC_check_failed])%list ∧
    trace w' = (trace demo_world
                ++ [Call_decrypt_file "/home/bad";
                    Aead_decrypt (@derived demo_lib (master_key demo_engine) "/home/bad")
                      (nonce_of bad_container) (ciphertext_of bad_container)
                      (tag_of bad_container)])%list.
Proof.
  apply (@decrypt_bad_tag demo_lib "/home/bad" demo_engine demo_world bad_container 420).
  - reflexivity.
  - apply (@fresh_engine_consistent demo_lib).
  - reflexivity.
  - vm_compute. discriminate.
  - vm_compute. reflexivity.
Defined.

(** The same container with its tag as sealed does verify: the rejection
    above is due to the flipped bit alone. *)
Example good_tag_verifies :
  @unseal demo_lib AES_GCM (@derived demo_lib (master_key demo_engine) "/home/bad")
    (replicate 12 x01) [x07]
    [x07; x01; x01; x01; x01; x01; x01; x01; x01; x01; x01; x01; x01; x2f; x68; x6f]
  = Some [x07].
Proof. vm_compute. reflexivity. Qed.

Lemma decode_without_length_check_witness :
  [x01; x02; x03; x04; x05]
    = (nonce_of [x01; x02; x03; x04; x05] ++ tag_of [x01; x02; x03; x04; x05]
       ++ ciphertext_of [x01; x02; x03; x04; x05])%list ∧
  ((28 ≤ length [x01; x02; x03; x04; x05])%nat →
     nonce_of [x01; x02; x03; x04; x05] = take 12 [x01; x02; x03; x04; x05] ∧
     length (nonce_of [x01; x02; x03; x04; x05]) = 12%nat ∧
     tag_of [x01; x02; x03; x04; x05] = take 16 (drop 12 [x01; x02; x03; x04; x05]) ∧
     length (tag_of [x01; x02; x03; x04; x05]) = 16%nat ∧
     ciphertext_of [x01; x02; x03; x04; x05] = drop 28 [x01; x02; x03; x04; x05] ∧
     ∃ r self' w',
       @decrypt_file_try demo_lib "/home/short" (demo_engine, demo_world)
         = (r, (self', w')) ∧
       Aead_decrypt (@derived demo_lib (master_key demo_engine) "/home/short")
         (take 12 [x01; x02; x03; x04; x05]) (drop 28 [x01; x02; x03; x04; x05])
         (take 16 (drop 12 [x01; x02; x03; x04; x05])) ∈ trace w') ∧
  ([x01; x02; x03; x04; x05] ≠ [] → (length [x01; x02; x03; x04; x05] < 28)%nat →
     ∃ self' w',
       @decrypt_file_try demo_lib "/home/short" (demo_engine, demo_world)
         = (Raise MAC_check_failed, (self', w')) ∧
       fs w' = fs demo_world ∧
       trace w' = (trace demo_world
                   ++ [Aead_decrypt (@derived demo_lib (master_key demo_engine) "/home/short")
                         (nonce_of [x01; x02; x03; x04; x05])
                         (ciphertext_of [x01; x02; x03; x04; x05])
                         (tag_of [x01; x02; x03; x04; x05])])%list) ∧
  ([x01; x02; x03; x04; x05] = [] →
     ∃ self',
       @decrypt_file_try demo_lib "/home/short" (demo_engine, demo_world)
         = (Raise (ValueError "Nonce cannot be empty"), (self', demo_world))).
Proof.
  apply (@decode_without_length_check demo_lib "/home/short" demo_engine demo_world
           [x01; x02; x03; x04; x05] 420).
  - reflexivity.
  - apply (@fresh_engine_consistent demo_lib).
  - reflexivity.
Defined.

(** ** The walk *)

Section Walk.
Context `{CryptoLib}.

Lemma encrypt_file_fs_step (path : string) (self : CryptoEngine) (w : world) :
  ∃ self' w', encrypt_file path (self, w) = (Ok tt, (self', w')) ∧
    calls (trace w') = (calls (trace w) ++ [Call_encrypt_file path])%list ∧
    fs_step (fs w) (fs w').
Proof.
  destruct (encrypt_file_outcome path self w) as (self' & w' & E & Hc & Hfs).
  exists self', w'. split; [done |]. split; [done |].
  destruct Hfs as [(data & mode & c & md & Hp & Henc & -> & _) | [-> _]].
  - by eapply replaced_fs_step.
  - apply fs_step_refl.
Qed.

(** The inner loop never stops early: every listed file that is eligible
    gets its call of [encrypt_file], in listing order, whatever happened
    to the files before it. *)
Lemma process_filenames_run (dirpath : string) (filenames : list string)
    (self : CryptoEngine) (w : world) :
  ∃ self' w', process_filenames dirpath filenames (self, w) = (Ok tt, (self', w')) ∧
    calls (trace w')
      = (calls (trace w) ++ map Call_encrypt_file (selected (fs w) dirpath filenames))%list ∧
    fs_step (fs w) (fs w').
Proof.
  revert self w. unfold process_filenames, selected.
  induction filenames as [|f fs' IH]; intros self w.
  - exists self, w. cbn. rewrite app_nil_r. split; [done |]. split; [done |].
    apply fs_step_refl.
  - cbn [for_each map List.filter].
    unfold bind at 1. erewrite bind_io_Ok by apply should_encrypt_eligible.
    destruct (eligible (fs w) (os_path_join dirpath f)) eqn:Hel.
    + destruct (encrypt_file_fs_step (os_path_join dirpath f) self w)
        as (self1 & w1 & E1 & Hc1 & Hs1).
      rewrite E1.
      destruct (IH self1 w1) as (self2 & w2 & E2 & Hc2 & Hs2).
      exists self2, w2. split; [done |]. split.
      * rewrite Hc2, Hc1. cbn [map]. rewrite <- app_assoc. cbn [app].
        do 2 f_equal. f_equal. apply List.filter_ext. intros q. apply Hs1.
      * by eapply fs_step_trans.
    + destruct (IH self w) as (self2 & w2 & E2 & Hc2 & Hs2).
      exists self2, w2. done.
Qed.


(** *** Directory entries *)

Lemma strip_prefix_Some (pre s r : string) :
  strip_prefix pre s = Some r → s = pre ++ r.
Proof.
  revert s. induction pre as [|a pre IH]; intros s; cbn [strip_prefix].
  - by intros [= ->].
  - destruct s as [|b s]; [done |].
    destruct (Ascii.eqb_spec a b) as [->|Hne]; [|done].
    intros Hs. rewrite string_app_cons. f_equal. by apply IH.
Qed.

Lemma entry_name_Some (top key name : string) :
  entry_name top key = Some name →
  key = os_path_join top "" ++ name ∧ name ≠ "" ∧ contains_sep name = false.
Proof.
  unfold entry_name.
  destruct (strip_prefix (os_path_join top "") key) as [r|] eqn:Hs; [|done].
  apply strip_prefix_Some in Hs.
  destruct (String.eqb r "" || contains_sep r) eqn:Hr; [done |].
  intros [= <-]. apply orb_false_iff in Hr as [Hr1 Hr2].
  apply String.eqb_neq in Hr1. done.
Qed.

Lemma join_entry (top name : string) :
  contains_sep name = false →
  os_path_join top name = os_path_join top "" ++ name.
Proof.
  intros Hsep. unfold os_path_join.
  assert (startswith name "/" = false) as ->.
  { destruct name as [|c name]; [done |]. cbn [startswith contains_sep] in *.
    apply orb_false_iff in Hsep as [Hc _]. rewrite Ascii.eqb_sym. by rewrite Hc. }
  change (startswith "" "/") with false.
  destruct (String.eqb top "" || endswith top "/").
  - by rewrite string_app_nil_r.
  - by rewrite !string_app_assoc.
Qed.

Lemma join_longer (top name : string) :
  name ≠ "" → contains_sep name = false →
  (String.length top < String.length (os_path_join top name))%nat.
Proof.
  intros Hne Hsep. rewrite join_entry by done. rewrite string_length_app.
  assert (String.length top ≤ String.length (os_path_join top ""))%nat.
  { unfold os_path_join. change (startswith "" "/") with false.
    destruct (String.eqb top "" || endswith top "/");
      rewrite ?string_length_app; lia. }
  destruct name; [done |]. cbn [String.length]. lia.
Qed.

Lemma scandir_elem (m : gmap string node) (top name : string) (n : node) :
  (name, n) ∈ scandir m top →
  m !! os_path_join top name = Some n ∧ name ≠ "" ∧ contains_sep name = false.
Proof.
  unfold scandir. rewrite list_elem_of_omap. intros ([key n'] & Hin & Hname).
  apply elem_of_map_to_list in Hin. cbn [fst snd] in Hname.
  destruct (entry_name top key) as [name'|] eqn:He; [|done].
  injection Hname as -> ->.
  apply entry_name_Some in He as (-> & Hne & Hsep).
  by rewrite join_entry.
Qed.

Lemma subdirs_longer (m : gmap string node) (top d : string) :
  d ∈ subdirs m top →
  (String.length top < String.length (os_path_join top d))%nat.
Proof.
  unfold subdirs. rewrite list_elem_of_fmap. intros ([name n] & -> & Hin).
  apply list_elem_of_filter in Hin as [_ Hin].
  apply scandir_elem in Hin as (_ & Hne & Hsep). by apply join_longer.
Qed.


(** *** The descent *)

Lemma only_encrypt_calls_refl (w w' : world) :
  calls (trace w') = calls (trace w) → only_encrypt_calls w w'.
Proof. intros E. exists []. by rewrite E, app_nil_r. Qed.

Lemma only_encrypt_calls_trans (w1 w2 w3 : world) :
  only_encrypt_calls w1 w2 → only_encrypt_calls w2 w3 → only_encrypt_calls w1 w3.
Proof.
  intros [p1 E1] [p2 E2]. exists (p1 ++ p2)%list.
  by rewrite E2, E1, map_app, app_assoc.
Qed.

Lemma bounded_step (L : nat) (m m' : gmap string node) :
  fs_step m m' → bounded L m → bounded L m'.
Proof. intros (_ & Hs & _) Hb q Hq. by apply Hb, Hs. Qed.

Lemma for_os_walk_S {Σ} (view : Σ → world) (fuel : nat) (top : string)
    (body : string → list string → list string → M Σ unit) (σ : Σ) :
  for_os_walk view (S fuel) top body σ
  = match fs (view σ) !! top with
    | Some Dir =>
        (body top (subdirs (fs (view σ)) top)
           (map fst (filter (fun e => is_dir (snd e) = false)
                       (scandir (fs (view σ)) top))) ;;
         for_each (subdirs (fs (view σ)) top) (fun dirname =>
           for_os_walk view fuel (os_path_join top dirname) body)) σ
    | _ => (Ok tt, σ)
    end.
Proof. reflexivity. Qed.

Lemma walk_children (fuel : nat) (top : string) :
  (∀ top' σ, walk_result (fun L => (L + 2 ≤ fuel + String.length top')%nat ∧ (1 ≤ fuel)%nat)
               σ (for_os_walk snd fuel top' walk_body σ)) →
  ∀ dirs σ,
    walk_result (fun L => (1 ≤ fuel)%nat ∧
                   ∀ d, d ∈ dirs → (L + 2 ≤ fuel + String.length (os_path_join top d))%nat)
      σ (for_each dirs (fun d => for_os_walk snd fuel (os_path_join top d) walk_body) σ).
Proof.
  intros IH. induction dirs as [|d dirs IHd]; intros σ.
  - cbn. split; [apply fs_step_refl |]. split; [by apply only_encrypt_calls_refl |].
    split; [by left | done].
  - cbn [for_each]. unfold bind at 1.
    destruct (IH (os_path_join top d) σ) as (Hs1 & Hc1 & Hr1 & He1).
    destruct (for_os_walk snd fuel (os_path_join top d) walk_body σ) as [r1 σ1].
    cbn [fst snd] in *.
    destruct Hr1 as [-> | ->].
    + destruct (IHd σ1) as (Hs2 & Hc2 & Hr2 & He2).
      split; [by eapply fs_step_trans |].
      split; [by eapply only_encrypt_calls_trans |].
      split; [done |].
      intros L Hb [Hf Hd]. apply (He2 L).
      * by eapply bounded_step.
      * split; [done |]. intros d' Hd'. apply Hd. by right.
    + cbn [fst snd]. split; [done |]. split; [done |]. split; [by right |].
      intros L Hb [Hf Hd]. apply (He1 L Hb). split; [|done]. apply Hd. by left.
Qed.

Lemma walk_spec (fuel : nat) (top : string) (σ : CryptoEngine * world) :
  walk_result (fun L => (L + 2 ≤ fuel + String.length top)%nat ∧ (1 ≤ fuel)%nat)
    σ (for_os_walk snd fuel top walk_body σ).
Proof.
  revert top σ. induction fuel as [|fuel IH]; intros top σ.
  - cbn. split; [apply fs_step_refl |]. split; [by apply only_encrypt_calls_refl |].
    split; [by right |]. intros L _ [_ ?]. lia.
  - rewrite for_os_walk_S.
    destruct (fs σ.2 !! top) as [[data mode|]|] eqn:Htop.
    + cbn. split; [apply fs_step_refl |]. split; [by apply only_encrypt_calls_refl |].
      split; [by left | done].
    + unfold bind at 1. unfold walk_body at 1. destruct σ as [self w].
      destruct (process_filenames_run top
                  (map fst (filter (fun e => is_dir (snd e) = false)
                              (scandir (fs (self, w).2) top))) self w)
        as (self1 & w1 & E1 & Hc1 & Hs1).
      rewrite E1.
      destruct (walk_children fuel top IH (subdirs (fs (self, w).2) top) (self1, w1))
        as (Hs2 & Hc2 & Hr2 & He2).
      cbn [fst snd] in *.
      split; [by eapply fs_step_trans |].
      split; [eapply only_encrypt_calls_trans; [by eexists | done] |].
      split; [done |].
      intros L Hb [Hf _]. apply (He2 L); [by eapply bounded_step |].
      assert (String.length top ≤ L)%nat as Hlen by (apply Hb; by exists Dir).
      split; [lia |]. intros d Hd. apply subdirs_longer in Hd. lia.
    + cbn. split; [apply fs_step_refl |]. split; [by apply only_encrypt_calls_refl |].
      split; [by left | done].
Qed.


(** *** process_filesystem and the entry points *)

Lemma init_outcome (w : world) :
  (fs w !! CONFIG.keystore = Some Dir ∧
   __init__ w = (Raise (IsADirectoryError CONFIG.keystore), w))
  ∨ (∃ crypto w1,
       fs w !! CONFIG.keystore ≠ Some Dir ∧
       __init__ w = (Ok crypto, w1) ∧
       calls (trace w1) = calls (trace w) ∧
       (fs w1 = fs w ∨ ∃ k, fs w1 = <[CONFIG.keystore := File k 384]> (fs w))).
Proof.
  unfold __init__, bind.
  destruct (fs w !! CONFIG.keystore) as [[data mode|]|] eqn:Hk.
  - right. rewrite (init_keystore_existing w data mode Hk).
    do 2 eexists. split; [done |].
    split; [reflexivity |]. split; [done |]. by left.
  - left. by rewrite (init_keystore_dir w Hk).
  - right. destruct (init_keystore_absent w Hk) as (w1 & E & Hfs & _ & Ht).
    rewrite E. do 2 eexists. split; [done |]. split; [reflexivity |]. split.
    + rewrite Ht, calls_app. cbn. by rewrite app_nil_r.
    + right. by eexists.
Qed.

Lemma process_filesystem_spec (fuel : nat) (root : string) (w : world) :
  run_result fuel w (process_filesystem fuel root w).
Proof.
  unfold process_filesystem.
  destruct (init_outcome w) as [[Hd ->] | (crypto & w1 & Hnd & -> & Hc & Hfs)].
  { split; [by apply only_encrypt_calls_refl | done]. }
  pose proof (walk_spec fuel root (crypto, w1)) as (Hs & Hw & Hr & He).
  fold walk_body.
  destruct (for_os_walk snd fuel root walk_body (crypto, w1)) as [r [self' w2]].
  cbn [fst snd] in *. split.
  { eapply only_encrypt_calls_trans; [by apply only_encrypt_calls_refl | done]. }
  intros L Hb Hkl Hk Hfuel.
  assert (bounded L (fs w1)) as Hb1.
  { destruct Hfs as [-> | [k ->]]; [done |].
    intros q. rewrite lookup_insert. case_decide; [by subst | apply Hb]. }
  assert (fs w1 !! CONFIG.keystore ≠ Some Dir) as Hk1.
  { destruct Hfs as [-> | [k ->]]; [done |]. by rewrite lookup_insert_eq. }
  split; [apply (He L Hb1); lia |].
  split; [by eapply bounded_step |].
  destruct Hs as (Hd & _ & _). by rewrite Hd.
Qed.

Lemma run_roots (fuel : nat) (roots : list string) (w : world) :
  run_result fuel w
    (for_each roots (fun root =>
       let* b := os_path_exists root in
       if b then process_filesystem fuel root else ret tt) w).
Proof.
  revert w. induction roots as [|root roots IH]; intros w.
  - cbn. split; [by apply only_encrypt_calls_refl | done].
  - cbn [for_each]. unfold bind at 1. unfold bind at 1, os_path_exists at 1.
    assert (run_result fuel w
              ((if bool_decide (is_Some (fs w !! root))
                then process_filesystem fuel root else ret tt) w)) as [Hc1 He1].
    { case_bool_decide; [apply process_filesystem_spec |].
      split; [by apply only_encrypt_calls_refl | done]. }
    destruct ((if bool_decide (is_Some (fs w !! root))
               then process_filesystem fuel root else ret tt) w) as [r1 w1].
    cbn [fst snd] in *.
    destruct r1 as [[]|e|].
    + destruct (IH w1) as [Hc2 He2]. split.
      { by eapply only_encrypt_calls_trans. }
      intros L Hb Hkl Hk Hfuel.
      destruct (He1 L Hb Hkl Hk Hfuel) as (_ & Hb1 & Hk1). by apply He2.
    + split; [done |]. intros L Hb Hkl Hk Hfuel.
      by destruct (He1 L Hb Hkl Hk Hfuel) as (? & _).
    + split; [done |]. intros L Hb Hkl Hk Hfuel.
      by destruct (He1 L Hb Hkl Hk Hfuel) as (? & _).
Qed.

Lemma lock_system_spec (fuel : nat) (w : world) :
  run_result fuel w (lock_system fuel w).
Proof. apply run_roots. Qed.

(** Every file system has a longest path. *)
Lemma bounded_exists (m : gmap string node) (n : nat) :
  ∃ L, bounded L m ∧ (n ≤ L)%nat.
Proof.
  induction m as [|q x m Hq IH] using map_ind.
  - exists n. split; [|done]. intros q. rewrite lookup_empty. by intros [? ?].
  - destruct IH as (L & Hb & Hn). exists (Nat.max L (String.length q)).
    split; [|lia]. intros q'. rewrite lookup_insert. case_decide.
    + subst. lia.
    + intros Hq'. pose proof (Hb q' Hq'). lia.
Qed.

End Walk.

(** *** Which files a walk reaches *)

Lemma strip_prefix_app (pre r : string) : strip_prefix pre (pre ++ r) = Some r.
Proof.
  induction pre as [|a pre IH]; [done |].
  rewrite string_app_cons. cbn [strip_prefix]. by rewrite Ascii.eqb_refl.
Qed.

Lemma entry_name_join (top name : string) :
  name ≠ "" → contains_sep name = false →
  entry_name top (os_path_join top name) = Some name.
Proof.
  intros Hne Hsep. unfold entry_name. rewrite (join_entry top name) by done.
  rewrite strip_prefix_app, Hsep.
  apply String.eqb_neq in Hne. by rewrite Hne.
Qed.

Lemma scandir_complete (m : gmap string node) (top name : string) (n : node) :
  m !! os_path_join top name = Some n → name ≠ "" → contains_sep name = false →
  (name, n) ∈ scandir m top.
Proof.
  intros Hm Hne Hsep. unfold scandir. apply list_elem_of_omap.
  exists (os_path_join top name, n). split; [by apply elem_of_map_to_list |].
  cbn [fst snd]. by rewrite entry_name_join.
Qed.

Lemma listed_spec (m : gmap string node) (top name : string) (b : bool) :
  name ∈ map fst (filter (fun e => is_dir (snd e) = b) (scandir m top)) ↔
  name ≠ "" ∧ contains_sep name = false ∧
  ∃ n, m !! os_path_join top name = Some n ∧ is_dir n = b.
Proof.
  rewrite list_elem_of_fmap. split.
  - intros ([name' n] & -> & Hin). apply list_elem_of_filter in Hin as [Hd Hin].
    apply scandir_elem in Hin as (Hm & Hne & Hsep). cbn [fst snd] in *.
    split; [done |]. split; [done |]. by exists n.
  - intros (Hne & Hsep & n & Hm & Hd). exists (name, n). split; [done |].
    apply list_elem_of_filter. split; [done | by apply scandir_complete].
Qed.

Lemma subdirs_spec (m : gmap string node) (top name : string) :
  name ∈ subdirs m top ↔
  name ≠ "" ∧ contains_sep name = false ∧ m !! os_path_join top name = Some Dir.
Proof.
  unfold subdirs. rewrite listed_spec. split.
  - intros (Hne & Hsep & n & Hm & Hd). destruct n; [done |]. by repeat split.
  - intros (Hne & Hsep & Hm). repeat split; try done. by exists Dir.
Qed.

Lemma eligible_file (m : gmap string node) (q : string) :
  eligible m q = true → ∃ data mode, m !! q = Some (File data mode).
Proof.
  unfold eligible, isfile. intros He. apply andb_true_iff in He as [_ He].
  destruct (m !! q) as [[data mode|]|]; [by exists data, mode | done | done].
Qed.

(** The inner loop calls [encrypt_file] on the eligible entries of the
    directory, and on nothing else. *)
Lemma selected_spec (m : gmap string node) (top q : string) :
  q ∈ selected m top (map fst (filter (fun e => is_dir (snd e) = false) (scandir m top)))
  ↔ eligible m q = true ∧
    ∃ name, name ≠ "" ∧ contains_sep name = false ∧ q = os_path_join top name.
Proof.
  unfold selected. rewrite list_elem_of_In, List.filter_In, in_map_iff. split.
  - intros [(name & <- & Hin) He]. split; [done |].
    apply list_elem_of_In, listed_spec in Hin as (Hne & Hsep & _). by exists name.
  - intros (He & name & Hne & Hsep & ->). split; [|done].
    exists name. split; [done |]. apply list_elem_of_In, listed_spec.
    destruct (eligible_file m _ He) as (data & mode & Hm).
    split; [done |]. split; [done |]. by eexists.
Qed.

Lemma walked_dir (m : gmap string node) (top d : string) :
  walked m top d → m !! top = Some Dir.
Proof. by destruct 1. Qed.

Lemma same_shape_refl (m : gmap string node) : same_shape m m.
Proof. by split. Qed.

Lemma same_shape_trans (m1 m2 m3 : gmap string node) :
  same_shape m1 m2 → same_shape m2 m3 → same_shape m1 m3.
Proof.
  intros [D1 E1] [D2 E2]. split.
  - intros q. rewrite D2. apply D1.
  - intros q. by rewrite E2, E1.
Qed.

Lemma fs_step_shape (m m' : gmap string node) : fs_step m m' → same_shape m m'.
Proof. intros (D & _ & E). by split. Qed.

Lemma walked_shape (m m' : gmap string node) (top d : string) :
  same_shape m m' → walked m top d → walked m' top d.
Proof.
  intros [D _]. induction 1 as [top Ht | top name d Ht Hne Hsep Hw IH].
  - apply walked_top. by apply D.
  - eapply walked_sub; try done. by apply D.
Qed.

Lemma same_shape_sym (m m' : gmap string node) : same_shape m m' → same_shape m' m.
Proof.
  intros [D E]. split; [intros q; symmetry; apply D | intros q; by rewrite E].
Qed.

Lemma to_encrypt_shape (m m' : gmap string node) (top q : string) :
  same_shape m m' → to_encrypt m top q ↔ to_encrypt m' top q.
Proof.
  assert (∀ m m', same_shape m m' → to_encrypt m top q → to_encrypt m' top q) as Hone.
  { clear. intros m m' S (He & d & name & Hw & Hne & Hsep & ->).
    split; [destruct S as [_ E]; by rewrite E |].
    exists d, name. split; [by eapply walked_shape | done]. }
  intros S. split; apply Hone; [done | by apply same_shape_sym].
Qed.

(** The files to encrypt below [top] are the eligible entries of [top]
    and the files to encrypt below its subdirectories. *)
Lemma to_encrypt_unfold (m : gmap string node) (top q : string) :
  to_encrypt m top q ↔
  m !! top = Some Dir ∧
  ((eligible m q = true ∧
    ∃ name, name ≠ "" ∧ contains_sep name = false ∧ q = os_path_join top name)
   ∨ ∃ name, name ∈ subdirs m top ∧ to_encrypt m (os_path_join top name) q).
Proof.
  split.
  - intros (He & d & name & Hw & Hne & Hsep & ->).
    split; [by eapply walked_dir |].
    destruct Hw as [top Ht | top name0 d Ht Hne0 Hsep0 Hw].
    + left. split; [done |]. by exists name.
    + right. exists name0. split.
      * apply subdirs_spec. repeat split; try done. by eapply walked_dir.
      * split; [done |]. by exists d, name.
  - intros [Ht [(He & name & Hne & Hsep & ->) | (name & Hin & He & d & nm & Hw & ?)]].
    + split; [done |]. exists top, name. split; [by apply walked_top | done].
    + split; [done |]. exists d, nm. split; [|done].
      apply subdirs_spec in Hin as (Hne & Hsep & _). by eapply walked_sub.
Qed.

Lemma not_dir_nothing_to_encrypt (m : gmap string node) (top q : string) :
  m !! top ≠ Some Dir → ¬ to_encrypt m top q.
Proof. intros Ht (_ & d & name & Hw & _). by apply walked_dir in Hw. Qed.

(** **** No file is reached twice *)

Lemma NoDup_omap_strong {A B} (f : A → option B) (l : list A) :
  (∀ x y z, x ∈ l → y ∈ l → f x = Some z → f y = Some z → x = y) →
  NoDup l → NoDup (omap f l).
Proof.
  intros Hinj. induction 1 as [|x l Hx Hl IH]; [constructor |].
  cbn [omap list_omap]. destruct (f x) as [z|] eqn:Hfx.
  - constructor.
    + intros Hz. apply list_elem_of_omap in Hz as (y & Hy & Hfy).
      apply Hx. rewrite (Hinj x y z); [done | by left | by right | done | done].
    + apply IH. intros ? ? ? ? ?. apply Hinj; by right.
  - apply IH. intros ? ? ? ? ?. apply Hinj; by right.
Qed.

Lemma scandir_NoDup (m : gmap string node) (top : string) : NoDup (scandir m top).
Proof.
  unfold scandir. apply NoDup_omap_strong; [|apply NoDup_map_to_list].
  intros [k1 n1] [k2 n2] [name n] _ _ H1 H2. cbn [fst snd] in *.
  destruct (entry_name top k1) as [a|] eqn:E1; [|done].
  destruct (entry_name top k2) as [b|] eqn:E2; [|done].
  injection H1 as -> ->. injection H2 as -> ->.
  apply entry_name_Some in E1 as (-> & _). by apply entry_name_Some in E2 as (-> & _).
Qed.

Lemma listed_NoDup (m : gmap string node) (top : string) (b : bool) :
  NoDup (map fst (filter (fun e => is_dir (snd e) = b) (scandir m top))).
Proof.
  apply NoDup_fmap_2_strong; [|apply NoDup_filter, scandir_NoDup].
  intros [a n1] [a' n2] H1 H2 E. cbn [fst] in E. subst a'.
  apply list_elem_of_filter in H1 as [_ H1]. apply list_elem_of_filter in H2 as [_ H2].
  apply scandir_elem in H1 as (H1 & _). apply scandir_elem in H2 as (H2 & _).
  congruence.
Qed.

Lemma join_inj (top a b : string) :
  contains_sep a = false → contains_sep b = false →
  os_path_join top a = os_path_join top b → a = b.
Proof.
  intros Ha Hb. rewrite (join_entry top a Ha), (join_entry top b Hb).
  apply (inj (String.app _)).
Qed.

Lemma NoDup_List_filter {A} (f : A → bool) (l : list A) :
  NoDup l → NoDup (List.filter f l).
Proof.
  induction 1 as [|x l Hx Hl IH]; [constructor |]. cbn [List.filter].
  destruct (f x); [|done]. constructor; [|done].
  intros Hin. apply Hx. apply list_elem_of_In in Hin.
  apply List.filter_In in Hin as [Hin _]. by apply list_elem_of_In.
Qed.

Lemma selected_NoDup (m : gmap string node) (top : string) :
  NoDup (selected m top
           (map fst (filter (fun e => is_dir (snd e) = false) (scandir m top)))).
Proof.
  unfold selected. apply NoDup_List_filter.
  apply NoDup_fmap_2_strong; [|apply listed_NoDup].
  intros a b Ha Hb. apply listed_spec in Ha as (_ & Ha & _).
  apply listed_spec in Hb as (_ & Hb & _). by apply join_inj.
Qed.

Lemma contains_sep_app (a b : string) :
  contains_sep (a ++ b) = contains_sep a || contains_sep b.
Proof.
  induction a as [|c a IH]; [done |].
  rewrite string_app_cons. cbn [contains_sep]. by rewrite IH, orb_assoc.
Qed.

Lemma endswith_sep_app (a d : string) :
  d ≠ "" → endswith (a ++ d) "/" = endswith d "/".
Proof.
  intros Hd. induction a as [|c a IH]; [done |].
  rewrite string_app_cons, endswith_cons, IH.
  assert (String.eqb (String c (a ++ d)) "/" = false) as ->; [|done].
  apply String.eqb_neq. intros E. injection E as _ E.
  destruct a; [by destruct d | done].
Qed.

Lemma endswith_sep_contains (s : string) :
  endswith s "/" = true → contains_sep s = true.
Proof.
  induction s as [|c s IH]; [done |].
  rewrite endswith_cons. cbn [contains_sep]. intros [E | E]%orb_true_iff.
  - apply String.eqb_eq in E. injection E as -> _. done.
  - rewrite IH by done. apply orb_true_r.
Qed.

(** The directory [d] of [top] is listed under the prefix of [top],
    followed by [d] and a separator. *)
Lemma join_dir (top d : string) :
  d ≠ "" → contains_sep d = false →
  os_path_join (os_path_join top d) "" = os_path_join top "" ++ d ++ "/".
Proof.
  intros Hne Hsep. rewrite (join_entry top d Hsep).
  unfold os_path_join at 1. change (startswith "" "/") with false.
  assert (String.eqb (os_path_join top "" ++ d) "" = false) as ->.
  { apply String.eqb_neq. intros E. apply (f_equal String.length) in E.
    rewrite string_length_app in E. destruct d; [done | cbn in E; lia]. }
  assert (endswith (os_path_join top "" ++ d) "/" = false) as ->.
  { rewrite endswith_sep_app by done. apply not_true_is_false. intros E.
    apply endswith_sep_contains in E. congruence. }
  cbn [orb]. by rewrite string_app_assoc.
Qed.

Lemma walked_prefix (m : gmap string node) (top d name : string) :
  walked m top d → contains_sep name = false →
  ∃ r, os_path_join d name = os_path_join top "" ++ r.
Proof.
  intros Hw Hsep. induction Hw as [top Ht | top name0 d Ht Hne0 Hsep0 Hw IH].
  - exists name. by apply join_entry.
  - destruct IH as [r ->]. rewrite (join_dir top name0) by done.
    exists (name0 ++ "/" ++ r). by rewrite !string_app_assoc.
Qed.

Lemma to_encrypt_prefix (m : gmap string node) (top q : string) :
  to_encrypt m top q → ∃ r, q = os_path_join top "" ++ r.
Proof. intros (_ & d & name & Hw & _ & Hsep & ->). by eapply walked_prefix. Qed.

Lemma to_encrypt_below (m : gmap string node) (top d q : string) :
  d ≠ "" → contains_sep d = false →
  to_encrypt m (os_path_join top d) q →
  ∃ r, q = os_path_join top "" ++ d ++ "/" ++ r.
Proof.
  intros Hne Hsep [r ->]%to_encrypt_prefix. exists r.
  rewrite (join_dir top d) by done. by rewrite !string_app_assoc.
Qed.

Lemma sep_split (a b r r' : string) :
  contains_sep a = false → contains_sep b = false →
  a ++ "/" ++ r = b ++ "/" ++ r' → a = b.
Proof.
  revert b. induction a as [|x a IH]; intros [|y b] Ha Hb E; try done.
  - rewrite string_app_nil_l, !string_app_cons in E. injection E as <- _.
    cbn [contains_sep] in Hb. by rewrite Ascii.eqb_refl in Hb.
  - rewrite string_app_nil_l, !string_app_cons in E. injection E as -> _.
    cbn [contains_sep] in Ha. by rewrite Ascii.eqb_refl in Ha.
  - rewrite !string_app_cons in E. injection E as -> E.
    cbn [contains_sep] in Ha, Hb.
    apply orb_false_iff in Ha as [_ Ha]. apply orb_false_iff in Hb as [_ Hb].
    f_equal. by apply IH.
Qed.

(** An entry of [top] is not below a subdirectory of [top], and two
    subdirectories have nothing below them in common. *)
Lemma entry_not_below (m : gmap string node) (top d name : string) :
  d ≠ "" → contains_sep d = false → contains_sep name = false →
  ¬ to_encrypt m (os_path_join top d) (os_path_join top name).
Proof.
  intros Hne Hsep Hname [r E]%to_encrypt_below; [|done..].
  rewrite (join_entry top name Hname) in E. apply (inj (String.app _)) in E.
  subst name. rewrite !contains_sep_app in Hname. cbn in Hname.
  by rewrite orb_true_r in Hname.
Qed.

Lemma below_one_dir (m m' : gmap string node) (top d d' q : string) :
  d ≠ "" → contains_sep d = false → d' ≠ "" → contains_sep d' = false →
  to_encrypt m (os_path_join top d) q → to_encrypt m' (os_path_join top d') q →
  d = d'.
Proof.
  intros Hne Hsep Hne' Hsep' [r ->]%to_encrypt_below [r' E]%to_encrypt_below; try done.
  apply (inj (String.app _)) in E. by eapply sep_split.
Qed.

Lemma apart_clash (m m' : gmap string node) (r r' q : string) :
  negb (startswith (os_path_join r "") (os_path_join r' ""))
  && negb (startswith (os_path_join r' "") (os_path_join r "")) = true →
  to_encrypt m r q → ¬ to_encrypt m' r' q.
Proof.
  intros Ha [a ->]%to_encrypt_prefix [b E]%to_encrypt_prefix.
  assert (startswith (os_path_join r "" ++ a) (os_path_join r "") = true) as H1
    by apply startswith_app, startswith_refl.
  assert (startswith (os_path_join r "" ++ a) (os_path_join r' "") = true) as H2
    by (rewrite E; apply startswith_app, startswith_refl).
  destruct (startswith_comparable _ _ _ H1 H2) as [C | C]; rewrite C in Ha;
    by rewrite ?andb_false_r in Ha.
Qed.

Section Visits.
Context `{CryptoLib}.

Lemma walk_children_visits (fuel : nat) (top : string) :
  (∀ top' self w self' w',
     for_os_walk snd fuel top' walk_body (self, w) = (Ok tt, (self', w')) →
     ∃ paths, calls (trace w') = (calls (trace w) ++ map Call_encrypt_file paths)%list ∧
              NoDup paths ∧ ∀ q, q ∈ paths ↔ to_encrypt (fs w) top' q) →
  ∀ dirs self w self' w',
    NoDup dirs → Forall (fun d => d ≠ "" ∧ contains_sep d = false) dirs →
    for_each dirs (fun d => for_os_walk snd fuel (os_path_join top d) walk_body) (self, w)
      = (Ok tt, (self', w')) →
    ∃ paths, calls (trace w') = (calls (trace w) ++ map Call_encrypt_file paths)%list ∧
             NoDup paths ∧
             ∀ q, q ∈ paths ↔ ∃ d, d ∈ dirs ∧ to_encrypt (fs w) (os_path_join top d) q.
Proof.
  intros IH. induction dirs as [|d dirs IHd]; intros self w self' w' Hnd Hdirs E.
  - cbn in E. injection E as <- <-. exists []. cbn. rewrite app_nil_r.
    split; [done |]. split; [constructor |].
    intros q. split; [by intros ?%elem_of_nil |].
    by intros (d & ?%elem_of_nil & _).
  - cbn [for_each] in E. unfold bind at 1 in E.
    apply NoDup_cons in Hnd as [Hd Hnd].
    apply Forall_cons in Hdirs as [[Hne Hsep] Hdirs].
    pose proof (walk_spec fuel (os_path_join top d) (self, w)) as (Hs1 & _).
    destruct (for_os_walk snd fuel (os_path_join top d) walk_body (self, w))
      as [[[]|e|] [self1 w1]] eqn:E1; [|done..].
    cbn [fst snd] in Hs1.
    destruct (IH _ _ _ _ _ E1) as (p1 & C1 & N1 & M1).
    destruct (IHd _ _ _ _ Hnd Hdirs E) as (p2 & C2 & N2 & M2).
    exists (p1 ++ p2)%list. split; [by rewrite C2, C1, map_app, app_assoc |].
    split.
    { apply NoDup_app. split; [done |]. split; [|done].
      intros q Hq1 Hq2. apply M1 in Hq1. apply M2 in Hq2 as (d' & Hd' & Hq2).
      rewrite Forall_forall in Hdirs. destruct (Hdirs d' Hd') as [Hne' Hsep'].
      by rewrite (below_one_dir _ _ top d d' q Hne Hsep Hne' Hsep' Hq1 Hq2) in Hd. }
    intros q. rewrite elem_of_app, M1, M2. split.
    + intros [Hq | (d' & Hd' & Hq)].
      * exists d. split; [by left | done].
      * exists d'. split; [by right |].
        by apply (to_encrypt_shape (fs w) (fs w1)); [apply fs_step_shape |].
    + intros (d' & Hd' & Hq). apply elem_of_cons in Hd' as [-> | Hd']; [by left |].
      right. exists d'. split; [done |].
      by apply (to_encrypt_shape (fs w) (fs w1)); [apply fs_step_shape |].
Qed.

(** A walk that returns has called [encrypt_file] once on each of the
    files to encrypt below [top], as they were when it began, and on
    nothing else. *)
Lemma walk_visits (fuel : nat) (top : string) (self : CryptoEngine) (w : world)
    (self' : CryptoEngine) (w' : world) :
  for_os_walk snd fuel top walk_body (self, w) = (Ok tt, (self', w')) →
  ∃ paths, calls (trace w') = (calls (trace w) ++ map Call_encrypt_file paths)%list ∧
           NoDup paths ∧ ∀ q, q ∈ paths ↔ to_encrypt (fs w) top q.
Proof.
  revert top self w self' w'. induction fuel as [|fuel IH]; intros top self w self' w' E.
  { done. }
  rewrite for_os_walk_S in E. cbn [snd] in E.
  destruct (fs w !! top) as [[data mode|]|] eqn:Htop.
  - injection E as <- <-. exists []. cbn. rewrite app_nil_r. split; [done |].
    split; [constructor |].
    intros q. split; [by intros ?%elem_of_nil |].
    intros Hq. exfalso. eapply not_dir_nothing_to_encrypt; [|exact Hq]. by rewrite Htop.
  - unfold bind at 1 in E. unfold walk_body at 1 in E.
    destruct (process_filenames_run top
                (map fst (filter (fun e => is_dir (snd e) = false) (scandir (fs w) top)))
                self w) as (self1 & w1 & E1 & C1 & Hs1).
    rewrite E1 in E.
    assert (Forall (fun d => d ≠ "" ∧ contains_sep d = false) (subdirs (fs w) top))
      as Hdirs.
    { apply Forall_forall. intros d Hd. by apply subdirs_spec in Hd as (? & ? & _). }
    destruct (walk_children_visits fuel top IH _ _ _ _ _ (listed_NoDup _ _ true) Hdirs E)
      as (p2 & C2 & N2 & M2).
    eexists (_ ++ p2)%list. split; [by rewrite C2, C1, map_app, app_assoc |].
    split.
    { apply NoDup_app. split; [apply selected_NoDup |]. split; [|done].
      intros q Hq1 Hq2. apply selected_spec in Hq1 as (_ & name & _ & Hname & ->).
      apply M2 in Hq2 as (d & Hd & Hq2). rewrite Forall_forall in Hdirs.
      destruct (Hdirs d Hd) as [Hne Hsep].
      by apply (entry_not_below (fs w1) top d name). }
    intros q. rewrite elem_of_app, selected_spec, M2, to_encrypt_unfold.
    split.
    + intros [Hq | (d & Hd & Hq)]; (split; [done |]); [by left | right].
      exists d. split; [done |].
      by apply (to_encrypt_shape (fs w) (fs w1)); [apply fs_step_shape |].
    + intros [_ [Hq | (d & Hd & Hq)]]; [by left | right].
      exists d. split; [done |].
      by apply (to_encrypt_shape (fs w) (fs w1)); [apply fs_step_shape |].
  - injection E as <- <-. exists []. cbn. rewrite app_nil_r. split; [done |].
    split; [constructor |].
    intros q. split; [by intros ?%elem_of_nil |].
    intros Hq. exfalso. eapply not_dir_nothing_to_encrypt; [|exact Hq]. by rewrite Htop.
Qed.

Lemma keystore_not_eligible (m : gmap string node) : eligible m CONFIG.keystore = false.
Proof. reflexivity. Qed.

Lemma init_shape (w w1 : world) :
  fs w !! CONFIG.keystore ≠ Some Dir →
  (fs w1 = fs w ∨ ∃ k, fs w1 = <[CONFIG.keystore := File k 384]> (fs w)) →
  same_shape (fs w) (fs w1).
Proof.
  intros Hk [-> | [k ->]]; [apply same_shape_refl |]. split.
  - intros q. rewrite lookup_insert. case_decide; [|done]. subst q.
    split; [done | by intros ?].
  - intros q. destruct (decide (q = CONFIG.keystore)) as [-> | Hq].
    + by rewrite !keystore_not_eligible.
    + unfold eligible, isfile. by rewrite lookup_insert_ne.
Qed.

Lemma process_filesystem_shape (fuel : nat) (root : string) (w : world) :
  same_shape (fs w) (fs (snd (process_filesystem fuel root w))).
Proof.
  unfold process_filesystem.
  destruct (init_outcome w) as [[Hd ->] | (crypto & w1 & Hnd & -> & Hc & Hfs)].
  { apply same_shape_refl. }
  pose proof (walk_spec fuel root (crypto, w1)) as (Hs & _).
  fold walk_body.
  destruct (for_os_walk snd fuel root walk_body (crypto, w1)) as [r [self' w2]].
  cbn [fst snd] in *.
  eapply same_shape_trans; [by apply init_shape | by apply fs_step_shape].
Qed.

Lemma process_filesystem_visits (fuel : nat) (root : string) (w w' : world) :
  process_filesystem fuel root w = (Ok tt, w') →
  ∃ paths, calls (trace w') = (calls (trace w) ++ map Call_encrypt_file paths)%list ∧
           NoDup paths ∧ ∀ q, q ∈ paths ↔ to_encrypt (fs w) root q.
Proof.
  unfold process_filesystem. intros E.
  destruct (init_outcome w) as [[Hd Hi] | (crypto & w1 & Hnd & Hi & Hc & Hfs)];
    rewrite Hi in E; [done |].
  fold walk_body in E.
  destruct (for_os_walk snd fuel root walk_body (crypto, w1)) as [r [self' w2]] eqn:Ew.
  injection E as -> ->.
  destruct (walk_visits _ _ _ _ _ _ Ew) as (paths & C & N & M).
  exists paths. split; [by rewrite C, Hc |]. split; [done |].
  intros q. rewrite M. symmetry. apply to_encrypt_shape. by apply init_shape.
Qed.

Lemma roots_step (fuel : nat) (r : string) (rs : list string) (w : world) :
  for_each (r :: rs) (fun root =>
    let* b := os_path_exists root in
    if b then process_filesystem fuel root else ret tt) w
  = if bool_decide (is_Some (fs w !! r))
    then bind (process_filesystem fuel r)
           (fun _ => for_each rs (fun root =>
              let* b := os_path_exists root in
              if b then process_filesystem fuel root else ret tt)) w
    else for_each rs (fun root =>
           let* b := os_path_exists root in
           if b then process_filesystem fuel root else ret tt) w.
Proof.
  cbn [for_each]. unfold bind at 1. unfold bind at 1, os_path_exists at 1.
  by case_bool_decide.
Qed.

(** A run over [roots] that returns has called [encrypt_file] once on
    each of the files to encrypt below each root, and on nothing else. *)
Lemma roots_visits (fuel : nat) (roots : list string) (w w' : world) :
  apart roots = true →
  for_each roots (fun root =>
    let* b := os_path_exists root in
    if b then process_filesystem fuel root else ret tt) w = (Ok tt, w') →
  ∃ paths, calls (trace w') = (calls (trace w) ++ map Call_encrypt_file paths)%list ∧
           NoDup paths ∧
           ∀ q, q ∈ paths ↔ ∃ root, root ∈ roots ∧ to_encrypt (fs w) root q.
Proof.
  revert w. induction roots as [|r rs IH]; intros w Ha E.
  - cbn in E. injection E as <-. exists []. cbn. rewrite app_nil_r. split; [done |].
    split; [constructor |].
    intros q. split; [by intros ?%elem_of_nil | by intros (? & ?%elem_of_nil & _)].
  - cbn [apart] in Ha. apply andb_true_iff in Ha as [Hr Ha].
    rewrite forallb_forall in Hr.
    rewrite roots_step in E. case_bool_decide as Hex.
    + unfold bind in E. pose proof (process_filesystem_shape fuel r w) as S.
      destruct (process_filesystem fuel r w) as [[[]|e|] w1] eqn:E1; [|done..].
      cbn [snd] in S.
      destruct (process_filesystem_visits _ _ _ _ E1) as (p1 & C1 & N1 & M1).
      destruct (IH _ Ha E) as (p2 & C2 & N2 & M2).
      exists (p1 ++ p2)%list. split; [by rewrite C2, C1, map_app, app_assoc |].
      split.
      { apply NoDup_app. split; [done |]. split; [|done].
        intros q Hq1 Hq2. apply M1 in Hq1. apply M2 in Hq2 as (r' & Hr' & Hq2).
        apply list_elem_of_In in Hr'.
        by apply (apart_clash (fs w) (fs w1) r r' q (Hr r' Hr') Hq1). }
      intros q. rewrite elem_of_app, M1, M2. split.
      * intros [Hq | (r' & Hr' & Hq)].
        -- exists r. split; [by left | done].
        -- exists r'. split; [by right |]. by apply (to_encrypt_shape (fs w) (fs w1)).
      * intros (r' & Hr' & Hq). apply elem_of_cons in Hr' as [-> | Hr']; [by left |].
        right. exists r'. split; [done |]. by apply (to_encrypt_shape (fs w) (fs w1)).
    + destruct (IH _ Ha E) as (p2 & C2 & N2 & M2). exists p2. split; [done |].
      split; [done |].
      intros q. rewrite M2. split.
      * intros (r' & Hr' & Hq). exists r'. split; [by right | done].
      * intros (r' & Hr' & Hq). apply elem_of_cons in Hr' as [-> | Hr'].
        -- exfalso. eapply not_dir_nothing_to_encrypt; [|exact Hq].
           intros Hd. apply Hex. by rewrite Hd.
        -- by exists r'.
Qed.

End Visits.

(** *** What a run accounts for *)

Lemma names_in_app (P : string → Prop) (e1 e2 : list event) :
  names_in P e1 → names_in P e2 → names_in P (e1 ++ e2).
Proof. apply Forall_app_2. Qed.

Lemma names_in_impl (P Q : string → Prop) (evs : list event) :
  (∀ p, P p → Q p) → names_in P evs → names_in Q evs.
Proof.
  intros HPQ N. eapply Forall_impl; [exact N |]. intros ev Hev.
  eapply Forall_impl; [exact Hev | exact HPQ].
Qed.

Lemma untouched_outside_refl (pre : string) (m : gmap string node) :
  untouched_outside pre m m.
Proof. by intros q _. Qed.

Lemma accounted_refl (pre : string) (w w' : world) :
  fs w' = fs w → trace w' = trace w → log w' = log w →
  accounted pre w w'.
Proof.
  intros Hf Ht Hl. split; [intros q _; by rewrite Hf |]. split.
  - exists [], []. rewrite Ht, Hl, !app_nil_r. by repeat split.
  - exists []. rewrite Ht, app_nil_r. split; [done | constructor].
Qed.

Lemma accounted_trans (pre : string) (w1 w2 w3 : world) :
  accounted pre w1 w2 → accounted pre w2 w3 → accounted pre w1 w3.
Proof.
  intros (F1 & (p1 & l1 & C1 & L1 & R1 & P1) & e1 & T1 & N1)
         (F2 & (p2 & l2 & C2 & L2 & R2 & P2) & e2 & T2 & N2).
  split; [intros q Hq; rewrite F2, F1; done |]. split.
  - exists (p1 ++ p2)%list, (l1 ++ l2)%list.
    rewrite C2, C1, L2, L1, map_app, !app_assoc.
    split; [done |]. split; [done |].
    split; [by apply Forall2_app | by apply Forall_app].
  - exists (e1 ++ e2)%list. rewrite T2, T1, app_assoc.
    split; [done | by apply names_in_app].
Qed.

Lemma accounted_weaken (pre pre' : string) (w w' : world) :
  startswith pre' pre = true → accounted pre' w w' → accounted pre w w'.
Proof.
  intros Hpre (F & (ps & ls & C & L & R & P) & evs & T & N). split; [|split].
  - intros q Hq. apply F. destruct (startswith q pre') eqn:E; [|done].
    by rewrite (startswith_trans q pre' pre E Hpre) in Hq.
  - exists ps, ls. repeat split; try done.
    eapply Forall_impl; [exact P |]. intros p [Hp ?]. split; [|done].
    by eapply startswith_trans.
  - exists evs. split; [done |]. eapply names_in_impl; [|exact N].
    intros p Hp. cbv beta in Hp. by eapply startswith_trans.
Qed.

Lemma eligible_not_enc (m : gmap string node) (path : string) :
  eligible m path = true → endswith path ".enc" = false.
Proof.
  unfold eligible, any, CONFIG.extensions. cbn [existsb].
  rewrite orb_false_r. intros He.
  apply andb_true_iff in He as [He _]. apply andb_true_iff in He as [_ He].
  by apply negb_true_iff in He.
Qed.

Section Accounting.
Context `{CryptoLib}.

Lemma encrypt_file_accounted (pre path : string) (self : CryptoEngine) (w : world) :
  startswith path pre = true → endswith path ".enc" = false →
  ∃ self' w', encrypt_file path (self, w) = (Ok tt, (self', w')) ∧ accounted pre w w'.
Proof.
  intros Hpre Hsuf.
  destruct (encrypt_file_cases path self w)
    as (self' & w' & evs & E & Ht & Hc & Hn & Hfs).
  exists self', w'. split; [done |].
  assert (∃ l, log w' = (log w ++ [l])%list ∧ line_for path l) as (l & Hl & Hline).
  { destruct Hfs as [(? & ? & ? & ? & _ & _ & _ & Hl) | [_ [e Hl]]].
    - eexists. split; [exact Hl | by left].
    - eexists. split; [exact Hl | right; by exists e]. }
  split; [|split].
  - intros q Hq.
    destruct Hfs as [(data & mode & c & md & _ & _ & -> & _) | [-> _]]; [|done].
    rewrite replaced_lookup.
    rewrite decide_False.
    2:{ intros ->. by rewrite (startswith_app path pre ".enc" Hpre) in Hq. }
    rewrite decide_False; [done |]. intros ->. by rewrite Hpre in Hq.
  - exists [path], [l]. split.
    { rewrite Ht, calls_app. cbn [calls List.filter is_call]. fold (calls evs).
      by rewrite Hc. }
    split; [done |]. split; [by constructor | by constructor].
  - exists (Call_encrypt_file path :: evs). split; [done |].
    constructor; [constructor |]. eapply names_in_impl; [|exact Hn].
    intros p [-> | ->]; [done | by apply startswith_app].
Qed.

Lemma process_filenames_accounted (top : string) (filenames : list string)
    (self : CryptoEngine) (w : world) :
  Forall (fun f => contains_sep f = false) filenames →
  ∃ self' w', process_filenames top filenames (self, w) = (Ok tt, (self', w')) ∧
    accounted (os_path_join top "") w w'.
Proof.
  intros Hnames. revert self w. unfold process_filenames.
  induction Hnames as [|f names Hf Hnames IH]; intros self w.
  - exists self, w. split; [done |]. by apply accounted_refl.
  - cbn [for_each]. unfold bind at 1.
    erewrite bind_io_Ok by apply should_encrypt_eligible.
    destruct (eligible (fs w) (os_path_join top f)) eqn:Hel.
    + destruct (encrypt_file_accounted (os_path_join top "") (os_path_join top f)
                  self w) as (self1 & w1 & E1 & A1).
      { rewrite (join_entry top f Hf). apply startswith_app, startswith_refl. }
      { by apply eligible_not_enc in Hel. }
      rewrite E1. destruct (IH self1 w1) as (self2 & w2 & E2 & A2).
      exists self2, w2. split; [done |]. by eapply accounted_trans.
    + apply IH.
Qed.

Lemma nondirs_names (m : gmap string node) (top : string) (P : string * node → Prop)
    `{∀ e, Decision (P e)} :
  Forall (fun f => f ≠ "" ∧ contains_sep f = false)
    (map fst (filter P (scandir m top))).
Proof.
  apply Forall_forall. intros f Hf.
  apply list_elem_of_fmap in Hf as ([name n] & -> & Hin).
  apply list_elem_of_filter in Hin as [_ Hin].
  by apply scandir_elem in Hin as (_ & ? & ?).
Qed.

Lemma child_prefix (top d : string) :
  contains_sep d = false →
  startswith (os_path_join (os_path_join top d) "") (os_path_join top "") = true.
Proof.
  intros Hd. rewrite (join_entry top d Hd).
  apply (startswith_trans _ (os_path_join top "" ++ d)).
  - unfold os_path_join at 1. change (startswith "" "/") with false.
    destruct (_ || _).
    + rewrite string_app_nil_r. apply startswith_refl.
    + apply startswith_app, startswith_refl.
  - apply startswith_app, startswith_refl.
Qed.

Lemma walk_children_accounted (fuel : nat) (top : string) :
  (∀ top' σ, accounted (os_path_join top' "") (snd σ)
               (snd (snd (for_os_walk snd fuel top' walk_body σ)))) →
  ∀ dirs σ,
    Forall (fun d => d ≠ "" ∧ contains_sep d = false) dirs →
    accounted (os_path_join top "") (snd σ)
      (snd (snd (for_each dirs
                   (fun d => for_os_walk snd fuel (os_path_join top d) walk_body) σ))).
Proof.
  intros IH dirs σ Hdirs. revert σ.
  induction Hdirs as [|d dirs [_ Hd] Hdirs IHd]; intros σ.
  - by apply accounted_refl.
  - cbn [for_each]. unfold bind at 1.
    pose proof (IH (os_path_join top d) σ) as A1.
    apply (accounted_weaken (os_path_join top "")) in A1; [|by apply child_prefix].
    destruct (for_os_walk snd fuel (os_path_join top d) walk_body σ) as [[[]|e|] σ1];
      cbn [fst snd] in *; [|done..].
    eapply accounted_trans; [exact A1 | apply IHd].
Qed.

Lemma walk_accounted (fuel : nat) (top : string) (σ : CryptoEngine * world) :
  accounted (os_path_join top "") (snd σ)
    (snd (snd (for_os_walk snd fuel top walk_body σ))).
Proof.
  revert top σ. induction fuel as [|fuel IH]; intros top σ.
  - by apply accounted_refl.
  - rewrite for_os_walk_S.
    destruct (fs σ.2 !! top) as [[data mode|]|] eqn:Htop;
      [by apply accounted_refl | | by apply accounted_refl].
    unfold bind at 1. unfold walk_body at 1. destruct σ as [self w].
    destruct (process_filenames_accounted top
                (map fst (filter (fun e => is_dir (snd e) = false)
                            (scandir (fs (self, w).2) top))) self w)
      as (self1 & w1 & E1 & A1).
    { eapply Forall_impl; [apply nondirs_names |]. by intros f [_ ?]. }
    rewrite E1. eapply accounted_trans; [exact A1 |].
    apply (walk_children_accounted fuel top IH _ (self1, w1)).
    apply nondirs_names.
Qed.

End Accounting.

Lemma run_accounted_refl (P : string → bool) (w : world) : run_accounted P w w.
Proof.
  split; [done |]. split; [done |]. split.
  - exists [], []. by rewrite !app_nil_r.
  - exists []. rewrite app_nil_r. split; [done | constructor].
Qed.

Lemma run_accounted_trans (P : string → bool) (w1 w2 w3 : world) :
  run_accounted P w1 w2 → run_accounted P w2 w3 → run_accounted P w1 w3.
Proof.
  intros (F1 & K1 & (p1 & l1 & C1 & L1 & R1 & P1) & e1 & T1 & N1)
         (F2 & K2 & (p2 & l2 & C2 & L2 & R2 & P2) & e2 & T2 & N2).
  split; [intros q Hq Hk; by rewrite F2, F1 |].
  split; [intros d md Hd; by apply K2, K1 |]. split.
  - exists (p1 ++ p2)%list, (l1 ++ l2)%list.
    rewrite C2, C1, L2, L1, map_app, !app_assoc.
    split; [done |]. split; [done |].
    split; [by apply Forall2_app | by apply Forall_app].
  - exists (e1 ++ e2)%list. rewrite T2, T1, app_assoc.
    split; [done | by apply names_in_app].
Qed.

Lemma run_accounted_weaken (P P' : string → bool) (w w' : world) :
  (∀ q, P q = true → P' q = true) → run_accounted P w w' → run_accounted P' w w'.
Proof.
  intros HP (F & K & (ps & ls & C & L & R & Hps) & evs & T & N).
  split.
  { intros q Hq. apply F. destruct (P q) eqn:E; [|done]. by rewrite (HP q E) in Hq. }
  split; [done |]. split.
  - exists ps, ls. repeat split; try done.
    eapply Forall_impl; [exact Hps |]. intros p [Hp ?]. split; [by apply HP | done].
  - exists evs. split; [done |]. eapply names_in_impl; [|exact N].
    intros p [Hp | ->]; [left; by apply HP | by right].
Qed.

Section Runs.
Context `{CryptoLib}.

Lemma init_cases (w : world) :
  match fs w !! CONFIG.keystore with
  | Some (File d md) => __init__ w = (Ok (Engine (take 32 d) ∅), w)
  | Some Dir => __init__ w = (Raise (IsADirectoryError CONFIG.keystore), w)
  | None =>
      ∃ w1, __init__ w = (Ok (Engine (fresh_key w) ∅), w1) ∧
        fs w1 = <[CONFIG.keystore := File (fresh_key w) 384]> (fs w) ∧
        log w1 = log w ∧
        trace w1 = (trace w ++ [Fs_write CONFIG.keystore (fresh_key w);
                                Fs_chmod CONFIG.keystore 384])%list
  end.
Proof.
  unfold __init__, bind.
  destruct (fs w !! CONFIG.keystore) as [[d md|]|] eqn:Hk.
  - by rewrite (init_keystore_existing w d md Hk).
  - by rewrite (init_keystore_dir w Hk).
  - destruct (init_keystore_absent w Hk) as (w1 & E & Hfs & Hl & Ht).
    exists w1. by rewrite E.
Qed.

Lemma process_filesystem_accounted (fuel : nat) (root : string) (w : world) :
  startswith CONFIG.keystore (os_path_join root "") = false →
  run_accounted (fun q => startswith q (os_path_join root "")) w
    (snd (process_filesystem fuel root w)) ∧
  keystore_after w (process_filesystem fuel root w).
Proof.
  intros Hks. pose proof (init_cases w) as Hinit.
  unfold process_filesystem, keystore_after. fold walk_body.
  destruct (fs w !! CONFIG.keystore) as [[d md|]|] eqn:Hk.
  - rewrite Hinit.
    pose proof (walk_accounted fuel root (Engine (take 32 d) ∅, w))
      as (F & A & evs & T & N).
    destruct (for_os_walk snd fuel root walk_body _) as [r [self' w2]].
    cbn [fst snd] in *.
    assert (fs w2 !! CONFIG.keystore = Some (File d md)) as Hk2
      by (by rewrite F).
    split; [|done]. split; [intros q Hq _; by apply F |].
    split; [intros d' md' Hd; congruence |]. split; [done |].
    exists evs. split; [done |]. eapply names_in_impl; [|exact N]. by left.
  - rewrite Hinit. split; [apply run_accounted_refl | done].
  - destruct Hinit as (w1 & -> & Hfs & Hl & Ht).
    pose proof (walk_accounted fuel root (Engine (fresh_key w) ∅, w1))
      as (F & (ps & ls & C & L & R & P) & evs & T & N).
    destruct (for_os_walk snd fuel root walk_body _) as [r [self' w2]].
    cbn [fst snd] in *.
    split.
    + split.
      { intros q Hq Hne. rewrite (F q Hq), Hfs. by rewrite lookup_insert_ne. }
      split; [intros d md Hd; congruence |]. split.
      * exists ps, ls. rewrite C, L, Hl, Ht, calls_app. cbn. by rewrite app_nil_r.
      * eexists. rewrite T, Ht, <- app_assoc. split; [done |].
        apply names_in_app.
        -- repeat constructor; by right.
        -- eapply names_in_impl; [|exact N]. by left.
    + rewrite (F _ Hks), Hfs. apply lookup_insert_eq.
Qed.

Lemma roots_accounted (fuel : nat) (roots : list string) (w : world) :
  Forall (fun r => startswith CONFIG.keystore (os_path_join r "") = false) roots →
  run_accounted (within roots) w
    (snd (for_each roots (fun root =>
            let* b := os_path_exists root in
            if b then process_filesystem fuel root else ret tt) w)).
Proof.
  intros Hok. revert w. induction Hok as [|r rs Hr Hok IH]; intros w.
  - apply run_accounted_refl.
  - cbn [for_each]. unfold bind at 1. unfold bind at 1, os_path_exists at 1.
    assert (run_accounted (within (r :: rs)) w
              (snd ((if bool_decide (is_Some (fs w !! r))
                     then process_filesystem fuel r else ret tt) w))) as A1.
    { case_bool_decide; [|apply run_accounted_refl].
      destruct (process_filesystem_accounted fuel r w Hr) as [A _].
      eapply run_accounted_weaken; [|exact A].
      intros q Hq. unfold within. cbn [existsb]. by rewrite Hq. }
    destruct ((if bool_decide (is_Some (fs w !! r))
               then process_filesystem fuel r else ret tt) w) as [[[]|e|] w1];
      cbn [fst snd] in *; [|done..].
    eapply run_accounted_trans; [exact A1 |].
    eapply run_accounted_weaken; [|apply IH].
    intros q Hq. unfold within in *. cbn [existsb]. rewrite Hq. apply orb_true_r.
Qed.

Lemma roots_keystore (fuel : nat) (roots : list string) (w : world) :
  Forall (fun r => startswith CONFIG.keystore (os_path_join r "") = false) roots →
  if some_root_exists roots w
  then keystore_after w
         (for_each roots (fun root =>
            let* b := os_path_exists root in
            if b then process_filesystem fuel root else ret tt) w)
  else for_each roots (fun root =>
         let* b := os_path_exists root in
         if b then process_filesystem fuel root else ret tt) w = (Ok tt, w).
Proof.
  intros Hok. revert w. induction Hok as [|r rs Hr Hok IH]; intros w; [done |].
  rewrite roots_step. cbn [some_root_exists existsb].
  case_bool_decide as Hex; cbn [orb].
  - destruct (process_filesystem_accounted fuel r w Hr) as [_ K].
    pose proof (roots_accounted fuel rs) as A. unfold bind.
    destruct (process_filesystem fuel r w) as [[[]|e|] w1]; [|done..].
    specialize (A w1 Hok) as (_ & KA & _).
    unfold keystore_after in *. cbn [snd] in *.
    destruct (fs w !! CONFIG.keystore) as [[d md|]|]; [by apply KA | done | by apply KA].
  - exact (IH w).
Qed.

End Runs.

Lemma roots_ok :
  Forall (fun r => startswith CONFIG.keystore (os_path_join r "") = false)
    ["/home"; "/var"; "/opt"].
Proof. repeat constructor. Qed.

Lemma within_roots (q : string) : within ["/home"; "/var"; "/opt"] q = under_roots q.
Proof.
  unfold within, under_roots. cbn [existsb].
  change (os_path_join "/home" "") with "/home/".
  change (os_path_join "/var" "") with "/var/".
  change (os_path_join "/opt" "") with "/opt/".
  by rewrite orb_false_r, orb_assoc.
Qed.

(** ** Entry points and error containment *)

Lemma no_new_decrypt_call (w w' : world) (path : string) :
  only_encrypt_calls w w' →
  Call_decrypt_file path ∈ trace w' → Call_decrypt_file path ∈ trace w.
Proof.
  intros [paths E] Hin. apply list_elem_of_In in Hin. apply list_elem_of_In.
  assert (In (Call_decrypt_file path) (calls (trace w'))) as Hc.
  { apply List.filter_In. by split. }
  rewrite E in Hc. apply in_app_iff in Hc as [Hc | Hc].
  - by apply List.filter_In in Hc as [? _].
  - apply in_map_iff in Hc as (p & Hp & _). discriminate.
Qed.

Lemma map_call_inj (l1 l2 : list string) :
  map Call_encrypt_file l1 = map Call_encrypt_file l2 → l1 = l2.
Proof.
  revert l2. induction l1 as [|x l1 IH]; intros [|y l2] E; try done.
  cbn in E. injection E as -> E. f_equal. by apply IH.
Qed.

Lemma roots_apart : apart ["/home"; "/var"; "/opt"] = true.
Proof. reflexivity. Qed.

Section EntryPoints.
Context `{CryptoLib}.

(** With the keystore path not a directory and fuel beyond the longest
    path, a run returns; it has called [encrypt_file] once on each file
    to encrypt below the three roots, on nothing else, and has logged one
    line for each call. *)
Lemma lock_system_run (w : world) :
  fs w !! CONFIG.keystore ≠ Some Dir →
  ∃ enough, ∀ fuel, (enough ≤ fuel)%nat →
    ∃ w' paths lines,
      lock_system fuel w = (Ok tt, w') ∧
      calls (trace w') = (calls (trace w) ++ map Call_encrypt_file paths)%list ∧
      NoDup paths ∧
      (∀ q, q ∈ paths ↔
            ∃ root, root ∈ ["/home"; "/var"; "/opt"] ∧ to_encrypt (fs w) root q) ∧
      log w' = (log w ++ lines)%list ∧
      Forall2 line_for paths lines.
Proof.
  intros Hk.
  destruct (bounded_exists (fs w) (String.length CONFIG.keystore)) as (L & Hb & Hl).
  exists (L + 2)%nat. intros fuel Hfuel.
  destruct (lock_system_spec fuel w) as [_ He].
  destruct (He L Hb Hl Hk Hfuel) as (Hr & _).
  pose proof (roots_accounted fuel ["/home"; "/var"; "/opt"] w roots_ok)
    as (_ & _ & (ps & ls & C & Hlog & R & _) & _).
  fold (lock_system fuel) in C, Hlog.
  destruct (lock_system fuel w) as [r w'] eqn:E. cbn [fst snd] in *. subst r.
  destruct (roots_visits fuel _ w w' roots_apart E) as (paths & C' & N & M).
  assert (ps = paths) as ->.
  { apply map_call_inj. rewrite C in C'. by apply app_inv_head in C'. }
  by exists w', paths, ls.
Qed.

(** C2: [unlock_system] is the same function as [lock_system], and so is
    the whole program whatever its arguments, the flag --unlock
    included.  Both go through [process_filesystem] over the same roots;
    its inner loop calls [encrypt_file] on exactly the listed paths that
    [should_encrypt] accepts; every transform call a run records is a
    call of [encrypt_file], and [decrypt_file] is never called.  A run
    that can open the keystore returns, given fuel beyond the longest
    path, and has then called [encrypt_file] once on each eligible file
    below the three roots (every entry of a root, or of a directory
    reached from it through directories, that [should_encrypt] accepts),
    and on nothing else. *)
Theorem lock_unlock_same (fuel : nat) (argv : list string) (w : world) :
  unlock_system fuel w = lock_system fuel w ∧
  main fuel argv w = lock_system fuel w ∧
  unlock_system fuel w
    = for_each ["/home"; "/var"; "/opt"] (fun root =>
        let* b := os_path_exists root in
        if b then process_filesystem fuel root else ret tt) w ∧
  (∃ paths, calls (trace (snd (unlock_system fuel w)))
            = (calls (trace w) ++ map Call_encrypt_file paths)%list) ∧
  (∀ path, Call_decrypt_file path ∈ trace (snd (unlock_system fuel w)) →
           Call_decrypt_file path ∈ trace w) ∧
  (∀ dirpath filenames self w0,
     ∃ self' w', process_filenames dirpath filenames (self, w0) = (Ok tt, (self', w')) ∧
       calls (trace w')
       = (calls (trace w0)
          ++ map Call_encrypt_file (selected (fs w0) dirpath filenames))%list) ∧
  (fs w !! CONFIG.keystore ≠ Some Dir →
   ∃ enough, ∀ fuel', (enough ≤ fuel')%nat →
     ∃ w' paths,
       unlock_system fuel' w = (Ok tt, w') ∧
       main fuel' argv w = (Ok tt, w') ∧
       calls (trace w') = (calls (trace w) ++ map Call_encrypt_file paths)%list ∧
       NoDup paths ∧
       ∀ q, q ∈ paths ↔
            ∃ root, root ∈ ["/home"; "/var"; "/opt"] ∧ to_encrypt (fs w) root q).
Proof.
  assert (∀ fuel, unlock_system fuel w = lock_system fuel w) as Hsame by reflexivity.
  assert (∀ fuel, main fuel argv w = lock_system fuel w) as Hmain.
  { intros f. unfold main. by destruct (_ && _). }
  split; [apply Hsame |]. split; [apply Hmain |].
  split; [reflexivity |].
  rewrite Hsame. destruct (lock_system_spec fuel w) as [Hc _].
  split; [exact Hc |]. split; [|split].
  - intros path. by apply no_new_decrypt_call.
  - intros dirpath filenames self w0.
    destruct (process_filenames_run dirpath filenames self w0)
      as (self' & w' & E & Hcalls & _).
    by exists self', w'.
  - intros Hk. destruct (lock_system_run w Hk) as (enough & Hrun).
    exists enough. intros fuel' Hfuel.
    destruct (Hrun fuel' Hfuel) as (w' & paths & lines & E & C & N & M & _).
    exists w', paths. by rewrite Hsame, Hmain.
Qed.

(** C9: [encrypt_file] and [decrypt_file] return normally in every
    state; the handler they share turns any exception, whatever its
    kind, into an ERROR line made of the path and the exception's text;
    the loop over the files of a directory goes on to every remaining
    file whatever happened before.  A whole run returns normally once
    the fuel exceeds the longest path, unless the keystore itself cannot
    be opened; every eligible file below the roots has then had its call
    of [encrypt_file], and every call has its line in the log, the INFO
    line or the ERROR line of that path: no failure has kept the walk
    from the files and directories after it. *)
Theorem per_file_errors_contained :
  (∀ path σ, (∃ σ', encrypt_file path σ = (Ok tt, σ')) ∧
             (∃ σ', decrypt_file path σ = (Ok tt, σ'))) ∧
  (∀ (body : M (CryptoEngine * world) unit) path σ e σ1,
     body σ = (Raise e, σ1) →
     try_except body
       (fun e => io (logging_error ("Failed " ++ path ++ ": " ++ str e))) σ
     = (Ok tt, (fst σ1, add_log ERROR ("Failed " ++ path ++ ": " ++ str e) (snd σ1)))) ∧
  (∀ path self w e self' w1,
     encrypt_file_try path (self, add_event (Call_encrypt_file path) w)
       = (Raise e, (self', w1)) →
     encrypt_file path (self, w)
       = (Ok tt, (self', add_log ERROR ("Failed " ++ path ++ ": " ++ str e) w1))) ∧
  (∀ path self w e self' w1,
     decrypt_file_try path (self, add_event (Call_decrypt_file path) w)
       = (Raise e, (self', w1)) →
     decrypt_file path (self, w)
       = (Ok tt, (self', add_log ERROR ("Failed " ++ path ++ ": " ++ str e) w1))) ∧
  (∀ dirpath filenames self w,
     ∃ self' w', process_filenames dirpath filenames (self, w) = (Ok tt, (self', w')) ∧
       calls (trace w')
       = (calls (trace w)
          ++ map Call_encrypt_file (selected (fs w) dirpath filenames))%list) ∧
  (∀ w, fs w !! CONFIG.keystore ≠ Some Dir →
        ∃ enough, ∀ fuel, (enough ≤ fuel)%nat →
          ∃ w' paths lines,
            lock_system fuel w = (Ok tt, w') ∧
            calls (trace w') = (calls (trace w) ++ map Call_encrypt_file paths)%list ∧
            log w' = (log w ++ lines)%list ∧
            Forall2 (fun p l => l = encrypted_line p ∨ ∃ e, l = failed_line p e)
              paths lines ∧
            ∀ root q, root ∈ ["/home"; "/var"; "/opt"] → to_encrypt (fs w) root q →
                      q ∈ paths ∧ Call_encrypt_file q ∈ trace w').
Proof.
  split; [|split; [|split; [|split; [|split]]]].
  - intros path [self w]. split.
    + destruct (encrypt_file_outcome path self w) as (self' & w' & E & _).
      by exists (self', w').
    + destruct (decrypt_file_outcome path self w) as (self' & w' & E & _).
      by exists (self', w').
  - intros body path σ e [self1 w1] E. unfold try_except. rewrite E.
    by apply io_run.
  - intros path self w e self' w1. apply encrypt_file_run_Raise.
  - intros path self w e self' w1. apply decrypt_file_run_Raise.
  - intros dirpath filenames self w.
    destruct (process_filenames_run dirpath filenames self w)
      as (self' & w' & E & Hcalls & _).
    by exists self', w'.
  - intros w Hk. destruct (lock_system_run w Hk) as (enough & Hrun).
    exists enough. intros fuel Hfuel.
    destruct (Hrun fuel Hfuel) as (w' & paths & lines & E & C & N & M & Hl & R).
    exists w', paths, lines. split; [done |]. split; [done |]. split; [done |].
    split; [exact R |]. intros root q Hroot Hq.
    assert (q ∈ paths) as Hin by (apply M; by exists root).
    split; [done |].
    assert (Call_encrypt_file q ∈ calls (trace w')) as Hc.
    { rewrite C. apply elem_of_app. right. by apply list_elem_of_fmap_2. }
    apply list_elem_of_In, List.filter_In in Hc as [Hc _]. by apply list_elem_of_In.
Qed.

End EntryPoints.

(** A run over [demo_world]: "/home/f" cannot be transformed because
    "/home/f.enc" is a directory; the failure is logged and the files
    after it, the one in the subdirectory included, are still
    processed.  With --unlock the run is the same. *)
Example walk_continues_after_failure :
  let out := @main demo_lib 20 ["linux_encrypter.py"; "--unlock"] demo_world in
  fst out = Ok tt ∧
  log (snd out)
  = [(INFO, "Encrypted /home/short"); (INFO, "Encrypted /home/empty");
     (INFO, "Encrypted /home/a");
     (ERROR, "Failed /home/f: [Errno 21] Is a directory: '/home/f.enc'");
     (INFO, "Encrypted /home/bad"); (INFO, "Encrypted /home/d/b")] ∧
  calls (trace (snd out))
  = map Call_encrypt_file
      ["/home/short"; "/home/empty"; "/home/a"; "/home/f"; "/home/bad"; "/home/d/b"].
Proof. vm_compute. done. Qed.

(** A file whose name is not valid UTF-8 is never encrypted: the walk
    reads it, finds no key for its path, logs the failure and goes on to
    the next file. *)
Example walk_skips_undecodable_name :
  let out := @lock_system demo_lib 5 latin1_world in
  fst out = Ok tt ∧
  calls (trace (snd out)) = map Call_encrypt_file [latin1_path; "/home/z"] ∧
  log (snd out)
  = [(ERROR, "Failed " ++ latin1_path
             ++ ": 'utf-8' codec can't encode character '\udce9' in position 9: surrogates not allowed");
     (INFO, "Encrypted /home/z")] ∧
  fs (snd out) !! latin1_path = Some (File [x01] 420).
Proof. vm_compute. done. Qed.

(** * Further properties of the file transforms *)

Section Footprint.
Context `{CryptoLib}.

(** X1: [encrypt_file] always returns, and the only names it hands to
    the file system for writing, removing or renaming are the path and
    its temporary sibling [path.enc].  In the file system of the model,
    where no other name stands for the same object, every other path is
    therefore as before; and when the file is replaced, [path.enc] does
    not exist afterwards, whether or not a regular file of that name
    existed before. *)
Theorem encrypt_file_footprint (path : string) (self : CryptoEngine) (w : world) :
  ∃ self' w' evs, encrypt_file path (self, w) = (Ok tt, (self', w')) ∧
    trace w' = (trace w ++ evs)%list ∧
    names_in (fun p => p = path ∨ p = path ++ ".enc") evs ∧
    (∀ q, q ≠ path → q ≠ path ++ ".enc" → fs w' !! q = fs w !! q) ∧
    (fs w' = fs w ∨
     (is_regular_file w path ∧ is_regular_file w' path ∧
      fs w' !! (path ++ ".enc") = None)).
Proof.
  destruct (encrypt_file_cases path self w)
    as (self' & w' & evs & E & Ht & _ & Hn & Hfs).
  exists self', w', (Call_encrypt_file path :: evs). split; [done |].
  split; [done |]. split; [by constructor |].
  destruct Hfs as [(data & mode & c & md & Hp & _ & Hfs & _) | [Hfs _]].
  - split.
    + intros q Hq Hq'. rewrite Hfs, replaced_lookup.
      by rewrite !decide_False.
    + right. split; [by exists data, mode |]. split.
      * exists c, md. rewrite Hfs, replaced_lookup.
        rewrite decide_False by ne_tmp path. by rewrite decide_True.
      * rewrite Hfs. apply lookup_delete_eq.
  - split; [by rewrite Hfs | by left].
Qed.

(** X2: [decrypt_file] likewise hands only the path and [path.dec] to
    the file system; in the file system of the model it touches no other
    path, and after a successful decryption [path.dec] does not exist. *)
Theorem decrypt_file_footprint (path : string) (self : CryptoEngine) (w : world) :
  ∃ self' w' evs, decrypt_file path (self, w) = (Ok tt, (self', w')) ∧
    trace w' = (trace w ++ evs)%list ∧
    names_in (fun p => p = path ∨ p = path ++ ".dec") evs ∧
    (∀ q, q ≠ path → q ≠ path ++ ".dec" → fs w' !! q = fs w !! q) ∧
    (fs w' = fs w ∨
     (is_regular_file w path ∧ is_regular_file w' path ∧
      fs w' !! (path ++ ".dec") = None)).
Proof.
  destruct (decrypt_file_cases path self w)
    as (self' & w' & evs & E & Ht & _ & Hn & Hfs).
  exists self', w', (Call_decrypt_file path :: evs). split; [done |].
  split; [done |]. split; [by constructor |].
  destruct Hfs as [(c & mode & data & md & Hp & _ & Hfs & _) | [Hfs _]].
  - split.
    + intros q Hq Hq'. rewrite Hfs.
      rewrite lookup_delete_ne by done. by rewrite lookup_insert_ne.
    + right. split; [by exists c, mode |]. split.
      * exists data, md. rewrite Hfs.
        rewrite lookup_delete_ne by ne_tmp path. apply lookup_insert_eq.
      * rewrite Hfs. apply lookup_delete_eq.
  - split; [by rewrite Hfs | by left].
Qed.

Lemma cache_after_idem (self : CryptoEngine) (path : string) :
  cache_after (cache_after self path) path = cache_after self path.
Proof.
  unfold cache_after at 2 3. destruct (key_cache self !! path) as [k|] eqn:Hk.
  - unfold cache_after. by rewrite Hk.
  - unfold cache_after. cbn [key_cache]. by rewrite lookup_insert_eq.
Qed.

(** X3: [encrypt_file] does not keep the permission mode of the file it
    replaces.  With no file of the temporary names around, the container
    gets the mode of a newly created file, 0o666 masked by the umask,
    whatever the mode was; and decrypting brings the bytes back but
    again with that mode. *)
Theorem transform_resets_mode (path : string) (self : CryptoEngine) (w : world)
    (m : bytes) (mode : Z) :
  fs w !! path = Some (File m mode) →
  fs w !! (path ++ ".enc") = None →
  fs w !! (path ++ ".dec") = None →
  cache_consistent self →
  encodes path = true →
  ∃ self1 w1 c self2 w2,
    encrypt_file path (self, w) = (Ok tt, (self1, w1)) ∧
    fs w1 !! path = Some (File c (Z.land 438 (Z.lnot (umask w)))) ∧
    decrypt_file path (self1, w1) = (Ok tt, (self2, w2)) ∧
    fs w2 !! path = Some (File m (Z.land 438 (Z.lnot (umask w)))).
Proof.
  intros Hp Henc Hdec Hc He.
  destruct (encrypt_sealed path self w m mode Hp)
    as (w1 & tag & ct & E1 & Hseal & Hf1 & Hln & _ & _ & _ & Hd1 & _ & _ & _ & Hu1 & _);
    [by rewrite Henc | done | done |].
  destruct (cache_after_consistent self path Hc) as [Hc1 Hm1].
  destruct (decrypt_sealed path (cache_after self path) w1 (random_bytes w 12) tag ct
              m _ Hf1 Hln)
    as (w2 & E2 & _ & Hf2 & _);
    [by rewrite Hm1 | by rewrite Hd1, Hdec | done | done |].
  unfold mode_for_write, created_mode in Hf1, Hf2.
  rewrite Henc in Hf1. rewrite Hd1, Hdec, Hu1 in Hf2.
  by do 5 eexists.
Qed.

(** X4: an encrypted file keeps its name and stays as eligible as it
    was, so a second [encrypt_file] on it succeeds as well and wraps the
    container in another one: 56 bytes more than the plaintext. *)
Theorem encrypt_file_twice (path : string) (self : CryptoEngine) (w : world)
    (m : bytes) (mode : Z) :
  fs w !! path = Some (File m mode) →
  fs w !! (path ++ ".enc") ≠ Some Dir →
  cache_consistent self →
  encodes path = true →
  ∃ self1 w1 c1 md1 self2 w2 c2 md2,
    encrypt_file path (self, w) = (Ok tt, (self1, w1)) ∧
    fs w1 !! path = Some (File c1 md1) ∧
    length c1 = (28 + length m)%nat ∧
    should_encrypt path w1 = (Ok (eligible (fs w) path), w1) ∧
    encrypt_file path (self1, w1) = (Ok tt, (self2, w2)) ∧
    fs w2 !! path = Some (File c2 md2) ∧
    length c2 = (56 + length m)%nat.
Proof.
  intros Hp Henc Hc He.
  destruct (encrypt_sealed path self w m mode Hp Henc Hc He)
    as (w1 & t1 & ct1 & E1 & _ & Hf1 & Hn1 & Ht1 & Hc1 & He1 & _ & Hel & _).
  destruct (cache_after_consistent self path Hc) as [Hcc _].
  destruct (encrypt_sealed path (cache_after self path) w1 _ _ Hf1) as
    (w2 & t2 & ct2 & E2 & _ & Hf2 & Hn2 & Ht2 & Hc2 & _);
    [by rewrite He1 | done | done |].
  do 8 eexists. split; [exact E1 |]. split; [exact Hf1 |].
  split; [rewrite !length_app; lia |].
  split; [rewrite should_encrypt_eligible; by rewrite Hel |].
  split; [exact E2 |]. split; [exact Hf2 |].
  rewrite !length_app in *. lia.
Qed.

(** X5: two calls of [decrypt_file] undo two calls of [encrypt_file].
    The first encryption seals the plaintext into a container, the second
    seals that container into another one; the first decryption opens
    the outer container and gives the inner one back, the second gives
    the original bytes.  All four calls succeed and log it. *)
Theorem decrypt_twice_restores (path : string) (self : CryptoEngine) (w : world)
    (m : bytes) (mode : Z) :
  fs w !! path = Some (File m mode) →
  fs w !! (path ++ ".enc") ≠ Some Dir →
  fs w !! (path ++ ".dec") ≠ Some Dir →
  cache_consistent self →
  encodes path = true →
  ∃ self1 w1 n1 t1 ct1 md1 self2 w2 n2 t2 ct2 md2 self3 w3 md3 self4 w4 md4,
    encrypt_file path (self, w) = (Ok tt, (self1, w1)) ∧
    seal AES_GCM (derived (master_key self) path) n1 m = (ct1, t1) ∧
    fs w1 !! path = Some (File (n1 ++ t1 ++ ct1) md1) ∧
    encrypt_file path (self1, w1) = (Ok tt, (self2, w2)) ∧
    seal AES_GCM (derived (master_key self) path) n2 (n1 ++ t1 ++ ct1) = (ct2, t2) ∧
    fs w2 !! path = Some (File (n2 ++ t2 ++ ct2) md2) ∧
    length (n2 ++ t2 ++ ct2) = (56 + length m)%nat ∧
    decrypt_file path (self2, w2) = (Ok tt, (self3, w3)) ∧
    fs w3 !! path = Some (File (n1 ++ t1 ++ ct1) md3) ∧
    decrypt_file path (self3, w3) = (Ok tt, (self4, w4)) ∧
    fs w4 !! path = Some (File m md4) ∧
    log w4 = (log w ++ [encrypted_line path; encrypted_line path;
                        decrypted_line path; decrypted_line path])%list.
Proof.
  intros Hp Henc Hdec Hc He.
  destruct (encrypt_sealed path self w m mode Hp Henc Hc He)
    as (w1 & t1 & ct1 & E1 & Hs1 & Hf1 & Hn1 & Ht1 & Hc1 & He1 & Hd1 & _ & Hl1 & _).
  destruct (cache_after_consistent self path Hc) as [Hcc Hm].
  pose proof (cache_after_idem self path) as Hidem.
  destruct (encrypt_sealed path (cache_after self path) w1 _ _ Hf1) as
    (w2 & t2 & ct2 & E2 & Hs2 & Hf2 & Hn2 & Ht2 & Hc2 & _ & Hd2 & _ & Hl2 & _);
    [by rewrite He1 | done | done |].
  rewrite Hidem in E2. rewrite Hm in Hs2.
  destruct (decrypt_sealed path (cache_after self path) w2 (random_bytes w1 12) t2 ct2
              (random_bytes w 12 ++ t1 ++ ct1) _ Hf2 Hn2)
    as (w3 & D1 & _ & Hf3 & Hd3 & Hl3 & _);
    [by rewrite Hm | by rewrite Hd2, Hd1 | done | done |].
  rewrite Hidem in D1.
  destruct (decrypt_sealed path (cache_after self path) w3 (random_bytes w 12) t1 ct1
              m _ Hf3 Hn1)
    as (w4 & D2 & _ & Hf4 & _ & Hl4 & _);
    [by rewrite Hm | by rewrite Hd3 | done | done |].
  rewrite Hidem in D2.
  do 18 eexists. split; [exact E1 |]. split; [exact Hs1 |]. split; [exact Hf1 |].
  split; [exact E2 |]. split; [exact Hs2 |]. split; [exact Hf2 |].
  split; [rewrite !length_app in *; lia |].
  split; [exact D1 |]. split; [exact Hf3 |]. split; [exact D2 |].
  split; [exact Hf4 |].
  by rewrite Hl4, Hl3, Hl2, Hl1, <- !app_assoc.
Qed.

(** X13: a file whose path has no UTF-8 encoding is never transformed.
    In an engine built from any master key, after any earlier
    derivations, [encrypt_file] and [decrypt_file] read the file, get
    the encoder's exception from [_derive_key], and log it as the failure
    of this path: no random byte is drawn, no cipher is set up, nothing
    is written, removed or renamed, and the engine is as before. *)
Theorem transform_without_encoding (master : bytes) (earlier : list string)
    (path : string) (w : world) (data : bytes) (mode : Z) (e : exn) :
  fs w !! path = Some (File data mode) →
  encode path = inl e →
  encrypt_file path (after_deriving earlier (Engine master ∅), w)
  = (Ok tt, (after_deriving earlier (Engine master ∅),
             add_log ERROR ("Failed " ++ path ++ ": " ++ str e)
               (add_event (Call_encrypt_file path) w))) ∧
  decrypt_file path (after_deriving earlier (Engine master ∅), w)
  = (Ok tt, (after_deriving earlier (Engine master ∅),
             add_log ERROR ("Failed " ++ path ++ ": " ++ str e)
               (add_event (Call_decrypt_file path) w))).
Proof.
  intros Hp He.
  assert (key_cache (after_deriving earlier (Engine master ∅)) !! path = None) as Hk.
  { apply not_elem_of_dom. rewrite after_deriving_dom. cbn [key_cache].
    rewrite dom_empty_L, (left_id_L ∅ (∪)), elem_of_list_to_set, list_elem_of_filter.
    intros [Hb _]. unfold encodes in Hb. by rewrite He in Hb. }
  split.
  - apply encrypt_file_run_Raise. by apply (encrypt_file_try_no_key path _ _ data mode).
  - apply decrypt_file_run_Raise. by apply (decrypt_file_try_no_key path _ _ data mode).
Qed.

End Footprint.

Lemma transform_without_encoding_witness :
  @encrypt_file demo_lib latin1_path (@after_deriving demo_lib [] (Engine [x2a] ∅), latin1_world)
  = (Ok tt, (@after_deriving demo_lib [] (Engine [x2a] ∅),
             add_log ERROR
               ("Failed " ++ latin1_path ++ ": " ++ str (UnicodeEncodeError 9 10 233))
               (add_event (Call_encrypt_file latin1_path) latin1_world))) ∧
  @decrypt_file demo_lib latin1_path (@after_deriving demo_lib [] (Engine [x2a] ∅), latin1_world)
  = (Ok tt, (@after_deriving demo_lib [] (Engine [x2a] ∅),
             add_log ERROR
               ("Failed " ++ latin1_path ++ ": " ++ str (UnicodeEncodeError 9 10 233))
               (add_event (Call_decrypt_file latin1_path) latin1_world))).
Proof.
  apply (@transform_without_encoding demo_lib [x2a] [] latin1_path latin1_world
           [x01] 420 (UnicodeEncodeError 9 10 233)).
  - reflexivity.
  - reflexivity.
Defined.

(** * Further properties of the walk *)

Lemma roots_clear_of_exclusions :
  forallb (fun ex => forallb (fun r => incomparable r ex) ["/home/"; "/var/"; "/opt/"])
    CONFIG.exclude = true.
Proof. reflexivity. Qed.

Lemma under_roots_not_excluded (path : string) :
  under_roots path = true →
  any (fun ex => startswith path ex) CONFIG.exclude = false.
Proof.
  intros Hr. apply not_true_is_false. intros Hex.
  apply any_spec in Hex as (ex & Hin & Hp).
  pose proof roots_clear_of_exclusions as Hall.
  rewrite forallb_forall in Hall. apply list_elem_of_In in Hin.
  specialize (Hall ex Hin). rewrite forallb_forall in Hall.
  unfold under_roots in Hr.
  apply orb_true_iff in Hr as [Hr | Hr]; [apply orb_true_iff in Hr as [Hr | Hr] |].
  - rewrite (incomparable_clash path "/home/" ex) in Hp; [done | | done].
    apply Hall. cbn. auto.
  - rewrite (incomparable_clash path "/var/" ex) in Hp; [done | | done].
    apply Hall. cbn. auto.
  - rewrite (incomparable_clash path "/opt/" ex) in Hp; [done | | done].
    apply Hall. cbn. auto.
Qed.

Section MoreProperties.
Context `{CryptoLib}.

(** X9: below the three roots that the entry points walk, no excluded
    prefix can match.  There [should_encrypt] accepts every regular file
    whose name does not end in .enc; the program's own log file is such
    a path. *)
Theorem should_encrypt_under_roots (w : world) (path : string) :
  under_roots path = true →
  should_encrypt path w
    = (Ok (negb (endswith path ".enc") && isfile (fs w) path), w).
Proof.
  intros Hr. rewrite should_encrypt_eligible. unfold eligible.
  rewrite (under_roots_not_excluded path Hr).
  unfold any, CONFIG.extensions. cbn [negb andb existsb].
  by rewrite orb_false_r.
Qed.

(** X10: the names a run hands to the file system for writing,
    removing, renaming or changing a mode all lie below the three roots,
    but for the keystore's.  In the file system of the model, where no
    other name stands for the same object, the run therefore changes no
    path outside the roots, except that it may create the keystore; and
    a keystore file that exists is left as it is. *)
Theorem lock_system_footprint (fuel : nat) (w : world) :
  (∃ evs, trace (snd (lock_system fuel w)) = (trace w ++ evs)%list ∧
          names_in (fun p => under_roots p = true ∨ p = CONFIG.keystore) evs) ∧
  (∀ q, under_roots q = false → q ≠ CONFIG.keystore →
        fs (snd (lock_system fuel w)) !! q = fs w !! q) ∧
  (∀ d md, fs w !! CONFIG.keystore = Some (File d md) →
           fs (snd (lock_system fuel w)) !! CONFIG.keystore = Some (File d md)).
Proof.
  destruct (roots_accounted fuel ["/home"; "/var"; "/opt"] w roots_ok)
    as (F & K & _ & evs & T & N).
  split; [|split; [|exact K]].
  - exists evs. split; [exact T |]. eapply names_in_impl; [|exact N].
    intros p Hp. cbv beta in Hp. by rewrite within_roots in Hp.
  - intros q Hq Hne. apply F; [|done]. by rewrite within_roots.
Qed.

(** X11: a run appends to the log exactly one line for each call of
    [encrypt_file], in the order of the calls: the INFO line of that
    path, or an ERROR line of that path.  Every path it calls
    [encrypt_file] on lies below one of the three roots and does not
    end in .enc; the keystore is never among them. *)
Theorem lock_system_log (fuel : nat) (w : world) :
  ∃ paths lines,
    calls (trace (snd (lock_system fuel w)))
      = (calls (trace w) ++ map Call_encrypt_file paths)%list ∧
    log (snd (lock_system fuel w)) = (log w ++ lines)%list ∧
    length lines = length paths ∧
    Forall2 (fun p l => l = (INFO, "Encrypted " ++ p) ∨
                        ∃ e, l = (ERROR, "Failed " ++ p ++ ": " ++ str e))
      paths lines ∧
    Forall (fun p => under_roots p = true ∧ endswith p ".enc" = false ∧
                     p ≠ CONFIG.keystore) paths.
Proof.
  destruct (roots_accounted fuel ["/home"; "/var"; "/opt"] w roots_ok)
    as (_ & _ & (ps & ls & C & L & R & P) & _).
  exists ps, ls. split; [exact C |]. split; [exact L |].
  split; [symmetry; by eapply Forall2_length |]. split; [exact R |].
  eapply Forall_impl; [exact P |]. intros p [Hp Hs].
  rewrite within_roots in Hp. split; [done |]. split; [done |].
  intros ->. discriminate.
Qed.

(** X12: what a run does with the keystore.  When none of the three roots
    exists nothing happens at all, and no keystore is created.
    Otherwise: an existing keystore file is kept; a missing one is
    created from the first 32 bytes of the random stream with mode
    0o600 and is still there at the end; and a keystore path that is a
    directory aborts the run with the exception of [open], before
    anything is touched. *)
Theorem lock_system_keystore (fuel : nat) (w : world) :
  if some_root_exists ["/home"; "/var"; "/opt"] w
  then match fs w !! CONFIG.keystore with
       | Some (File d md) =>
           fs (snd (lock_system fuel w)) !! CONFIG.keystore = Some (File d md)
       | Some Dir =>
           lock_system fuel w = (Raise (IsADirectoryError CONFIG.keystore), w)
       | None =>
           fs (snd (lock_system fuel w)) !! CONFIG.keystore
           = Some (File (random_bytes w 32) 384)
       end
  else lock_system fuel w = (Ok tt, w).
Proof. exact (roots_keystore fuel ["/home"; "/var"; "/opt"] w roots_ok). Qed.

End MoreProperties.

(** The program encrypts its own log file, which lies below /var, and
    leaves /etc alone apart from the keystore it creates there. *)
Example log_file_is_encrypted :
  let out := @lock_system demo_lib 5 log_world in
  fst out = Ok tt ∧
  calls (trace (snd out)) = [Call_encrypt_file CONFIG.logfile] ∧
  log (snd out) = [(INFO, "Encrypted /var/log/autocrypt.log")] ∧
  fs (snd out) !! "/etc/passwd" = Some (File [x72] 420) ∧
  (∃ c md, fs (snd out) !! CONFIG.logfile = Some (File c md) ∧ length c = 31%nat).
Proof. vm_compute. repeat split; try done. by do 2 eexists. Qed.

Lemma should_encrypt_under_roots_witness :
  should_encrypt CONFIG.logfile log_world
  = (Ok (negb (endswith CONFIG.logfile ".enc") && isfile (fs log_world) CONFIG.logfile),
     log_world).
Proof. apply (should_encrypt_under_roots log_world CONFIG.logfile). reflexivity. Defined.

Section CacheAndOrder.
Context `{CryptoLib}.

(** X8: the key cache of an engine holds exactly the paths whose key was
    asked for since the engine was built and that have a UTF-8 encoding,
    each with the key derived from the master key and the encoded path;
    nothing is ever evicted or overwritten, and the master key stays
    what it was.  A path without encoding is never cached: asking for
    its key raises, each time. *)
Theorem key_cache_contents (master : bytes) (paths : list string) :
  dom (key_cache (after_deriving paths (Engine master ∅)))
  = list_to_set (filter (fun p => encodes p = true) paths) ∧
  (∀ p k, key_cache (after_deriving paths (Engine master ∅)) !! p = Some k →
          p ∈ paths ∧
          ∃ encoded, encode p = inr encoded ∧
                     k = hmac_sha256 master (sha256 encoded)) ∧
  (∀ p, encodes p = false →
        key_cache (after_deriving paths (Engine master ∅)) !! p = None ∧
        ∃ e, _derive_key p (after_deriving paths (Engine master ∅))
             = (Raise e, after_deriving paths (Engine master ∅))) ∧
  master_key (after_deriving paths (Engine master ∅)) = master.
Proof.
  pose proof (after_deriving_dom paths (Engine master ∅)) as Hd.
  cbn [key_cache] in Hd. rewrite dom_empty_L, (left_id_L ∅ (∪)) in Hd.
  destruct (after_deriving_consistent paths (Engine master ∅)
              (fresh_engine_consistent master)) as [Hc Hm].
  assert (∀ p, is_Some (key_cache (after_deriving paths (Engine master ∅)) !! p) →
               p ∈ paths ∧ encodes p = true) as Hin.
  { intros p Hp. apply elem_of_dom in Hp. rewrite Hd in Hp.
    apply elem_of_list_to_set, list_elem_of_filter in Hp. by destruct Hp. }
  split; [exact Hd |]. split; [|split; [|exact Hm]].
  - intros p k Hk. destruct (Hin p) as [Hp He]; [by eexists |].
    split; [done |]. exists (path_bytes p). split; [by apply encodes_encode |].
    rewrite (Hc p k Hk), Hm. reflexivity.
  - intros p He.
    assert (key_cache (after_deriving paths (Engine master ∅)) !! p = None) as Hk.
    { apply eq_None_not_Some. intros Hp. destruct (Hin p Hp) as [_ He']. congruence. }
    split; [exact Hk |]. destruct (encodes_false p He) as [e Hf].
    exists e. by apply derive_key_raises.
Qed.

(** X6: the steps of a successful [encrypt_file], in order: the whole
    file is sealed under the key of its path with a nonce that is the
    next 12 bytes of the random stream; the container is written to
    [path.enc]; the original is removed; and only then is [path.enc]
    renamed onto it.  The random stream has advanced by those 12
    bytes. *)
Theorem encrypt_file_steps (path : string) (self : CryptoEngine) (w : world)
    (m : bytes) (mode : Z) (encoded : bytes) :
  fs w !! path = Some (File m mode) →
  fs w !! (path ++ ".enc") ≠ Some Dir →
  cache_consistent self →
  encode path = inr encoded →
  ∃ self' w' container,
    encrypt_file path (self, w) = (Ok tt, (self', w')) ∧
    nonce_of container = map (urandom w) (seq (rand_pos w) 12) ∧
    trace w'
    = (trace w ++ [Call_encrypt_file path;
                   Aead_encrypt (hmac_sha256 (master_key self) (sha256 encoded))
                     (nonce_of container) m;
                   Fs_write (path ++ ".enc") container;
                   Fs_remove path;
                   Fs_rename (path ++ ".enc") path])%list ∧
    rand_pos w' = (rand_pos w + 12)%nat ∧
    urandom w' = urandom w.
Proof.
  intros Hp Henc Hc Hb. destruct (encode_inr path encoded Hb) as [-> He].
  destruct (encrypt_sealed path self w m mode Hp Henc Hc He)
    as (w1 & tag & ct & E1 & _ & _ & Hln & Hlt & _ & _ & _ & _ & _ & Ht & _ & Hr & Hu).
  destruct (container_split (random_bytes w 12) tag ct Hln Hlt) as (Sn & _ & _).
  exists (cache_after self path), w1, (random_bytes w 12 ++ tag ++ ct)%list.
  split; [exact E1 |]. rewrite Sn. split; [done |]. by split.
Qed.

End CacheAndOrder.

Lemma transform_resets_mode_witness :
  ∃ self1 w1 c self2 w2,
    @encrypt_file demo_lib "/home/d/b" (demo_engine, demo_world) = (Ok tt, (self1, w1)) ∧
    fs w1 !! "/home/d/b" = Some (File c (Z.land 438 (Z.lnot (umask demo_world)))) ∧
    @decrypt_file demo_lib "/home/d/b" (self1, w1) = (Ok tt, (self2, w2)) ∧
    fs w2 !! "/home/d/b"
    = Some (File [x0a; x0b] (Z.land 438 (Z.lnot (umask demo_world)))).
Proof.
  apply (@transform_resets_mode demo_lib "/home/d/b" demo_engine demo_world
           [x0a; x0b] 384).
  - reflexivity.
  - reflexivity.
  - reflexivity.
  - apply (@fresh_engine_consistent demo_lib).
  - reflexivity.
Defined.

(** In [demo_world] the file "/home/d/b" is private (0o600) and the
    umask is 0o022: after the round trip it is readable by all (0o644). *)
Example private_file_becomes_readable :
  fs demo_world !! "/home/d/b" = Some (File [x0a; x0b] 384) ∧
  Z.land 438 (Z.lnot (umask demo_world)) = 420%Z.
Proof. split; reflexivity. Qed.

Lemma encrypt_file_twice_witness :
  ∃ self1 w1 c1 md1 self2 w2 c2 md2,
    @encrypt_file demo_lib "/home/a" (demo_engine, demo_world) = (Ok tt, (self1, w1)) ∧
    fs w1 !! "/home/a" = Some (File c1 md1) ∧
    length c1 = (28 + length [x01; x02; x03])%nat ∧
    should_encrypt "/home/a" w1 = (Ok (eligible (fs demo_world) "/home/a"), w1) ∧
    @encrypt_file demo_lib "/home/a" (self1, w1) = (Ok tt, (self2, w2)) ∧
    fs w2 !! "/home/a" = Some (File c2 md2) ∧
    length c2 = (56 + length [x01; x02; x03])%nat.
Proof.
  apply (@encrypt_file_twice demo_lib "/home/a" demo_engine demo_world
           [x01; x02; x03] 420).
  - reflexivity.
  - vm_compute. discriminate.
  - apply (@fresh_engine_consistent demo_lib).
  - reflexivity.
Defined.

Lemma decrypt_twice_restores_witness :
  ∃ self1 w1 n1 t1 ct1 md1 self2 w2 n2 t2 ct2 md2 self3 w3 md3 self4 w4 md4,
    @encrypt_file demo_lib "/home/a" (demo_engine, demo_world) = (Ok tt, (self1, w1)) ∧
    @seal demo_lib AES_GCM (@derived demo_lib (master_key demo_engine) "/home/a")
      n1 [x01; x02; x03] = (ct1, t1) ∧
    fs w1 !! "/home/a" = Some (File (n1 ++ t1 ++ ct1) md1) ∧
    @encrypt_file demo_lib "/home/a" (self1, w1) = (Ok tt, (self2, w2)) ∧
    @seal demo_lib AES_GCM (@derived demo_lib (master_key demo_engine) "/home/a")
      n2 (n1 ++ t1 ++ ct1) = (ct2, t2) ∧
    fs w2 !! "/home/a" = Some (File (n2 ++ t2 ++ ct2) md2) ∧
    length (n2 ++ t2 ++ ct2) = (56 + length [x01; x02; x03])%nat ∧
    @decrypt_file demo_lib "/home/a" (self2, w2) = (Ok tt, (self3, w3)) ∧
    fs w3 !! "/home/a" = Some (File (n1 ++ t1 ++ ct1) md3) ∧
    @decrypt_file demo_lib "/home/a" (self3, w3) = (Ok tt, (self4, w4)) ∧
    fs w4 !! "/home/a" = Some (File [x01; x02; x03] md4) ∧
    log w4 = (log demo_world
              ++ [encrypted_line "/home/a"; encrypted_line "/home/a";
                  decrypted_line "/home/a"; decrypted_line "/home/a"])%list.
Proof.
  apply (@decrypt_twice_restores demo_lib "/home/a" demo_engine demo_world
           [x01; x02; x03] 420).
  - reflexivity.
  - vm_compute. discriminate.
  - vm_compute. discriminate.
  - apply (@fresh_engine_consistent demo_lib).
  - reflexivity.
Defined.

Lemma encrypt_file_steps_witness :
  ∃ self' w' container,
    @encrypt_file demo_lib "/home/a" (demo_engine, demo_world) = (Ok tt, (self', w')) ∧
    nonce_of container = map (urandom demo_world) (seq (rand_pos demo_world) 12) ∧
    trace w'
    = (trace demo_world
       ++ [Call_encrypt_file "/home/a";
           Aead_encrypt (@hmac_sha256 demo_lib (master_key demo_engine)
                           (@sha256 demo_lib (String.list_byte_of_string "/home/a")))
             (nonce_of container) [x01; x02; x03];
           Fs_write ("/home/a" ++ ".enc") container;
           Fs_remove "/home/a";
           Fs_rename ("/home/a" ++ ".enc") "/home/a"])%list ∧
    rand_pos w' = (rand_pos demo_world + 12)%nat ∧
    urandom w' = urandom demo_world.
Proof.
  apply (@encrypt_file_steps demo_lib "/home/a" demo_engine demo_world
           [x01; x02; x03] 420 (String.list_byte_of_string "/home/a")).
  - reflexivity.
  - vm_compute. discriminate.
  - apply (@fresh_engine_consistent demo_lib).
  - reflexivity.
Defined.

Section DecryptSteps.
Context `{CryptoLib}.

(** X7: the steps of a successful [decrypt_file], in order: the
    container is verified and decrypted under the key of its path; only
    then is the plaintext written to [path.dec], the container removed,
    and [path.dec] renamed onto it.  One INFO line is logged and no
    random byte is drawn. *)
Theorem decrypt_file_steps (path : string) (self : CryptoEngine) (w : world)
    (nonce tag ct m : bytes) (md : Z) (encoded : bytes) :
  fs w !! path = Some (File (nonce ++ tag ++ ct) md) →
  length nonce = 12%nat →
  encode path = inr encoded →
  seal AES_GCM (hmac_sha256 (master_key self) (sha256 encoded)) nonce m
    = (ct, tag) →
  fs w !! (path ++ ".dec") ≠ Some Dir →
  cache_consistent self →
  ∃ self' w',
    decrypt_file path (self, w) = (Ok tt, (self', w')) ∧
    trace w'
    = (trace w ++ [Call_decrypt_file path;
                   Aead_decrypt (hmac_sha256 (master_key self) (sha256 encoded))
                     nonce ct tag;
                   Fs_write (path ++ ".dec") m;
                   Fs_remove path;
                   Fs_rename (path ++ ".dec") path])%list ∧
    log w' = (log w ++ [decrypted_line path])%list ∧
    rand_pos w' = rand_pos w.
Proof.
  intros Hp Hln Hb Hseal Hdec Hc. destruct (encode_inr path encoded Hb) as [-> He].
  destruct (decrypt_sealed path self w nonce tag ct m md Hp Hln Hseal Hdec Hc He)
    as (w2 & E & _ & _ & _ & Hl & Ht & _ & Hr).
  by exists (cache_after self path), w2.
Qed.

End DecryptSteps.

Lemma decrypt_file_steps_witness :
  ∃ self' w',
    @decrypt_file demo_lib "/home/bad" (demo_engine, good_world) = (Ok tt, (self', w')) ∧
    trace w'
    = (trace good_world
       ++ [Call_decrypt_file "/home/bad";
           Aead_decrypt (@hmac_sha256 demo_lib (master_key demo_engine)
                           (@sha256 demo_lib (String.list_byte_of_string "/home/bad")))
             (replicate 12 x01) [x07]
             [x07; x01; x01; x01; x01; x01; x01; x01; x01; x01; x01; x01; x01;
              x2f; x68; x6f];
           Fs_write ("/home/bad" ++ ".dec") [x07];
           Fs_remove "/home/bad";
           Fs_rename ("/home/bad" ++ ".dec") "/home/bad"])%list ∧
    log w' = (log good_world ++ [decrypted_line "/home/bad"])%list ∧
    rand_pos w' = rand_pos good_world.
Proof.
  apply (@decrypt_file_steps demo_lib "/home/bad" demo_engine good_world
           (replicate 12 x01)
           [x07; x01; x01; x01; x01; x01; x01; x01; x01; x01; x01; x01; x01;
            x2f; x68; x6f]
           [x07] [x07] 420 (String.list_byte_of_string "/home/bad")).
  - reflexivity.
  - reflexivity.
  - reflexivity.
  - vm_compute. reflexivity.
  - vm_compute. discriminate.
  - apply (@fresh_engine_consistent demo_lib).
Defined.
